(** * A shallow embedding of the Verlet physics core

    The C++ sources ([Object.h], [Collider.h], [Constraint.h],
    [PhysicsWorld.cpp]) compute on [float].  The embedding is written once
    over an interface [Scalar] that only names the operations the code
    uses; no algebraic law is assumed of them, so every theorem stated for
    an arbitrary [Scalar] holds whatever the rounding behaviour is.  The
    instance [Rscalar] interprets the operations in the real numbers and is
    used where a statement is about exact arithmetic; the instance
    [binary32] interprets them in IEEE 754 single precision and is used
    where a statement depends on the rounding.

    Bodies live outside the world and are reached through [Object*]; the
    embedding keeps a heap of bodies indexed by address, so that aliasing
    between the world's list, the constraints and the collision pairs is
    the aliasing of the program. *)

From Stdlib Require Import Reals Lra List Bool Arith ZArith Lia.
From Stdlib Require Import QArith_base Qreals.
From Stdlib Require Import SpecFloat.
Import ListNotations.

Declare Scope float_scope.
Delimit Scope float_scope with flt.

(** ** Scalars *)

Class Scalar (F : Type) : Type := {
  lit   : Q -> F;            (* a numeric literal of the source *)
  fadd  : F -> F -> F;
  fsub  : F -> F -> F;
  fmul  : F -> F -> F;
  fdiv  : F -> F -> F;
  fneg  : F -> F;
  fabs  : F -> F;            (* std::abs  *)
  fsqrt : F -> F;            (* std::sqrt *)
  fltb  : F -> F -> bool;    (* operator<  *)
  fleb  : F -> F -> bool     (* operator<= *)
}.

Infix "[+]" := fadd (at level 50, left associativity) : float_scope.
Infix "[-]" := fsub (at level 50, left associativity) : float_scope.
Infix "[*]" := fmul (at level 40, left associativity) : float_scope.
Infix "[/]" := fdiv (at level 40, left associativity) : float_scope.
Infix "[<]" := fltb (at level 70, no associativity) : float_scope.
Infix "[<=]" := fleb (at level 70, no associativity) : float_scope.

Local Open Scope float_scope.

Definition Addr := nat.

(** Statement sequencing on a state: [s1 ;; s2] runs [s1] and then [s2]. *)
Definition seq {A : Type} (s1 s2 : A -> A) : A -> A := fun h => s2 (s1 h).

Notation "s1 ;; s2" := (seq s1 s2) (at level 61, right associativity) : float_scope.

Section Core.

Context {F : Type} {SF : Scalar F}.

(** Literals that occur in the sources. *)
Definition f0 : F := lit (0 # 1).
Definition f1 : F := lit (1 # 1).
Definition fm1 : F := lit (-1 # 1).
Definition fhalf : F := lit (1 # 2).          (* 0.5f    *)
Definition feps : F := lit (1 # 10000).       (* 0.0001f *)
Definition f098 : F := lit (98 # 100).        (* 0.98f   *)
Definition f07 : F := lit (7 # 10).           (* 0.7f    *)
Definition f1000 : F := lit (1000 # 1).       (* 1000.f  *)

(** [a > b] is [b < a]. *)
Definition fgtb (a b : F) : bool := b [<] a.

(** [std::min(a, b)] is [(b < a) ? b : a]. *)
Definition fmin (a b : F) : F := if b [<] a then b else a.

(** [std::clamp(v, lo, hi)] is [(v < lo) ? lo : (hi < v) ? hi : v]. *)
Definition fclamp (v lo hi : F) : F :=
  if v [<] lo then lo else if hi [<] v then hi else v.

(** ** sf::Vector2f *)

Record Vector2f : Type := Vec2 { vx : F; vy : F }.

Definition vadd (l r : Vector2f) : Vector2f := Vec2 (vx l [+] vx r) (vy l [+] vy r).
Definition vsub (l r : Vector2f) : Vector2f := Vec2 (vx l [-] vx r) (vy l [-] vy r).
Definition vscale (l : Vector2f) (r : F) : Vector2f := Vec2 (vx l [*] r) (vy l [*] r).
Definition vdiv (l : Vector2f) (r : F) : Vector2f := Vec2 (vx l [/] r) (vy l [/] r).
Definition vzero : Vector2f := Vec2 f0 f0.

(** [v.x * w.x + v.y * w.y], written out at every use in the sources. *)
Definition dot (v w : Vector2f) : F := vx v [*] vx w [+] vy v [*] vy w.

(** ** Collider.h *)

Inductive ColliderType : Type := TCircle | TAABB.

Record CircleCollider : Type := mkCircleCollider { radius : F }.
Record AABBCollider : Type := mkAABBCollider { halfExtents : Vector2f }.

Inductive Collider : Type :=
| IsCircle (c : CircleCollider)
| IsAABB (b : AABBCollider).

Definition type (c : Collider) : ColliderType :=
  match c with IsCircle _ => TCircle | IsAABB _ => TAABB end.

(** [explicit AABBCollider(sf::Vector2f size)] *)
Definition AABBCollider_of_size (size : Vector2f) : AABBCollider :=
  mkAABBCollider (vscale size fhalf).

(** [AABBCollider(float width, float height)] *)
Definition AABBCollider_of_wh (width height : F) : AABBCollider :=
  mkAABBCollider (Vec2 (width [*] fhalf) (height [*] fhalf)).

Definition MakeCircleCollider (r : F) : Collider := IsCircle (mkCircleCollider r).
Definition MakeAABBCollider (width height : F) : Collider :=
  IsAABB (AABBCollider_of_wh width height).
Definition MakeAABBCollider_size (size : Vector2f) : Collider :=
  IsAABB (AABBCollider_of_size size).

(** ** Object.h *)

Record Object : Type := mkObject {
  position : Vector2f;
  oldPosition : Vector2f;
  acceleration : Vector2f;
  mass : F;
  bounciness : F;
  isStatic : bool;
  collider : option Collider      (* std::unique_ptr<Collider>, possibly null *)
}.

Definition set_position (p : Vector2f) (o : Object) : Object :=
  mkObject p (oldPosition o) (acceleration o) (mass o) (bounciness o)
           (isStatic o) (collider o).
Definition set_oldPosition (p : Vector2f) (o : Object) : Object :=
  mkObject (position o) p (acceleration o) (mass o) (bounciness o)
           (isStatic o) (collider o).
Definition set_acceleration (a : Vector2f) (o : Object) : Object :=
  mkObject (position o) (oldPosition o) a (mass o) (bounciness o)
           (isStatic o) (collider o).
Definition set_mass (m : F) (o : Object) : Object :=
  mkObject (position o) (oldPosition o) (acceleration o) m (bounciness o)
           (isStatic o) (collider o).
Definition set_isStatic (b : bool) (o : Object) : Object :=
  mkObject (position o) (oldPosition o) (acceleration o) (mass o)
           (bounciness o) b (collider o).
Definition set_collider (c : option Collider) (o : Object) : Object :=
  mkObject (position o) (oldPosition o) (acceleration o) (mass o)
           (bounciness o) (isStatic o) c.

(** A default-constructed [Object]: zero vectors, [mass = 1.0f],
    [bounciness = 0.7f], [isStatic = false], no collider. *)
Definition Object_new : Object :=
  mkObject vzero vzero vzero f1 f07 false None.

Definition InitVerlet (o : Object) : Object :=
  set_acceleration vzero (set_oldPosition (position o) o).

Definition GetVelocity (o : Object) (dt : F) : Vector2f :=
  if dt [<=] f0 then vzero
  else vdiv (vsub (position o) (oldPosition o)) dt.

Definition SetVelocity (vel : Vector2f) (dt : F) (o : Object) : Object :=
  set_oldPosition (vsub (position o) (vscale vel dt)) o.

Definition SetCircleCollider (r : F) (o : Object) : Object :=
  set_collider (Some (MakeCircleCollider r)) o.

Definition SetAABBCollider (width height : F) (o : Object) : Object :=
  set_collider (Some (MakeAABBCollider width height)) o.

Definition SetAABBCollider_size (size : Vector2f) (o : Object) : Object :=
  set_collider (Some (MakeAABBCollider_size size)) o.

Definition GetCircleCollider (o : Object) : option CircleCollider :=
  match collider o with
  | Some (IsCircle c) => Some c
  | _ => None
  end.

Definition GetAABBCollider (o : Object) : option AABBCollider :=
  match collider o with
  | Some (IsAABB b) => Some b
  | _ => None
  end.

(** ** The heap of bodies

    An [Object*] is an address; [h p] is the body it points to.  The
    statements [p->position += v] and the like become heap updates. *)

Definition Heap : Type := Addr -> Object.

Definition store (p : Addr) (o : Object) (h : Heap) : Heap :=
  fun q => if Nat.eqb q p then o else h q.

Definition modify (p : Addr) (f : Object -> Object) (h : Heap) : Heap :=
  store p (f (h p)) h.

(** [p->position = v] *)
Definition position_set (p : Addr) (v : Vector2f) : Heap -> Heap :=
  modify p (set_position v).
(** [p->position += v] *)
Definition position_add (p : Addr) (v : Vector2f) : Heap -> Heap :=
  modify p (fun o => set_position (vadd (position o) v) o).
(** [p->position -= v] *)
Definition position_sub (p : Addr) (v : Vector2f) : Heap -> Heap :=
  modify p (fun o => set_position (vsub (position o) v) o).
(** [p->oldPosition = v] *)
Definition oldPosition_set (p : Addr) (v : Vector2f) : Heap -> Heap :=
  modify p (set_oldPosition v).
(** [p->oldPosition += v] *)
Definition oldPosition_add (p : Addr) (v : Vector2f) : Heap -> Heap :=
  modify p (fun o => set_oldPosition (vadd (oldPosition o) v) o).
(** [p->oldPosition -= v] *)
Definition oldPosition_sub (p : Addr) (v : Vector2f) : Heap -> Heap :=
  modify p (fun o => set_oldPosition (vsub (oldPosition o) v) o).
(** [p->acceleration = v] *)
Definition acceleration_set (p : Addr) (v : Vector2f) : Heap -> Heap :=
  modify p (set_acceleration v).

(** [if (!p->isStatic) { body }] *)
Definition unless_static (p : Addr) (body : Heap -> Heap) (h : Heap) : Heap :=
  if isStatic (h p) then h else body h.

(** ** Constraint.h *)

Inductive ConstraintType : Type := TDistance | TSpring | TPin.

Record DistanceConstraint : Type := mkDistanceConstraint {
  d_objA : Addr;
  d_objB : Addr;
  d_restLength : F;
  d_stiffness : F
}.

Record SpringConstraint : Type := mkSpringConstraint {
  s_objA : Addr;
  s_objB : Addr;
  s_restLength : F;
  s_stiffness : F;
  s_damping : F
}.

Record PinConstraint : Type := mkPinConstraint {
  obj : Addr;
  anchor : Vector2f
}.

Inductive Constraint : Type :=
| CDistance (c : DistanceConstraint)
| CSpring (c : SpringConstraint)
| CPin (c : PinConstraint).

Definition ctype (c : Constraint) : ConstraintType :=
  match c with
  | CDistance _ => TDistance
  | CSpring _ => TSpring
  | CPin _ => TPin
  end.

(** [std::sqrt(diff.x * diff.x + diff.y * diff.y)] *)
Definition norm (diff : Vector2f) : F := fsqrt (dot diff diff).

(** [DistanceConstraint(Object* a, Object* b)]: rest length from the
    current positions, stiffness [1.0f]. *)
Definition DistanceConstraint_auto (a b : Addr) (h : Heap) : DistanceConstraint :=
  let diff := vsub (position (h b)) (position (h a)) in
  mkDistanceConstraint a b (norm diff) f1.

(** [SpringConstraint(Object* a, Object* b, float stiff, float damp)] *)
Definition SpringConstraint_auto (a b : Addr) (stiff damp : F) (h : Heap)
  : SpringConstraint :=
  let diff := vsub (position (h b)) (position (h a)) in
  mkSpringConstraint a b (norm diff) stiff damp.

(** [explicit PinConstraint(Object* o)]: pin to the current position. *)
Definition PinConstraint_here (o : Addr) (h : Heap) : PinConstraint :=
  mkPinConstraint o (position (h o)).

(** The [if (objA->isStatic) ... else if (objB->isStatic) ... else ...]
    block that ends both [DistanceConstraint::Solve] and
    [SpringConstraint::Solve]. *)
Definition distribute (objA objB : Addr) (correction : Vector2f) (h : Heap) : Heap :=
  if isStatic (h objA) then
    position_sub objB correction h
  else if isStatic (h objB) then
    position_add objA correction h
  else
    (position_add objA (vscale correction fhalf) ;;
     position_sub objB (vscale correction fhalf)) h.

Definition DistanceSolve (c : DistanceConstraint) (h : Heap) : Heap :=
  let diff := vsub (position (h (d_objB c))) (position (h (d_objA c))) in
  let currentLength := norm diff in
  if currentLength [<] feps then h
  else
    let error := currentLength [-] d_restLength c in
    let direction := vdiv diff currentLength in
    let correction := vscale direction (error [*] d_stiffness c) in
    distribute (d_objA c) (d_objB c) correction h.

Definition SpringSolve (c : SpringConstraint) (h : Heap) : Heap :=
  let diff := vsub (position (h (s_objB c))) (position (h (s_objA c))) in
  let currentLength := norm diff in
  if currentLength [<] feps then h
  else
    let displacement := currentLength [-] s_restLength c in
    let direction := vdiv diff currentLength in
    let velA := vsub (position (h (s_objA c))) (oldPosition (h (s_objA c))) in
    let velB := vsub (position (h (s_objB c))) (oldPosition (h (s_objB c))) in
    let relativeVel := vsub velB velA in
    let dampingForce := dot relativeVel direction [*] s_damping c in
    let correction :=
      vscale direction (displacement [*] s_stiffness c [+] dampingForce) in
    distribute (s_objA c) (s_objB c) correction h.

Definition PinSolve (c : PinConstraint) (h : Heap) : Heap :=
  position_set (obj c) (anchor c) h.

Definition SetAnchor (newPos : Vector2f) (c : PinConstraint) : PinConstraint :=
  mkPinConstraint (obj c) newPos.

(** Virtual dispatch of [Constraint::Solve]. *)
Definition Solve (c : Constraint) : Heap -> Heap :=
  match c with
  | CDistance d => DistanceSolve d
  | CSpring s => SpringSolve s
  | CPin p => PinSolve p
  end.

(** ** PhysicsWorld

    [m_objects] holds the registered addresses in insertion order.  A
    constraint is owned through a [unique_ptr]; its address is what
    [RemoveConstraint] compares, so the list keeps it next to the value. *)

Record PhysicsWorld : Type := mkPhysicsWorld {
  m_objects : list Addr;
  m_constraints : list (Addr * Constraint);
  m_gravity : Vector2f;
  m_constraintIterations : Z
}.

(** [PhysicsWorld::PhysicsWorld()] *)
Definition PhysicsWorld_new : PhysicsWorld :=
  mkPhysicsWorld [] [] (Vec2 f0 f1000) 4%Z.

(** The state a call of a [PhysicsWorld] method can see: the bodies of the
    collaborator and the world itself. *)
Record Sim : Type := mkSim { heap : Heap; world : PhysicsWorld }.

Definition with_world (f : PhysicsWorld -> PhysicsWorld) (s : Sim) : Sim :=
  mkSim (heap s) (f (world s)).

(** [std::remove(first, last, value)] followed by [erase] of the tail:
    the elements different from [value], in their order. *)
Fixpoint std_remove (value : Addr) (l : list Addr) : list Addr :=
  match l with
  | [] => []
  | p :: rest =>
      if Nat.eqb p value then std_remove value rest
      else p :: std_remove value rest
  end.

(** [std::remove_if(first, last, pred)] followed by [erase]. *)
Fixpoint std_remove_if {A : Type} (pred : A -> bool) (l : list A) : list A :=
  match l with
  | [] => []
  | c :: rest =>
      if pred c then std_remove_if pred rest
      else c :: std_remove_if pred rest
  end.

Definition AddObject (object : Addr) : Sim -> Sim :=
  with_world (fun w =>
    mkPhysicsWorld (m_objects w ++ [object]) (m_constraints w)
                   (m_gravity w) (m_constraintIterations w)).

Definition RemoveObject (object : Addr) : Sim -> Sim :=
  with_world (fun w =>
    mkPhysicsWorld (std_remove object (m_objects w)) (m_constraints w)
                   (m_gravity w) (m_constraintIterations w)).

(** [AddConstraint]: [ptr] is the address held by the [unique_ptr] that is
    moved into the world; it is also the value returned. *)
Definition AddConstraint (ptr : Addr) (c : Constraint) : Sim -> Sim :=
  with_world (fun w =>
    mkPhysicsWorld (m_objects w) (m_constraints w ++ [(ptr, c)])
                   (m_gravity w) (m_constraintIterations w)).

Definition RemoveConstraint (constraint : Addr) : Sim -> Sim :=
  with_world (fun w =>
    mkPhysicsWorld (m_objects w)
                   (std_remove_if (fun c => Nat.eqb (fst c) constraint)
                                  (m_constraints w))
                   (m_gravity w) (m_constraintIterations w)).

(** [ptr] is the address [std::make_unique] returns. *)
Definition AddDistanceConstraint (ptr a b : Addr) (length : F) (s : Sim) : Sim :=
  let c := if length [<] f0 then DistanceConstraint_auto a b (heap s)
           else mkDistanceConstraint a b length f1 in
  AddConstraint ptr (CDistance c) s.

Definition AddSpringConstraint (ptr a b : Addr) (stiffness damping : F) (s : Sim)
  : Sim :=
  let diff := vsub (position (heap s b)) (position (heap s a)) in
  let length := norm diff in
  AddConstraint ptr (CSpring (mkSpringConstraint a b length stiffness damping)) s.

Definition AddPinConstraint (ptr o : Addr) (anchor : Vector2f) : Sim -> Sim :=
  AddConstraint ptr (CPin (mkPinConstraint o anchor)).

Definition SetConstraintIterations (iterations : Z) : Sim -> Sim :=
  with_world (fun w =>
    mkPhysicsWorld (m_objects w) (m_constraints w) (m_gravity w) iterations).

(** A range-[for] over a vector: the body is run on each element in order. *)
Definition for_each {A : Type} (l : list A) (body : A -> Heap -> Heap)
  : Heap -> Heap :=
  fun h => fold_left (fun h' a => body a h') l h.

(** [for (int i = 0; i < n; ++i) body] *)
Definition repeat_int (n : Z) (body : Heap -> Heap) : Heap -> Heap :=
  fun h => Nat.iter (Z.to_nat n) body h.

Definition SolveConstraints (w : PhysicsWorld) : Heap -> Heap :=
  repeat_int (m_constraintIterations w)
    (for_each (m_constraints w) (fun c => Solve (snd c))).

(** ** Collision resolution

    Each resolver has three parts in the source: the overlap test with the
    contact normal and the penetration depth, the positional correction,
    and the bounce.  The velocities are read before the correction. *)

(** [ResolveCircleCircle], lines 128-147: [None] where the function
    returns without effect. *)
Definition CircleCircle_contact (objA objB : Addr) (h : Heap)
  : option (Vector2f * F) :=
  match GetCircleCollider (h objA), GetCircleCollider (h objB) with
  | Some circleA, Some circleB =>
      let diff := vsub (position (h objB)) (position (h objA)) in
      let distSq := dot diff diff in
      let radiusSum := radius circleA [+] radius circleB in
      if distSq [<] radiusSum [*] radiusSum then
        let distance := fsqrt distSq in
        if distance [<] feps then Some (Vec2 f1 f0, radiusSum)
        else Some (vdiv diff distance, radiusSum [-] distance)
      else None
  | _, _ => None
  end.

(** Lines 153-162. *)
Definition CircleCircle_correct (objA objB : Addr) (normal : Vector2f)
  (penetration : F) : Heap -> Heap :=
  let correction := vscale normal (penetration [*] fhalf) in
  unless_static objA
    (position_sub objA correction ;; oldPosition_sub objA correction) ;;
  unless_static objB
    (position_add objB correction ;; oldPosition_add objB correction).

(** Lines 164-176. *)
Definition CircleCircle_bounce (objA objB : Addr) (normal velA velB : Vector2f)
  : Heap -> Heap :=
  let bounceStrength := fhalf in
  let relVel := vsub velA velB in
  let relVelAlongNormal := dot relVel normal in
  if fgtb relVelAlongNormal f0 then
    let impulse :=
      vscale normal (relVelAlongNormal [*] (f1 [+] bounceStrength) [*] fhalf) in
    unless_static objA (oldPosition_add objA impulse) ;;
    unless_static objB (oldPosition_sub objB impulse)
  else fun h => h.

Definition ResolveCircleCircle (objA objB : Addr) (h : Heap) : Heap :=
  match CircleCircle_contact objA objB h with
  | None => h
  | Some (normal, penetration) =>
      let velA := vsub (position (h objA)) (oldPosition (h objA)) in
      let velB := vsub (position (h objB)) (oldPosition (h objB)) in
      (CircleCircle_correct objA objB normal penetration ;;
       CircleCircle_bounce objA objB normal velA velB) h
  end.

(** [ResolveCircleAABB], lines 181-215. *)
Definition CircleAABB_contact (circle box : Addr) (h : Heap)
  : option (Vector2f * F) :=
  match GetCircleCollider (h circle), GetAABBCollider (h box) with
  | Some circleCollider, Some boxCollider =>
      let cpos := position (h circle) in
      let bpos := position (h box) in
      let boxMin := vsub bpos (halfExtents boxCollider) in
      let boxMax := vadd bpos (halfExtents boxCollider) in
      let closestPoint :=
        Vec2 (fclamp (vx cpos) (vx boxMin) (vx boxMax))
             (fclamp (vy cpos) (vy boxMin) (vy boxMax)) in
      let diff := vsub cpos closestPoint in
      let distSq := dot diff diff in
      let radius := radius circleCollider in
      if distSq [<] radius [*] radius then
        let distance := fsqrt distSq in
        if distance [<] feps then
          let overlapX :=
            vx (halfExtents boxCollider) [-] fabs (vx cpos [-] vx bpos) in
          let overlapY :=
            vy (halfExtents boxCollider) [-] fabs (vy cpos [-] vy bpos) in
          if overlapX [<] overlapY then
            Some (Vec2 (if vx cpos [<] vx bpos then fm1 else f1) f0,
                  overlapX [+] radius)
          else
            Some (Vec2 f0 (if vy cpos [<] vy bpos then fm1 else f1),
                  overlapY [+] radius)
        else Some (vdiv diff distance, radius [-] distance)
      else None
  | _, _ => None
  end.

(** Lines 221-230. *)
Definition CircleAABB_correct (circle box : Addr) (normal : Vector2f)
  (penetration : F) : Heap -> Heap :=
  let correction := vscale normal penetration in
  unless_static circle
    (position_add circle correction ;; oldPosition_add circle correction) ;;
  unless_static box
    (position_sub box correction ;; oldPosition_sub box correction).

(** Lines 232-251. *)
Definition CircleAABB_bounce (circle : Addr) (normal vel : Vector2f)
  (velAlongNormal : F) (h : Heap) : Heap :=
  if negb (isStatic (h circle)) && (velAlongNormal [<] f0) then
    let tangent := Vec2 (fneg (vy normal)) (vx normal) in
    let velAlongTangent := dot vel tangent in
    let newNormalVel := fneg velAlongNormal [*] bounciness (h circle) in
    let newTangentVel := velAlongTangent [*] f098 in
    let oldNormalComp := vscale normal velAlongNormal in
    let oldTangentComp := vscale tangent velAlongTangent in
    let newNormalComp := vscale normal newNormalVel in
    let newTangentComp := vscale tangent newTangentVel in
    let velChange :=
      vsub (vadd newNormalComp newTangentComp)
           (vadd oldNormalComp oldTangentComp) in
    oldPosition_sub circle velChange h
  else h.

Definition ResolveCircleAABB (circle box : Addr) (h : Heap) : Heap :=
  match CircleAABB_contact circle box h with
  | None => h
  | Some (normal, penetration) =>
      let vel := vsub (position (h circle)) (oldPosition (h circle)) in
      let velAlongNormal := dot vel normal in
      (CircleAABB_correct circle box normal penetration ;;
       CircleAABB_bounce circle normal vel velAlongNormal) h
  end.

(** [ResolveAABBAABB], lines 256-280. *)
Definition AABBAABB_contact (objA objB : Addr) (h : Heap)
  : option (Vector2f * F) :=
  match GetAABBCollider (h objA), GetAABBCollider (h objB) with
  | Some boxA, Some boxB =>
      let apos := position (h objA) in
      let bpos := position (h objB) in
      let aMin := vsub apos (halfExtents boxA) in
      let aMax := vadd apos (halfExtents boxA) in
      let bMin := vsub bpos (halfExtents boxB) in
      let bMax := vadd bpos (halfExtents boxB) in
      if (vx aMax [<] vx bMin) || fgtb (vx aMin) (vx bMax) then None
      else if (vy aMax [<] vy bMin) || fgtb (vy aMin) (vy bMax) then None
      else
        let overlapX := fmin (vx aMax [-] vx bMin) (vx bMax [-] vx aMin) in
        let overlapY := fmin (vy aMax [-] vy bMin) (vy bMax [-] vy aMin) in
        if overlapX [<] overlapY then
          Some (if vx apos [<] vx bpos then Vec2 fm1 f0 else Vec2 f1 f0,
                overlapX)
        else
          Some (if vy apos [<] vy bpos then Vec2 f0 fm1 else Vec2 f0 f1,
                overlapY)
  | _, _ => None
  end.

(** Lines 286-295. *)
Definition AABBAABB_correct (objA objB : Addr) (normal : Vector2f)
  (penetration : F) : Heap -> Heap :=
  let correction := vscale normal (penetration [*] fhalf) in
  unless_static objA
    (position_add objA correction ;; oldPosition_add objA correction) ;;
  unless_static objB
    (position_sub objB correction ;; oldPosition_sub objB correction).

(** Lines 297-307. *)
Definition AABBAABB_bounce (objA objB : Addr) (normal velA velB : Vector2f)
  : Heap -> Heap :=
  let bounceStrength := fhalf in
  let relVel := vsub velA velB in
  let relVelAlongNormal := dot relVel normal in
  if relVelAlongNormal [<] f0 then
    let impulse :=
      vscale normal
             (fneg relVelAlongNormal [*] (f1 [+] bounceStrength) [*] fhalf) in
    unless_static objA (oldPosition_sub objA impulse) ;;
    unless_static objB (oldPosition_add objB impulse)
  else fun h => h.

Definition ResolveAABBAABB (objA objB : Addr) (h : Heap) : Heap :=
  match AABBAABB_contact objA objB h with
  | None => h
  | Some (normal, penetration) =>
      let velA := vsub (position (h objA)) (oldPosition (h objA)) in
      let velB := vsub (position (h objB)) (oldPosition (h objB)) in
      (AABBAABB_correct objA objB normal penetration ;;
       AABBAABB_bounce objA objB normal velA velB) h
  end.

(** [ResolveCollision] dereferences both colliders; [Step] only calls it
    when both are present, and the embedding leaves the heap alone in the
    case the source does not define. *)
Definition ResolveCollision (objA objB : Addr) (h : Heap) : Heap :=
  match collider (h objA), collider (h objB) with
  | Some cA, Some cB =>
      match type cA, type cB with
      | TCircle, TCircle => ResolveCircleCircle objA objB h
      | TCircle, TAABB => ResolveCircleAABB objA objB h
      | TAABB, TCircle => ResolveCircleAABB objB objA h
      | TAABB, TAABB => ResolveAABBAABB objA objB h
      end
  | _, _ => h
  end.

(** ** PhysicsWorld::Step *)

(** Loop 1, the body of [for (Object* obj : m_objects)]. *)
Definition gravity_body (gravity : Vector2f) (o : Addr) : Heap -> Heap :=
  unless_static o (acceleration_set o gravity).

(** Loop 2, the body of the Verlet loop. *)
Definition verlet_body (dt : F) (o : Addr) : Heap -> Heap :=
  unless_static o (fun h =>
    let temp := position (h o) in
    let velocity := vsub (position (h o)) (oldPosition (h o)) in
    (position_set o
       (vadd (vadd (position (h o)) velocity)
             (vscale (vscale (acceleration (h o)) dt) dt)) ;;
     oldPosition_set o temp) h).

(** The body of the inner collision loop for the pair [(objA, objB)]. *)
Definition collide_pair (objA objB : Addr) (h : Heap) : Heap :=
  if isStatic (h objA) && isStatic (h objB) then h
  else
    match collider (h objA), collider (h objB) with
    | Some _, Some _ => ResolveCollision objA objB h
    | _, _ => h
    end.

(** [for i ... for j = i + 1 ...] over [m_objects]. *)
Fixpoint collisions (objects : list Addr) (h : Heap) : Heap :=
  match objects with
  | [] => h
  | objA :: rest =>
      collisions rest (for_each rest (fun objB => collide_pair objA objB) h)
  end.

Definition step_gravity (w : PhysicsWorld) : Heap -> Heap :=
  for_each (m_objects w) (gravity_body (m_gravity w)).

Definition step_integrate (w : PhysicsWorld) (dt : F) : Heap -> Heap :=
  for_each (m_objects w) (verlet_body dt).

Definition step_heap (w : PhysicsWorld) (dt : F) : Heap -> Heap :=
  step_gravity w ;;
  step_integrate w dt ;;
  SolveConstraints w ;;
  collisions (m_objects w).

Definition Step (dt : F) (s : Sim) : Sim :=
  mkSim (step_heap (world s) dt (heap s)) (world s).

(** A run of [Step] calls, one per element of [dts]. *)
Definition Steps (dts : list F) (s : Sim) : Sim :=
  fold_left (fun s' dt => Step dt s') dts s.

End Core.

Arguments Vector2f F : clear implicits.
Arguments Object F : clear implicits.
Arguments Heap F : clear implicits.
Arguments Collider F : clear implicits.
Arguments CircleCollider F : clear implicits.
Arguments AABBCollider F : clear implicits.
Arguments DistanceConstraint F : clear implicits.
Arguments SpringConstraint F : clear implicits.
Arguments PinConstraint F : clear implicits.
Arguments Constraint F : clear implicits.
Arguments PhysicsWorld F : clear implicits.
Arguments Sim F : clear implicits.

Arguments f0 {F SF} : simpl never.
Arguments f1 {F SF} : simpl never.
Arguments fm1 {F SF} : simpl never.
Arguments fhalf {F SF} : simpl never.
Arguments feps {F SF} : simpl never.
Arguments f098 {F SF} : simpl never.
Arguments f07 {F SF} : simpl never.
Arguments f1000 {F SF} : simpl never.

(** ** The real-number interpretation of the scalars *)

Definition Rltb (a b : R) : bool := if Rlt_dec a b then true else false.
Definition Rleb (a b : R) : bool := if Rle_dec a b then true else false.

#[export] Instance Rscalar : Scalar R := {|
  lit := Q2R;
  fadd := Rplus;
  fsub := Rminus;
  fmul := Rmult;
  fdiv := Rdiv;
  fneg := Ropp;
  fabs := Rabs;
  fsqrt := sqrt;
  fltb := Rltb;
  fleb := Rleb
|}.

(** ** The single-precision interpretation of the scalars

    [float] is IEEE 754 binary32: a mantissa of 24 bits and infinities at
    exponent 128, every operation rounded to nearest, ties to even.  A
    literal [p / q] is the quotient of the two integers rounded once, which
    is the float nearest to the literal when [p] and [q] are below [2^24],
    as they are for every literal of the program. *)

Definition binary32_of_Z (z : Z) : spec_float :=
  binary_normalize 24 128 z 0 false.

Definition binary32_of_Q (q : Q) : spec_float :=
  SFdiv 24 128 (binary32_of_Z (Qnum q)) (binary32_of_Z (Zpos (Qden q))).

#[export] Instance binary32 : Scalar spec_float := {|
  lit := binary32_of_Q;
  fadd := SFadd 24 128;
  fsub := SFsub 24 128;
  fmul := SFmul 24 128;
  fdiv := SFdiv 24 128;
  fneg := SFopp;
  fabs := SFabs;
  fsqrt := SFsqrt 24 128;
  fltb := SFltb;
  fleb := SFleb
|}.

(** Two dynamic circles of radius 20 in single precision: the first rests
    at [(100, 0)], the second is at [(128.1f, 0)] and was at [(127.1f, 0)]
    the step before, so it moves away from the first. *)
Definition receding_circles_heap : Heap spec_float :=
  fun q =>
    match q with
    | O => SetCircleCollider (lit (20 # 1))
             (InitVerlet
                (set_position (Vec2 (lit (100 # 1)) (lit (0 # 1))) Object_new))
    | _ => SetCircleCollider (lit (20 # 1))
             (set_oldPosition (Vec2 (lit (1271 # 10)) (lit (0 # 1)))
                (set_position (Vec2 (lit (1281 # 10)) (lit (0 # 1)))
                   Object_new))
    end.

(** ** Concrete configurations over the reals *)

(** [Object o; o.position = {x, y}; o.InitVerlet();] *)
Definition body_at (x y : R) : Object R :=
  InitVerlet (set_position (Vec2 x y) Object_new).

(** The same with [o.isStatic = true]. *)
Definition static_body_at (x y : R) : Object R :=
  InitVerlet (set_isStatic true (set_position (Vec2 x y) Object_new)).

(** A heap whose bodies at addresses 0 and 1 are [a] and [b]. *)
Definition heap2 (a b : Object R) : Heap R :=
  fun q => match q with O => a | _ => b end.

(** A static body registered in the world and pinned away from where it
    stands. *)
Definition pinned_static_heap : Heap R :=
  heap2 (static_body_at 0 0) (static_body_at 0 0).

Definition pinned_static_world : PhysicsWorld R :=
  mkPhysicsWorld [0%nat]
    [(0%nat, CPin (mkPinConstraint 0%nat (Vec2 5%R 5%R)))]
    (Vec2 0%R 1000%R) 4%Z.

(** The pendulum of the integration test: a static pivot, a dynamic mass
    and a rigid link of length 100 between them. *)
Definition pendulum_heap : Heap R :=
  heap2 (static_body_at 400 100) (body_at 500 300).

Definition pendulum_world : PhysicsWorld R :=
  mkPhysicsWorld [0%nat; 1%nat]
    [(0%nat, CDistance (mkDistanceConstraint 0%nat 1%nat 100%R 1%R))]
    (Vec2 0%R 1000%R) 4%Z.

(** Two bodies two units apart on the x axis, with the given static
    flags, and a rigid link of rest length 1 between them. *)
Definition link_heap (staticA staticB : bool) : Heap R :=
  heap2 (set_isStatic staticA (body_at 0 0))
        (set_isStatic staticB (body_at 2 0)).

Definition unit_link : DistanceConstraint R :=
  mkDistanceConstraint 0%nat 1%nat 1%R 1%R.

(** A falling ball and a static floor, each registered once. *)
Definition drop_heap : Heap R :=
  heap2 (body_at 100 100) (static_body_at 100 200).

Definition drop_world : PhysicsWorld R :=
  mkPhysicsWorld [0%nat; 1%nat] [] (Vec2 0%R 1000%R) 4%Z.

(** [Object o; o.position = {x, y}; o.InitVerlet(); o.SetCircleCollider(r);] *)
Definition circle_at (x y r : R) : Object R :=
  SetCircleCollider r (body_at x y).

(** Two dynamic circles of radius 25 with the same centre. *)
Definition two_circles_heap : Heap R :=
  heap2 (circle_at 100 100 25) (circle_at 100 100 25).

(** The pendulum with its two bodies registered and one link owned, as
    a whole program state. *)
Definition pendulum_sim : Sim R := mkSim pendulum_heap pendulum_world.

(** The pendulum again, with a mass of 50 on both bodies. *)
Definition heavy_pendulum_heap : Heap R :=
  fun q => set_mass 50%R (pendulum_heap q).

(** Two dynamic circles of radius 2 whose centres are 2 apart. *)
Definition overlapping_circles_heap : Heap R :=
  heap2 (circle_at 0 0 2) (circle_at 2 0 2).

(** A circle of radius 2 moving right by one unit per step towards a
    resting circle of radius 2 whose centre is 2 away. *)
Definition approaching_circles_heap : Heap R :=
  heap2 (set_oldPosition (Vec2 (-1)%R 0%R) (circle_at 0 0 2))
        (circle_at 2 0 2).

(** The ball and the floor of the collision tests: a ball of radius 20 at
    [(100, 170)] that was at [(100, 160)] the step before, and a static
    floor of size [(200, 50)] centred at [(100, 200)]. *)
Definition ball_on_floor_heap : Heap R :=
  heap2 (set_oldPosition (Vec2 100%R 160%R) (circle_at 100 170 20))
        (SetAABBCollider 200%R 50%R (static_body_at 100 200)).

(** A world whose only constraint is [unit_link], on two registered
    bodies. *)
Definition unit_link_world : PhysicsWorld R :=
  mkPhysicsWorld [0%nat; 1%nat] [(0%nat, CDistance unit_link)]
    (Vec2 0%R 1000%R) 4%Z.

(** [Object o; o.position = {x, y}; o.InitVerlet();
    o.SetAABBCollider(width, height);] *)
Definition box_at (x y width height : R) : Object R :=
  SetAABBCollider width height (body_at x y).

(** Two dynamic boxes of size [(4, 4)] whose centres are 3 apart on the x
    axis: they overlap by 1. *)
Definition overlapping_boxes_heap : Heap R :=
  heap2 (box_at 0 0 4 4) (box_at 3 0 4 4).

(** ** Vocabulary of the statements *)

Section Vocabulary.

Context {F : Type} {SF : Scalar F}.

(** The static flags of the heap are the ones [st] records. *)
Definition flags (st : Addr -> bool) (h : Heap F) : Prop :=
  forall q : Addr, isStatic (h q) = st q.

(** A statement [s] keeps every static flag, and the body at [p] after [s]
    is related by [R] to the body before. *)
Definition respects (st : Addr -> bool) (p : Addr)
  (R : Object F -> Object F -> Prop) (s : Heap F -> Heap F) : Prop :=
  forall h : Heap F, flags st h -> flags st (s h) /\ R (h p) (s h p).

(** All fields but [position] agree. *)
Definition same_but_position (o o' : Object F) : Prop :=
  set_position (position o) o' = o.

(** Solving [c] has no write to the position of the body [p] when [p] is
    static: [c] is not a pin on [p], and if [p] is the second body of a
    link then the first one is not static. *)
Definition spares (st : Addr -> bool) (p : Addr) (c : Constraint F) : bool :=
  match c with
  | CDistance d => negb (Nat.eqb (d_objB d) p && st (d_objA d))
  | CSpring s => negb (Nat.eqb (s_objB s) p && st (s_objA s))
  | CPin c => negb (Nat.eqb (obj c) p)
  end.

(** The implicit velocity of a body, [position - oldPosition]. *)
Definition velocity (o : Object F) : Vector2f F :=
  vsub (position o) (oldPosition o).

(** A statement that writes no [position]. *)
Definition keeps_position (s : Heap F -> Heap F) : Prop :=
  forall (h : Heap F) (x : Addr), position (s h x) = position (h x).

(** [o'] is [o] with the vector [d] added to both [position] and
    [oldPosition]. *)
Definition shifted_by (d : Vector2f F) (o o' : Object F) : Prop :=
  o' = set_oldPosition (vadd (oldPosition o) d)
         (set_position (vadd (position o) d) o).

(** [o] after [position += d; oldPosition += d], each sum computed on its
    own as in the source. *)
Definition add_to_both (d : Vector2f F) (o : Object F) : Object F :=
  set_oldPosition (vadd (oldPosition o) d)
    (set_position (vadd (position o) d) o).

(** [o] after [position -= d; oldPosition -= d]. *)
Definition sub_from_both (d : Vector2f F) (o : Object F) : Object F :=
  set_oldPosition (vsub (oldPosition o) d)
    (set_position (vsub (position o) d) o).

(** The guard of a correction block on the body [q], seen from the body
    [x]: the block writes [x] when [x] is [q] and [q] is not static. *)
Definition moves (h : Heap F) (q x : Addr) : bool :=
  Nat.eqb x q && negb (isStatic (h q)).

(** All fields but [mass] agree. *)
Definition same_but_mass (o1 o2 : Object F) : Prop :=
  set_mass (mass o1) o2 = o1.

(** Two heaps that differ at most in the masses of their bodies. *)
Definition agree (h1 h2 : Heap F) : Prop :=
  forall q : Addr, same_but_mass (h1 q) (h2 q).

(** A statement that maps heaps that agree to heaps that agree. *)
Definition blind (s : Heap F -> Heap F) : Prop :=
  forall h1 h2 : Heap F, agree h1 h2 -> agree (s h1) (s h2).

End Vocabulary.

(** The integration contract in the words of the specification, on one
    body: gravity becomes the acceleration of a non-static body ... *)
Definition spec_gravity (gravity : Vector2f R) (o : Object R) : Object R :=
  if isStatic o then o else set_acceleration gravity o.

(** ... and then [velocity = position - previousPosition],
    [newPosition = position + velocity + acceleration * dt^2],
    [previousPosition = position], [position = newPosition]. *)
Definition spec_verlet (dt : R) (o : Object R) : Object R :=
  if isStatic o then o
  else
    let velocity := vsub (position o) (oldPosition o) in
    let newPosition :=
      vadd (vadd (position o) velocity)
           (vscale (acceleration o) (dt * dt)%R) in
    set_position newPosition (set_oldPosition (position o) o).

(** ** Ball.h and the vocabulary of the further properties *)

Section MoreCore.

Context {F : Type} {SF : Scalar F}.

(** The [physics] member after [Ball::Ball(x, y, r, c)]; the
    [sf::CircleShape] beside it only serves drawing. *)
Definition Ball_physics (x y r : F) : Object F :=
  SetCircleCollider r (InitVerlet (set_position (Vec2 x y) Object_new)).

(** [Ball::GetRadius] *)
Definition Ball_GetRadius (physics : Object F) : F :=
  match GetCircleCollider physics with
  | Some circle => radius circle
  | None => f0
  end.

(** The bodies a constraint points to. *)
Definition references (c : Constraint F) (q : Addr) : bool :=
  match c with
  | CDistance d => Nat.eqb (d_objA d) q || Nat.eqb (d_objB d) q
  | CSpring s => Nat.eqb (s_objA s) q || Nat.eqb (s_objB s) q
  | CPin c => Nat.eqb (obj c) q
  end.

(** A statement that leaves the body at [q] as it is, on every heap whose
    body at [q] satisfies [P]. *)
Definition keeps (q : Addr) (P : Object F -> Prop) (s : Heap F -> Heap F)
  : Prop :=
  forall h : Heap F, P (h q) -> s h q = h q.

(** A statement after which every body is related by [K] to what it was. *)
Definition preserves (K : Object F -> Object F -> Prop)
  (s : Heap F -> Heap F) : Prop :=
  forall (h : Heap F) (q : Addr), K (h q) (s h q).

(** [mass], [bounciness], [isStatic] and [collider] agree. *)
Definition same_attributes (o o' : Object F) : Prop :=
  mass o' = mass o /\ bounciness o' = bounciness o /\
  isStatic o' = isStatic o /\ collider o' = collider o.

(** All fields but [position] agree, as [same_but_position], in the form of
    a conjunction. *)
Definition only_position (o o' : Object F) : Prop :=
  oldPosition o' = oldPosition o /\ acceleration o' = acceleration o /\
  same_attributes o o'.

(** The body after [position -= c; oldPosition -= c]. *)
Definition pushed_back (c : Vector2f F) (o : Object F) : Object F :=
  set_oldPosition (vsub (oldPosition o) c) (set_position (vsub (position o) c) o).

(** The body after [position += c; oldPosition += c]. *)
Definition pushed_forth (c : Vector2f F) (o : Object F) : Object F :=
  set_oldPosition (vadd (oldPosition o) c) (set_position (vadd (position o) c) o).

(** The pairs the collision loops of [Step] visit, in the order they are
    visited: [(objects[i], objects[j])] for [i < j], by [i] and then by
    [j]. *)
Fixpoint index_pairs (objects : list Addr) : list (Addr * Addr) :=
  match objects with
  | [] => []
  | objA :: rest => map (pair objA) rest ++ index_pairs rest
  end.

(** The point of the box nearest to the circle centre, as
    [ResolveCircleAABB] computes it by clamping each coordinate. *)
Definition closestPoint (cpos bpos half : Vector2f F) : Vector2f F :=
  let boxMin := vsub bpos half in
  let boxMax := vadd bpos half in
  Vec2 (fclamp (vx cpos) (vx boxMin) (vx boxMax))
       (fclamp (vy cpos) (vy boxMin) (vy boxMax)).

End MoreCore.

(** The length error [currentLength - restLength] of a link between the
    bodies at [a] and [b]. *)
Definition link_error (a b : Addr) (restLength : R) (h : Heap R) : R :=
  (norm (vsub (position (h b)) (position (h a))) - restLength)%R.

(** The distance between the bodies at [a] and [b]. *)
Definition separation (a b : Addr) (h : Heap R) : R :=
  norm (vsub (position (h b)) (position (h a))).

(** * Properties *)

Ltac split_and := repeat match goal with |- _ /\ _ => split end.

(** ** Heap updates *)

Section HeapFacts.

Context {F : Type} {SF : Scalar F}.

Lemma store_same (p : Addr) (o : Object F) (h : Heap F) : store p o h p = o.
Proof. unfold store. now rewrite Nat.eqb_refl. Qed.

Lemma store_other (p q : Addr) (o : Object F) (h : Heap F) :
  q <> p -> store p o h q = h q.
Proof.
  intros Hne. unfold store.
  destruct (Nat.eqb_spec q p) as [E | _]; [contradiction | reflexivity].
Qed.

Lemma modify_same (p : Addr) (f : Object F -> Object F) (h : Heap F) :
  modify p f h p = f (h p).
Proof. apply store_same. Qed.

Lemma modify_other (p q : Addr) (f : Object F -> Object F) (h : Heap F) :
  q <> p -> modify p f h q = h q.
Proof. apply store_other. Qed.

Lemma modify_cases (p q : Addr) (f : Object F -> Object F) (h : Heap F) :
  modify p f h q = if Nat.eqb q p then f (h p) else h q.
Proof. reflexivity. Qed.

End HeapFacts.

(** ** The real interpretation of the literals *)

Lemma R_f0 : @f0 R _ = 0%R.
Proof. unfold f0; simpl; unfold Q2R; simpl; lra. Qed.

Lemma R_f1 : @f1 R _ = 1%R.
Proof. unfold f1; simpl; unfold Q2R; simpl; lra. Qed.

Lemma R_fhalf : @fhalf R _ = (1 / 2)%R.
Proof. unfold fhalf; simpl; unfold Q2R; simpl; lra. Qed.

Lemma R_feps : @feps R _ = (1 / 10000)%R.
Proof. unfold feps; simpl; unfold Q2R; simpl; lra. Qed.

Lemma Rltb_true (a b : R) : (a < b)%R -> Rltb a b = true.
Proof. intros H. unfold Rltb. destruct (Rlt_dec a b); [reflexivity | contradiction]. Qed.

Lemma Rltb_false (a b : R) : (b <= a)%R -> Rltb a b = false.
Proof. intros H. unfold Rltb. destruct (Rlt_dec a b); [lra | reflexivity]. Qed.

Lemma Rleb_true (a b : R) : (a <= b)%R -> Rleb a b = true.
Proof. intros H. unfold Rleb. destruct (Rle_dec a b); [reflexivity | contradiction]. Qed.

Lemma Rleb_false (a b : R) : (b < a)%R -> Rleb a b = false.
Proof. intros H. unfold Rleb. destruct (Rle_dec a b); [lra | reflexivity]. Qed.

Lemma Vec2_eq_R (a b c d : R) : a = c -> b = d -> Vec2 a b = Vec2 c d.
Proof. intros -> ->. reflexivity. Qed.

(** ** Pin constraints *)

Section PinFacts.

Context {F : Type} {SF : Scalar F}.

(** C6. [PinConstraint::Solve] writes the anchor into the position of the
    pinned body, whatever the heap holds beforehand (static or not, moved
    or not) and with no stiffness or blending involved; an anchor changed
    by [SetAnchor] is the one the next [Solve] writes.  Nothing else is
    touched: the body keeps its other fields and every other body is left
    as it was. *)
Theorem C6_pin_solve_forces_anchor
  (c : PinConstraint F) (newPos : Vector2f F) (h : Heap F) :
  position (Solve (CPin c) h (obj c)) = anchor c /\
  position (Solve (CPin (SetAnchor newPos c)) h (obj c)) = newPos /\
  obj (SetAnchor newPos c) = obj c /\
  Solve (CPin c) h (obj c) = set_position (anchor c) (h (obj c)) /\
  (forall q : Addr, q <> obj c -> Solve (CPin c) h q = h q).
Proof.
  simpl. unfold PinSolve, position_set.
  repeat split.
  - now rewrite modify_same.
  - simpl. now rewrite modify_same.
  - now rewrite modify_same.
  - intros q Hq. now apply modify_other.
Qed.

End PinFacts.

Lemma C6_pin_solve_forces_anchor_witness :
  position
    (Solve (CPin (mkPinConstraint 0%nat (Vec2 5%R 5%R))) pinned_static_heap
           0%nat)
    = Vec2 5%R 5%R /\
  Solve (CPin (mkPinConstraint 0%nat (Vec2 5%R 5%R))) pinned_static_heap
        1%nat
    = pinned_static_heap 1%nat.
Proof.
  destruct (C6_pin_solve_forces_anchor
              (mkPinConstraint 0%nat (Vec2 5%R 5%R)) (Vec2 0%R 0%R)
              pinned_static_heap) as (H1 & _ & _ & _ & H5).
  split; [exact H1 |]. apply H5. simpl. lia.
Defined.

(** ** Velocity helpers and box colliders, in exact arithmetic *)

(** C7. In the reals, for [dt > 0], [SetVelocity v dt] stores
    [position - v * dt] as the previous position and leaves the position
    alone, and [GetVelocity dt] then returns [v]; for [dt <= 0],
    [GetVelocity dt] returns the zero vector. *)
Theorem C7_velocity_round_trip (o : Object R) (v : Vector2f R) (dt : R) :
  oldPosition (SetVelocity v dt o) = vsub (position o) (vscale v dt) /\
  position (SetVelocity v dt o) = position o /\
  ((0 < dt)%R -> GetVelocity (SetVelocity v dt o) dt = v) /\
  ((dt <= 0)%R -> GetVelocity o dt = Vec2 0%R 0%R).
Proof.
  split; [reflexivity | split; [reflexivity | split]].
  - intros Hdt. unfold GetVelocity. simpl.
    rewrite R_f0, Rleb_false by assumption.
    destruct v as [a b], o as [[px py] old acc m bo st co]. simpl.
    unfold vdiv, vsub, vscale; simpl.
    apply Vec2_eq_R; field; lra.
  - intros Hdt. unfold GetVelocity. simpl.
    rewrite R_f0, Rleb_true by assumption.
    unfold vzero. now rewrite R_f0.
Qed.

Lemma C7_velocity_round_trip_witness :
  GetVelocity (SetVelocity (Vec2 10%R (-5)%R) (1 / 60)%R (body_at 100 100))
              (1 / 60)%R
    = Vec2 10%R (-5)%R /\
  GetVelocity (SetVelocity (Vec2 10%R (-5)%R) (1 / 60)%R (body_at 100 100))
              0%R
    = Vec2 0%R 0%R.
Proof.
  split.
  - apply (C7_velocity_round_trip
             (body_at 100 100) (Vec2 10%R (-5)%R) (1 / 60)%R). lra.
  - apply (C7_velocity_round_trip
             (SetVelocity (Vec2 10%R (-5)%R) (1 / 60)%R (body_at 100 100))
             (Vec2 0%R 0%R) 0%R). lra.
Defined.

(** C10. [SetAABBCollider] takes full side lengths and the collider keeps
    half of each: [width / 2] and [height / 2], also through the overload
    taking a size vector; the body then has a box collider and no circle
    collider.  A box of size [(200, 50)] has half-extents [(100, 25)], so
    the corners [position - halfExtents] and [position + halfExtents] that
    the resolvers compute lie 100 units to each side horizontally and 25
    vertically. *)
Theorem C10_box_collider_half_extents
  (width height : R) (size : Vector2f R) (o : Object R) :
  GetAABBCollider (SetAABBCollider width height o)
    = Some (mkAABBCollider (Vec2 (width / 2) (height / 2))%R) /\
  GetAABBCollider (SetAABBCollider_size size o)
    = Some (mkAABBCollider (Vec2 (vx size / 2) (vy size / 2))%R) /\
  GetCircleCollider (SetAABBCollider width height o) = None /\
  position (SetAABBCollider width height o) = position o /\
  GetAABBCollider (SetAABBCollider 200%R 50%R o)
    = Some (mkAABBCollider (Vec2 100%R 25%R)) /\
  vsub (position o) (Vec2 100%R 25%R)
    = Vec2 (vx (position o) - 100)%R (vy (position o) - 25)%R /\
  vadd (position o) (Vec2 100%R 25%R)
    = Vec2 (vx (position o) + 100)%R (vy (position o) + 25)%R.
Proof.
  assert (Hhalf : forall x : R, (x [*] fhalf = x / 2)%R).
  { intros x. simpl. rewrite R_fhalf. lra. }
  assert (Hwh : forall w h : R,
            GetAABBCollider (SetAABBCollider w h o)
              = Some (mkAABBCollider (Vec2 (w / 2) (h / 2))%R)).
  { intros w h.
    unfold SetAABBCollider, GetAABBCollider, MakeAABBCollider,
      AABBCollider_of_wh; simpl.
    now rewrite !Hhalf. }
  split_and; try reflexivity.
  - apply Hwh.
  - unfold SetAABBCollider_size, GetAABBCollider, MakeAABBCollider_size,
      AABBCollider_of_size, vscale; simpl.
    now rewrite !Hhalf.
  - rewrite Hwh. do 2 f_equal. apply Vec2_eq_R; lra.
Qed.

(** ** Static bodies *)

Section StaticFrame.

Context {F : Type} {SF : Scalar F}.

Variable st : Addr -> bool.
Variable p : Addr.
Hypothesis p_static : st p = true.

Variable R : Object F -> Object F -> Prop.
Hypothesis R_refl : forall o, R o o.
Hypothesis R_trans : forall a b c, R a b -> R b c -> R a c.

Local Abbreviation respects := (respects st p R).

Lemma respects_skip : respects (fun h => h).
Proof. intros h Hf. split; [assumption | apply R_refl]. Qed.

Lemma respects_seq (s1 s2 : Heap F -> Heap F) :
  respects s1 -> respects s2 -> respects (s1 ;; s2).
Proof.
  intros H1 H2 h Hf. unfold seq.
  destruct (H1 h Hf) as [Hf1 HR1].
  destruct (H2 (s1 h) Hf1) as [Hf2 HR2].
  split; [assumption | eapply R_trans; eassumption].
Qed.

Lemma respects_for_each {A : Type} (l : list A) (body : A -> Heap F -> Heap F) :
  (forall a, In a l -> respects (body a)) -> respects (for_each l body).
Proof.
  unfold for_each. induction l as [| a l IH]; intros Hbody h Hf; simpl.
  - split; [assumption | apply R_refl].
  - destruct (Hbody a (or_introl eq_refl) h Hf) as [Hf1 HR1].
    destruct (IH (fun b Hb => Hbody b (or_intror Hb)) (body a h) Hf1)
      as [Hf2 HR2].
    split; [assumption | eapply R_trans; eassumption].
Qed.

Lemma respects_repeat_int (n : Z) (body : Heap F -> Heap F) :
  respects body -> respects (repeat_int n body).
Proof.
  intros Hbody h Hf. unfold repeat_int.
  induction (Z.to_nat n) as [| k IH]; simpl.
  - split; [assumption | apply R_refl].
  - destruct IH as [Hfk HRk].
    destruct (Hbody _ Hfk) as [Hf' HR'].
    split; [assumption | eapply R_trans; eassumption].
Qed.

Lemma respects_modify (q : Addr) (f : Object F -> Object F) :
  (forall o, isStatic (f o) = isStatic o) ->
  q <> p \/ (forall o, R o (f o)) ->
  respects (modify q f).
Proof.
  intros Hflag Hq h Hf. split.
  - intros r. rewrite modify_cases.
    destruct (Nat.eqb_spec r q) as [-> | _]; [rewrite Hflag |]; apply Hf.
  - rewrite modify_cases.
    destruct (Nat.eqb_spec p q) as [<- | _]; [| apply R_refl].
    destruct Hq as [Hq | Hq]; [contradiction | apply Hq].
Qed.

Lemma respects_unless_static (q : Addr) (body : Heap F -> Heap F) :
  (q <> p -> respects body) -> respects (unless_static q body).
Proof.
  intros Hbody h Hf. unfold unless_static.
  destruct (isStatic (h q)) eqn:E.
  - split; [assumption | apply R_refl].
  - apply Hbody; [| assumption].
    intros ->. rewrite Hf, p_static in E. discriminate.
Qed.

(** The six writes to [position] and [oldPosition], and the one to
    [acceleration], at a body other than [p]. *)
Lemma respects_write (q : Addr) (v : Vector2f F) :
  q <> p ->
  respects (position_set q v) /\ respects (position_add q v) /\
  respects (position_sub q v) /\ respects (oldPosition_set q v) /\
  respects (oldPosition_add q v) /\ respects (oldPosition_sub q v) /\
  respects (acceleration_set q v).
Proof.
  intros Hq. split_and; apply respects_modify; auto.
Qed.

Lemma respects_move (q : Addr) (v : Vector2f F) :
  respects (unless_static q (position_add q v ;; oldPosition_add q v)) /\
  respects (unless_static q (position_sub q v ;; oldPosition_sub q v)) /\
  respects (unless_static q (oldPosition_add q v)) /\
  respects (unless_static q (oldPosition_sub q v)).
Proof.
  split_and; apply respects_unless_static; intros Hq;
    try apply respects_seq; apply (respects_write q v Hq).
Qed.

Lemma respects_gravity_body (g : Vector2f F) (o : Addr) :
  respects (gravity_body g o).
Proof.
  apply respects_unless_static. intros Ho. now apply respects_write.
Qed.

Lemma respects_verlet_body (dt : F) (o : Addr) : respects (verlet_body dt o).
Proof.
  apply respects_unless_static. intros Ho h Hf. cbv zeta.
  apply respects_seq; [ | | assumption]; now apply respects_write.
Qed.

Lemma respects_CircleCircle (objA objB : Addr) :
  respects (ResolveCircleCircle objA objB).
Proof.
  intros h Hf. unfold ResolveCircleCircle.
  destruct (CircleCircle_contact objA objB h) as [[normal penetration] |];
    [| now apply respects_skip].
  cbv zeta. apply respects_seq; [| | assumption].
  - unfold CircleCircle_correct. apply respects_seq; apply respects_move.
  - unfold CircleCircle_bounce. cbv zeta.
    match goal with |- context [if ?b then _ else _] => destruct b end;
      [apply respects_seq; apply respects_move | apply respects_skip].
Qed.

Lemma respects_CircleAABB (circle box : Addr) :
  respects (ResolveCircleAABB circle box).
Proof.
  intros h Hf. unfold ResolveCircleAABB.
  destruct (CircleAABB_contact circle box h) as [[normal penetration] |];
    [| now apply respects_skip].
  cbv zeta. apply respects_seq; [| | assumption].
  - unfold CircleAABB_correct. apply respects_seq; apply respects_move.
  - intros h1 Hf1. unfold CircleAABB_bounce.
    destruct (isStatic (h1 circle)) eqn:E; simpl;
      [now apply respects_skip |].
    match goal with |- context [if ?b then _ else _] => destruct b end;
      [| now apply respects_skip].
    apply respects_write; [| assumption].
    intros ->. rewrite Hf1, p_static in E. discriminate.
Qed.

Lemma respects_AABBAABB (objA objB : Addr) :
  respects (ResolveAABBAABB objA objB).
Proof.
  intros h Hf. unfold ResolveAABBAABB.
  destruct (AABBAABB_contact objA objB h) as [[normal penetration] |];
    [| now apply respects_skip].
  cbv zeta. apply respects_seq; [| | assumption].
  - unfold AABBAABB_correct. apply respects_seq; apply respects_move.
  - unfold AABBAABB_bounce. cbv zeta.
    match goal with |- context [if ?b then _ else _] => destruct b end;
      [apply respects_seq; apply respects_move | apply respects_skip].
Qed.

Lemma respects_ResolveCollision (objA objB : Addr) :
  respects (ResolveCollision objA objB).
Proof.
  intros h Hf. unfold ResolveCollision.
  destruct (collider (h objA)) as [cA |]; [| now apply respects_skip].
  destruct (collider (h objB)) as [cB |]; [| now apply respects_skip].
  destruct (type cA), (type cB);
    first [ now apply respects_CircleCircle
          | now apply respects_CircleAABB
          | now apply respects_AABBAABB ].
Qed.

Lemma respects_collide_pair (objA objB : Addr) :
  respects (collide_pair objA objB).
Proof.
  intros h Hf. unfold collide_pair.
  destruct (isStatic (h objA) && isStatic (h objB));
    [now apply respects_skip |].
  destruct (collider (h objA)); [| now apply respects_skip].
  destruct (collider (h objB)); [| now apply respects_skip].
  now apply respects_ResolveCollision.
Qed.

Lemma respects_collisions (objects : list Addr) :
  respects (collisions objects).
Proof.
  induction objects as [| objA rest IH]; intros h Hf; simpl.
  - now apply respects_skip.
  - apply respects_seq
      with (s1 := for_each rest (fun objB => collide_pair objA objB))
           (s2 := collisions rest); [| assumption | assumption].
    apply respects_for_each. intros objB _. apply respects_collide_pair.
Qed.

Lemma respects_step_gravity (w : PhysicsWorld F) : respects (step_gravity w).
Proof.
  apply respects_for_each. intros o _. apply respects_gravity_body.
Qed.

Lemma respects_step_integrate (w : PhysicsWorld F) (dt : F) :
  respects (step_integrate w dt).
Proof.
  apply respects_for_each. intros o _. apply respects_verlet_body.
Qed.

(** The constraints: either the constraint spares [p], or [R] tolerates
    any write to [position]. *)
Lemma respects_distribute (objA objB : Addr) (correction : Vector2f F) :
  negb (Nat.eqb objB p && st objA) = true
    \/ (forall o v, R o (set_position v o)) ->
  respects (distribute objA objB correction).
Proof.
  intros Hc h Hf. unfold distribute.
  destruct (isStatic (h objA)) eqn:EA.
  - apply respects_modify; [reflexivity | | assumption].
    destruct Hc as [Hc | Hc]; [left | right; intros o; apply Hc].
    intros ->. rewrite <- Hf, EA, Nat.eqb_refl in Hc. discriminate.
  - assert (HA : objA <> p).
    { intros ->. rewrite Hf, p_static in EA. discriminate. }
    destruct (isStatic (h objB)) eqn:EB.
    + now apply respects_write.
    + assert (HB : objB <> p).
      { intros ->. rewrite Hf, p_static in EB. discriminate. }
      apply respects_seq; [ | | assumption]; now apply respects_write.
Qed.

Lemma respects_Solve (c : Constraint F) :
  spares st p c = true \/ (forall o v, R o (set_position v o)) ->
  respects (Solve c).
Proof.
  intros Hc h Hf. destruct c as [d | s | c]; simpl in *.
  - unfold DistanceSolve. cbv zeta.
    match goal with |- context [if ?b then _ else _] => destruct b end;
      [now apply respects_skip | now apply respects_distribute].
  - unfold SpringSolve. cbv zeta.
    match goal with |- context [if ?b then _ else _] => destruct b end;
      [now apply respects_skip | now apply respects_distribute].
  - apply respects_modify; [reflexivity | | assumption].
    destruct Hc as [Hc | Hc]; [left | right; intros o; apply Hc].
    intros E. rewrite E, Nat.eqb_refl in Hc. discriminate.
Qed.

Lemma respects_SolveConstraints (w : PhysicsWorld F) :
  forallb (fun c => spares st p (snd c)) (m_constraints w) = true
    \/ (forall o v, R o (set_position v o)) ->
  respects (SolveConstraints w).
Proof.
  intros Hc. apply respects_repeat_int, respects_for_each.
  intros c Hin. apply respects_Solve.
  destruct Hc as [Hc | Hc]; [left | now right].
  rewrite forallb_forall in Hc. now apply Hc.
Qed.

Lemma respects_step_heap (w : PhysicsWorld F) (dt : F) :
  forallb (fun c => spares st p (snd c)) (m_constraints w) = true
    \/ (forall o v, R o (set_position v o)) ->
  respects (step_heap w dt).
Proof.
  intros Hc. unfold step_heap.
  apply respects_seq; [apply respects_step_gravity |].
  apply respects_seq; [apply respects_step_integrate |].
  apply respects_seq; [now apply respects_SolveConstraints |].
  apply respects_collisions.
Qed.

Lemma respects_Steps (w : PhysicsWorld F) (dts : list F) (h : Heap F) :
  forallb (fun c => spares st p (snd c)) (m_constraints w) = true
    \/ (forall o v, R o (set_position v o)) ->
  flags st h ->
  world (Steps dts (mkSim h w)) = w /\
  flags st (heap (Steps dts (mkSim h w))) /\
  R (h p) (heap (Steps dts (mkSim h w)) p).
Proof.
  intros Hc. unfold Steps. revert h.
  induction dts as [| dt dts IH]; intros h Hf; simpl.
  - repeat split; [assumption | apply R_refl].
  - unfold Step at 2; simpl.
    destruct (respects_step_heap w dt Hc h Hf) as [Hf1 HR1].
    destruct (IH _ Hf1) as (Hw & Hf2 & HR2).
    repeat split; [assumption | assumption |].
    eapply R_trans; eassumption.
Qed.

End StaticFrame.

Section StaticBodies.

Context {F : Type} {SF : Scalar F}.

Lemma same_but_position_refl (o : Object F) : same_but_position o o.
Proof. now destruct o. Qed.

Lemma same_but_position_trans (a b c : Object F) :
  same_but_position a b -> same_but_position b c -> same_but_position a c.
Proof.
  unfold same_but_position, set_position.
  destruct a, b, c; simpl. intros H1 H2.
  injection H1 as -> -> -> -> -> ->. injection H2 as -> -> -> -> -> ->.
  reflexivity.
Qed.

Lemma same_but_position_write (o : Object F) (v : Vector2f F) :
  same_but_position o (set_position v o).
Proof. now destruct o. Qed.

(** C1, as the code has it.  Let [p] be static in the heap [h].  The
    gravity and integration loops of [Step] and the collision pass leave
    the body at [p] exactly as it is, for every world.  Over any run of
    [Step] calls the body stays static and keeps its [oldPosition].  Its
    [position] is kept as well, provided no pin constraint of the world
    pins [p] and no distance or spring constraint has [p] as second body
    with a static first body. *)
Theorem C1_static_body_frame (w : PhysicsWorld F) (h : Heap F) (p : Addr) :
  isStatic (h p) = true ->
  (forall dt : F, (step_gravity w ;; step_integrate w dt) h p = h p) /\
  collisions (m_objects w) h p = h p /\
  (forall dts : list F,
     isStatic (heap (Steps dts (mkSim h w)) p) = true /\
     oldPosition (heap (Steps dts (mkSim h w)) p) = oldPosition (h p)) /\
  (forallb (fun c => spares (fun q => isStatic (h q)) p (snd c))
           (m_constraints w) = true ->
   forall dts : list F, heap (Steps dts (mkSim h w)) p = h p).
Proof.
  intros Hp.
  set (st := fun q => isStatic (h q)).
  assert (Hf : flags st h) by (intros q; reflexivity).
  assert (Hst : st p = true) by exact Hp.
  assert (Heq : forall a b c : Object F, a = b -> b = c -> a = c)
    by (intros; congruence).
  split_and.
  - intros dt.
    assert (Hr : respects st p eq (step_gravity w ;; step_integrate w dt)).
    { apply respects_seq; trivial;
        [apply respects_step_gravity | apply respects_step_integrate];
        trivial. }
    symmetry. apply (Hr h Hf).
  - assert (Hr : respects st p eq (collisions (m_objects w)))
      by (apply respects_collisions; trivial).
    symmetry. apply (Hr h Hf).
  - intros dts.
    destruct (respects_Steps st p Hst same_but_position
                same_but_position_refl same_but_position_trans w dts h)
      as (_ & Hf' & HR); trivial.
    { right. intros o v. apply same_but_position_write. }
    split; [now rewrite Hf' |].
    apply (f_equal oldPosition) in HR. exact HR.
  - intros Hc dts.
    destruct (respects_Steps st p Hst eq (@eq_refl _) Heq w dts h
                (or_introl Hc) Hf) as (_ & _ & HR).
    now symmetry.
Qed.

End StaticBodies.

Lemma C1_static_body_frame_witness :
  isStatic (pendulum_heap 0%nat) = true /\
  heap (Steps [(1 / 60)%R; (1 / 60)%R] (mkSim pendulum_heap pendulum_world))
       0%nat
    = pendulum_heap 0%nat.
Proof.
  split; [reflexivity |].
  apply (C1_static_body_frame pendulum_world pendulum_heap 0%nat);
    reflexivity.
Defined.

(** The claim C1 as the specification words it fails: a static body that
    is registered in the world and pinned to a point away from its
    position has moved to the anchor after one [Step]. *)
Lemma C1_pinned_static_body_moves :
  In 0%nat (m_objects pinned_static_world) /\
  isStatic (pinned_static_heap 0%nat) = true /\
  position
    (heap (Step (1 / 60)%R (mkSim pinned_static_heap pinned_static_world))
          0%nat)
    = Vec2 5%R 5%R /\
  position
    (heap (Step (1 / 60)%R (mkSim pinned_static_heap pinned_static_world))
          0%nat)
    <> position (pinned_static_heap 0%nat).
Proof.
  assert (E : position
    (heap (Step (1 / 60)%R (mkSim pinned_static_heap pinned_static_world))
          0%nat) = Vec2 5%R 5%R) by reflexivity.
  split_and; [now left | reflexivity | exact E |].
  rewrite E. simpl.
  intros H. injection H as H _. lra.
Qed.

(** ** Distance constraints *)

Section DistanceFacts.

Context {F : Type} {SF : Scalar F}.

Lemma distribute_A_static (objA objB : Addr) (c : Vector2f F) (h : Heap F) :
  isStatic (h objA) = true ->
  distribute objA objB c h = position_sub objB c h.
Proof. intros E. unfold distribute. now rewrite E. Qed.

Lemma distribute_B_static (objA objB : Addr) (c : Vector2f F) (h : Heap F) :
  isStatic (h objA) = false -> isStatic (h objB) = true ->
  distribute objA objB c h = position_add objA c h.
Proof. intros EA EB. unfold distribute. now rewrite EA, EB. Qed.

Lemma distribute_dynamic (objA objB : Addr) (c : Vector2f F) (h : Heap F) :
  isStatic (h objA) = false -> isStatic (h objB) = false ->
  distribute objA objB c h
    = position_sub objB (vscale c fhalf)
        (position_add objA (vscale c fhalf) h).
Proof. intros EA EB. unfold distribute. now rewrite EA, EB. Qed.

Lemma distribute_elsewhere (objA objB : Addr) (c : Vector2f F) (h : Heap F)
  (q : Addr) :
  q <> objA -> q <> objB -> distribute objA objB c h q = h q.
Proof.
  intros HA HB. unfold distribute, seq, position_sub, position_add.
  destruct (isStatic (h objA)); [| destruct (isStatic (h objB))];
    now rewrite ?modify_other by assumption.
Qed.

End DistanceFacts.

Lemma norm_zero_R (v : Vector2f R) : norm (vsub v v) = 0%R.
Proof.
  unfold norm, dot, vsub; simpl.
  replace ((vx v - vx v) * (vx v - vx v) + (vy v - vy v) * (vy v - vy v))%R
    with 0%R by ring.
  apply sqrt_0.
Qed.

(** X24. [DistanceConstraint::Solve] in the reals.  With [diff] the vector
    from body A to body B and [currentLength] its length: below [0.0001] the
    solve returns the heap it was given; otherwise, with
    [error = currentLength - restLength] and
    [correction = diff / currentLength * (error * stiffness)], bodies other
    than A and B are untouched, and
    - if A is static and B is not, A is kept and B takes the whole
      correction ([position -= correction]);
    - if B is static and A is not, B is kept and A takes the whole
      correction ([position += correction]);
    - if neither is static, A moves by [correction * 0.5] and B by
      [- correction * 0.5].
    Only [position] is written.  The case of two static bodies is not
    part of the statement. *)
Theorem X24_distance_solve_shares (c : DistanceConstraint R) (h : Heap R) :
  let A := d_objA c in
  let B := d_objB c in
  let diff := vsub (position (h B)) (position (h A)) in
  let currentLength := sqrt (vx diff * vx diff + vy diff * vy diff) in
  let error := (currentLength - d_restLength c)%R in
  let correction :=
    vscale (vdiv diff currentLength) (error * d_stiffness c)%R in
  let half := vscale correction (1 / 2)%R in
  ((currentLength < 1 / 10000)%R -> DistanceSolve c h = h) /\
  ((1 / 10000 <= currentLength)%R ->
     (forall q, q <> A -> q <> B -> DistanceSolve c h q = h q) /\
     (isStatic (h A) = true -> isStatic (h B) = false ->
        DistanceSolve c h A = h A /\
        DistanceSolve c h B
          = set_position (vsub (position (h B)) correction) (h B)) /\
     (isStatic (h A) = false -> isStatic (h B) = true ->
        DistanceSolve c h B = h B /\
        DistanceSolve c h A
          = set_position (vadd (position (h A)) correction) (h A)) /\
     (isStatic (h A) = false -> isStatic (h B) = false ->
        DistanceSolve c h A
          = set_position (vadd (position (h A)) half) (h A) /\
        DistanceSolve c h B
          = set_position (vsub (position (h B)) half) (h B))).
Proof.
  intros A B diff currentLength error correction half.
  assert (Hlen : norm diff = currentLength) by reflexivity.
  assert (Hhalf : @fhalf R _ = (1 / 2)%R) by apply R_fhalf.
  split.
  - intros Hlt. unfold DistanceSolve. fold A B diff. rewrite Hlen.
    simpl. rewrite R_feps, Rltb_true by assumption. reflexivity.
  - intros Hge.
    assert (Hgo : DistanceSolve c h = distribute A B correction h).
    { unfold DistanceSolve. fold A B diff. rewrite Hlen.
      simpl. rewrite R_feps, Rltb_false by assumption. reflexivity. }
    assert (HAB : A <> B).
    { intros E. unfold currentLength, diff in Hge. rewrite E in Hge.
      pose proof (norm_zero_R (position (h B))) as Hz.
      unfold norm, dot in Hz. simpl in Hz, Hge. rewrite Hz in Hge. lra. }
    rewrite Hgo. split_and.
    + intros q HqA HqB. now apply distribute_elsewhere.
    + intros EA EB. rewrite distribute_A_static by assumption.
      unfold position_sub.
      rewrite modify_other, modify_same by assumption. now split.
    + intros EA EB. rewrite distribute_B_static by assumption.
      unfold position_add.
      rewrite modify_other, modify_same by auto. now split.
    + intros EA EB. rewrite distribute_dynamic by assumption.
      unfold position_sub, position_add.
      rewrite modify_other, !modify_same, modify_other by auto.
      unfold half. now rewrite <- Hhalf.
Qed.

Lemma sqrt_4_0 : sqrt ((2 - 0) * (2 - 0) + (0 - 0) * (0 - 0)) = 2%R.
Proof.
  replace ((2 - 0) * (2 - 0) + (0 - 0) * (0 - 0))%R with (2 * 2)%R by ring.
  apply sqrt_square. lra.
Qed.

Lemma unit_link_solve (staticA staticB : bool) :
  DistanceSolve unit_link (link_heap staticA staticB)
    = distribute 0%nat 1%nat (Vec2 1%R 0%R) (link_heap staticA staticB).
Proof.
  unfold DistanceSolve, norm, dot. simpl.
  rewrite sqrt_4_0, R_feps, Rltb_false by lra.
  f_equal. unfold vscale, vdiv; simpl. apply Vec2_eq_R; field.
Qed.

Lemma X24_distance_solve_shares_witness :
  DistanceSolve unit_link (link_heap true false) 0%nat
    = link_heap true false 0%nat /\
  position (DistanceSolve unit_link (link_heap true false) 1%nat)
    = Vec2 1%R 0%R.
Proof.
  destruct (X24_distance_solve_shares unit_link (link_heap true false))
    as [_ H].
  simpl in H. rewrite sqrt_4_0 in H.
  destruct H as (_ & H & _); [lra |].
  destruct (H eq_refl eq_refl) as [HA HB].
  split; [exact HA |].
  rewrite HB. unfold vsub, vscale, vdiv; simpl. apply Vec2_eq_R; field.
Defined.

(** C5.  [DistanceConstraint::Solve] on two static bodies two units
    apart, with rest length 1 and stiffness 1.  The source says that
    static objects do not move and names its last branch
    "both dynamic: split 50/50"; the claim has the 50/50 split in every
    case but that of exactly one static body.  The code does neither: it
    takes the branch of a static A, keeps A and moves the static B by the
    whole correction [(1, 0)], from [(2, 0)] to [(1, 0)]. *)
Lemma C5_both_static_no_split :
  isStatic (link_heap true true 0%nat) = true /\
  isStatic (link_heap true true 1%nat) = true /\
  position (link_heap true true 1%nat) = Vec2 2%R 0%R /\
  position (DistanceSolve unit_link (link_heap true true) 0%nat)
    = Vec2 0%R 0%R /\
  position (DistanceSolve unit_link (link_heap true true) 1%nat)
    = Vec2 1%R 0%R /\
  ~ (position (DistanceSolve unit_link (link_heap true true) 0%nat)
       = vadd (position (link_heap true true 0%nat))
              (vscale (Vec2 1%R 0%R) (1 / 2)%R) /\
     position (DistanceSolve unit_link (link_heap true true) 1%nat)
       = vsub (position (link_heap true true 1%nat))
              (vscale (Vec2 1%R 0%R) (1 / 2)%R)).
Proof.
  rewrite unit_link_solve, distribute_A_static by reflexivity.
  unfold position_sub. rewrite modify_other, modify_same by discriminate.
  unfold vadd, vsub, vscale; simpl. split_and; try reflexivity.
  - apply Vec2_eq_R; lra.
  - intros [H _]. injection H as H _. lra.
Qed.

(** ** Integration *)

Section LoopFacts.

Context {F : Type} {SF : Scalar F}.

(** A loop whose body rewrites the visited body by [f] and nothing else
    applies [f] to a body once per occurrence in the list. *)
Lemma for_each_pointwise (f : Object F -> Object F)
  (body : Addr -> Heap F -> Heap F) :
  (forall a h, body a h a = f (h a)) ->
  (forall a h q, q <> a -> body a h q = h q) ->
  forall (l : list Addr) (h : Heap F) (q : Addr),
    for_each l body h q = Nat.iter (count_occ Nat.eq_dec l q) f (h q).
Proof.
  intros Hsame Hother. unfold for_each.
  induction l as [| a l IH]; intros h q; simpl; [reflexivity |].
  rewrite IH. destruct (Nat.eq_dec a q) as [-> | Hne].
  - rewrite Hsame. now rewrite Nat.iter_succ_r.
  - rewrite Hother by auto. reflexivity.
Qed.

Lemma unless_static_same (o : Addr) (f : Object F -> Object F) (h : Heap F) :
  unless_static o (modify o f) h o = if isStatic (h o) then h o else f (h o).
Proof.
  unfold unless_static. destruct (isStatic (h o)); [reflexivity |].
  apply modify_same.
Qed.

Lemma unless_static_other (o q : Addr) (f : Object F -> Object F) (h : Heap F) :
  q <> o -> unless_static o (modify o f) h q = h q.
Proof.
  intros Hq. unfold unless_static. destruct (isStatic (h o)); [reflexivity |].
  now apply modify_other.
Qed.

End LoopFacts.

Lemma gravity_body_same (g : Vector2f R) (o : Addr) (h : Heap R) :
  gravity_body g o h o = spec_gravity g (h o).
Proof. unfold gravity_body, acceleration_set. apply unless_static_same. Qed.

Lemma gravity_body_other (g : Vector2f R) (o q : Addr) (h : Heap R) :
  q <> o -> gravity_body g o h q = h q.
Proof. unfold gravity_body, acceleration_set. apply unless_static_other. Qed.

Lemma verlet_body_same (dt : R) (o : Addr) (h : Heap R) :
  verlet_body dt o h o = spec_verlet dt (h o).
Proof.
  unfold verlet_body, unless_static, spec_verlet.
  destruct (isStatic (h o)); [reflexivity |].
  unfold seq, oldPosition_set, position_set.
  rewrite modify_same, modify_same.
  destruct (h o) as [[px py] [ox oy] [ax ay] m b s c].
  unfold set_position, set_oldPosition, vadd, vsub, vscale; simpl.
  f_equal. apply Vec2_eq_R; ring.
Qed.

Lemma verlet_body_other (dt : R) (o q : Addr) (h : Heap R) :
  q <> o -> verlet_body dt o h q = h q.
Proof.
  intros Hq. unfold verlet_body, unless_static.
  destruct (isStatic (h o)); [reflexivity |].
  unfold seq, oldPosition_set, position_set.
  now rewrite !modify_other by assumption.
Qed.

Lemma count_occ_once (l : list Addr) (q : Addr) :
  NoDup l -> In q l -> count_occ Nat.eq_dec l q = 1%nat.
Proof.
  intros Hnd Hin.
  pose proof (proj1 (NoDup_count_occ Nat.eq_dec l) Hnd q) as Hle.
  pose proof (proj1 (count_occ_In Nat.eq_dec l q) Hin) as Hgt.
  lia.
Qed.

(** C2.  [Step] is the gravity loop, the Verlet loop, the constraint pass
    and the collision pass, in this order.  After the two loops a body
    holds the result of the specification's per-body update, applied once
    per registration of the body in [m_objects]: first gravity on every
    registration, then the Verlet update on every registration.  A static
    body is skipped by both loops.  A non-static body registered once has
    gravity as acceleration, its old position in [oldPosition] and
    [position + (position - oldPosition) + gravity * dt^2] as position,
    with its other fields untouched. *)
Theorem C2_step_integrates (w : PhysicsWorld R) (dt : R) (h : Heap R) (q : Addr) :
  let k := count_occ Nat.eq_dec (m_objects w) q in
  let h1 := step_integrate w dt (step_gravity w h) in
  step_heap w dt h = collisions (m_objects w) (SolveConstraints w h1) /\
  step_gravity w h q = Nat.iter k (spec_gravity (m_gravity w)) (h q) /\
  h1 q = Nat.iter k (spec_verlet dt)
           (Nat.iter k (spec_gravity (m_gravity w)) (h q)) /\
  (isStatic (h q) = true -> step_gravity w h q = h q /\ h1 q = h q) /\
  (isStatic (h q) = false -> In q (m_objects w) -> NoDup (m_objects w) ->
     acceleration (h1 q) = m_gravity w /\
     oldPosition (h1 q) = position (h q) /\
     position (h1 q)
       = vadd (vadd (position (h q))
                    (vsub (position (h q)) (oldPosition (h q))))
              (vscale (m_gravity w) (dt * dt)%R) /\
     mass (h1 q) = mass (h q) /\
     bounciness (h1 q) = bounciness (h q) /\
     isStatic (h1 q) = false /\
     collider (h1 q) = collider (h q)).
Proof.
  intros k h1.
  assert (Hg : step_gravity w h q
               = Nat.iter k (spec_gravity (m_gravity w)) (h q)).
  { unfold step_gravity. apply for_each_pointwise.
    - intros a h0. apply gravity_body_same.
    - intros a h0 r. apply gravity_body_other. }
  assert (Hv : h1 q = Nat.iter k (spec_verlet dt)
                        (Nat.iter k (spec_gravity (m_gravity w)) (h q))).
  { unfold h1, step_integrate. rewrite <- Hg. apply for_each_pointwise.
    - intros a h0. apply verlet_body_same.
    - intros a h0 r. apply verlet_body_other. }
  split_and; try assumption.
  - reflexivity.
  - intros Hs.
    assert (E : Nat.iter k (spec_gravity (m_gravity w)) (h q) = h q).
    { clear Hg Hv. induction k as [| n IH]; simpl; [reflexivity |].
      rewrite IH. unfold spec_gravity. now rewrite Hs. }
    rewrite Hv, Hg, E. split; [reflexivity |].
    clear Hg Hv E. induction k as [| n IH]; simpl; [reflexivity |].
    rewrite IH. unfold spec_verlet. now rewrite Hs.
  - intros Hs Hin Hnd. rewrite Hv.
    unfold k. rewrite (count_occ_once _ _ Hnd Hin). simpl.
    unfold spec_verlet, spec_gravity. rewrite Hs. simpl. rewrite Hs.
    repeat split. exact Hs.
Qed.

Lemma C2_step_integrates_witness :
  position (step_integrate drop_world (1 / 10)%R
              (step_gravity drop_world drop_heap) 0%nat)
    = vadd (vadd (position (drop_heap 0%nat))
                 (vsub (position (drop_heap 0%nat))
                       (oldPosition (drop_heap 0%nat))))
           (vscale (m_gravity drop_world) (1 / 10 * (1 / 10))%R) /\
  step_integrate drop_world (1 / 10)%R
    (step_gravity drop_world drop_heap) 1%nat = drop_heap 1%nat.
Proof.
  split.
  - apply (C2_step_integrates drop_world (1 / 10)%R drop_heap 0%nat).
    + reflexivity.
    + simpl. lia.
    + repeat constructor; simpl; lia.
  - apply (C2_step_integrates drop_world (1 / 10)%R drop_heap 1%nat).
    reflexivity.
Defined.

(** ** Positional correction and bounce *)

Section CorrectionFacts.

Context {F : Type} {SF : Scalar F}.

(** [if (!q->isStatic) { q->position (+|-)= c; q->oldPosition (+|-)= c; }] *)
Lemma guarded_pair (q : Addr) (f g : Object F -> Object F) (h : Heap F)
  (x : Addr) :
  unless_static q (modify q f ;; modify q g) h x
    = if Nat.eqb x q
      then (if isStatic (h q) then h q else g (f (h q)))
      else h x.
Proof.
  unfold unless_static, seq.
  destruct (isStatic (h q)) eqn:E.
  - destruct (Nat.eqb_spec x q) as [-> | _]; reflexivity.
  - rewrite modify_cases, modify_same.
    destruct (Nat.eqb_spec x q) as [-> | Hne]; [reflexivity |].
    now apply modify_other.
Qed.

(** Two such blocks in a row, on two distinct bodies. *)
Lemma guarded_pairs (a b : Addr) (f g f' g' : Object F -> Object F)
  (h : Heap F) (x : Addr) :
  a <> b ->
  (unless_static a (modify a f ;; modify a g) ;;
   unless_static b (modify b f' ;; modify b g')) h x
    = if Nat.eqb x a
      then (if isStatic (h a) then h a else g (f (h a)))
      else if Nat.eqb x b
           then (if isStatic (h b) then h b else g' (f' (h b)))
           else h x.
Proof.
  intros Hab. unfold seq at 1. rewrite !guarded_pair.
  destruct (Nat.eqb_spec b a) as [E | _]; [now symmetry in E |].
  destruct (Nat.eqb_spec x b) as [-> | Hxb].
  - destruct (Nat.eqb_spec b a) as [E | _]; [now symmetry in E |].
    reflexivity.
  - reflexivity.
Qed.

(** Two such blocks in a row on any two bodies, also on one body twice:
    each block rewrites the body it guards by its two assignments. *)
Lemma guarded_blocks (a b : Addr) (f g f' g' : Object F -> Object F)
  (h : Heap F) (x : Addr) :
  (forall o, isStatic (g (f o)) = isStatic o) ->
  (unless_static a (modify a f ;; modify a g) ;;
   unless_static b (modify b f' ;; modify b g')) h x
    = (if moves h b x then fun o => g' (f' o) else fun o => o)
        ((if moves h a x then fun o => g (f o) else fun o => o) (h x)).
Proof.
  intros Hst. unfold seq at 1. rewrite !guarded_pair. unfold moves.
  destruct (Nat.eqb_spec x b) as [Exb | Hxb].
  - subst x. destruct (Nat.eqb_spec b a) as [Eba | Hba].
    + subst b. destruct (isStatic (h a)) eqn:Ea; simpl.
      * now rewrite Ea.
      * now rewrite Hst, Ea.
    + destruct (isStatic (h b)); reflexivity.
  - destruct (Nat.eqb_spec x a) as [Exa | Hxa]; [| reflexivity].
    subst x. destruct (isStatic (h a)); reflexivity.
Qed.

Lemma keeps_position_skip : keeps_position (fun h : Heap F => h).
Proof. intros h x. reflexivity. Qed.

Lemma keeps_position_seq (s1 s2 : Heap F -> Heap F) :
  keeps_position s1 -> keeps_position s2 -> keeps_position (s1 ;; s2).
Proof. intros H1 H2 h x. unfold seq. now rewrite H2, H1. Qed.

Lemma keeps_position_unless_static (q : Addr) (s : Heap F -> Heap F) :
  keeps_position s -> keeps_position (unless_static q s).
Proof.
  intros H h x. unfold unless_static.
  destruct (isStatic (h q)); [reflexivity | apply H].
Qed.

Lemma keeps_position_old (q : Addr) (v : Vector2f F) :
  keeps_position (oldPosition_add q v) /\
  keeps_position (oldPosition_sub q v) /\
  keeps_position (oldPosition_set q v).
Proof.
  split_and; intros h x;
    unfold oldPosition_add, oldPosition_sub, oldPosition_set;
    rewrite modify_cases;
    (destruct (Nat.eqb_spec x q) as [-> | _]; reflexivity).
Qed.

Lemma keeps_position_CircleCircle_bounce (a b : Addr) (n vA vB : Vector2f F) :
  keeps_position (CircleCircle_bounce a b n vA vB).
Proof.
  unfold CircleCircle_bounce. cbv zeta.
  match goal with |- context [if ?c then _ else _] => destruct c end;
    [| apply keeps_position_skip].
  apply keeps_position_seq; apply keeps_position_unless_static;
    apply keeps_position_old.
Qed.

Lemma keeps_position_AABBAABB_bounce (a b : Addr) (n vA vB : Vector2f F) :
  keeps_position (AABBAABB_bounce a b n vA vB).
Proof.
  unfold AABBAABB_bounce. cbv zeta.
  match goal with |- context [if ?c then _ else _] => destruct c end;
    [| apply keeps_position_skip].
  apply keeps_position_seq; apply keeps_position_unless_static;
    apply keeps_position_old.
Qed.

Lemma keeps_position_CircleAABB_bounce (c : Addr) (n v : Vector2f F) (van : F) :
  keeps_position (CircleAABB_bounce c n v van).
Proof.
  intros h x. unfold CircleAABB_bounce.
  match goal with |- context [if ?c then _ else _] => destruct c end;
    [| reflexivity].
  apply keeps_position_old.
Qed.

(** The position a body has after the correction stage of each resolver. *)
Lemma CircleCircle_correct_position (a b : Addr) (n : Vector2f F) (pen : F)
  (h : Heap F) :
  a <> b ->
  position (CircleCircle_correct a b n pen h a)
    = (if isStatic (h a) then position (h a)
       else vsub (position (h a)) (vscale n (pen [*] fhalf))) /\
  position (CircleCircle_correct a b n pen h b)
    = (if isStatic (h b) then position (h b)
       else vadd (position (h b)) (vscale n (pen [*] fhalf))).
Proof.
  intros Hab. unfold CircleCircle_correct. cbv zeta.
  unfold position_sub, position_add, oldPosition_sub, oldPosition_add.
  rewrite !guarded_pairs, !Nat.eqb_refl by assumption.
  destruct (Nat.eqb_spec b a) as [E | _]; [now symmetry in E |].
  split; [destruct (isStatic (h a)) | destruct (isStatic (h b))];
    reflexivity.
Qed.

Lemma CircleAABB_correct_position (a b : Addr) (n : Vector2f F) (pen : F)
  (h : Heap F) :
  a <> b ->
  position (CircleAABB_correct a b n pen h a)
    = (if isStatic (h a) then position (h a)
       else vadd (position (h a)) (vscale n pen)) /\
  position (CircleAABB_correct a b n pen h b)
    = (if isStatic (h b) then position (h b)
       else vsub (position (h b)) (vscale n pen)).
Proof.
  intros Hab. unfold CircleAABB_correct. cbv zeta.
  unfold position_sub, position_add, oldPosition_sub, oldPosition_add.
  rewrite !guarded_pairs, !Nat.eqb_refl by assumption.
  destruct (Nat.eqb_spec b a) as [E | _]; [now symmetry in E |].
  split; [destruct (isStatic (h a)) | destruct (isStatic (h b))];
    reflexivity.
Qed.

Lemma AABBAABB_correct_position (a b : Addr) (n : Vector2f F) (pen : F)
  (h : Heap F) :
  a <> b ->
  position (AABBAABB_correct a b n pen h a)
    = (if isStatic (h a) then position (h a)
       else vadd (position (h a)) (vscale n (pen [*] fhalf))) /\
  position (AABBAABB_correct a b n pen h b)
    = (if isStatic (h b) then position (h b)
       else vsub (position (h b)) (vscale n (pen [*] fhalf))).
Proof.
  intros Hab. unfold AABBAABB_correct. cbv zeta.
  unfold position_sub, position_add, oldPosition_sub, oldPosition_add.
  rewrite !guarded_pairs, !Nat.eqb_refl by assumption.
  destruct (Nat.eqb_spec b a) as [E | _]; [now symmetry in E |].
  split; [destruct (isStatic (h a)) | destruct (isStatic (h b))];
    reflexivity.
Qed.

Lemma CircleAABB_contact_distinct (circle box : Addr) (h : Heap F) :
  CircleAABB_contact circle box h <> None -> circle <> box.
Proof.
  intros Hc E. apply Hc. subst box.
  unfold CircleAABB_contact, GetCircleCollider, GetAABBCollider.
  destruct (collider (h circle)) as [[c | b] |]; reflexivity.
Qed.

(** C3.  When the resolvers find a contact with normal [n] and
    penetration [pen], the position of a non-static body changes by the
    correction and that of a static body does not change.  In
    [ResolveCircleAABB] the correction is [n * pen], added to the circle
    and subtracted from the box.  In [ResolveCircleCircle] and
    [ResolveAABBAABB], on two distinct bodies, the correction is
    [n * (pen * 0.5f)].  Without a contact a resolver returns the heap it
    was given. *)
Theorem C3_correction_magnitude (a b : Addr) (h : Heap F) :
  match CircleAABB_contact a b h with
  | None => ResolveCircleAABB a b h = h
  | Some (n, pen) =>
      position (ResolveCircleAABB a b h a)
        = (if isStatic (h a) then position (h a)
           else vadd (position (h a)) (vscale n pen)) /\
      position (ResolveCircleAABB a b h b)
        = (if isStatic (h b) then position (h b)
           else vsub (position (h b)) (vscale n pen))
  end /\
  (a <> b ->
   match CircleCircle_contact a b h with
   | None => ResolveCircleCircle a b h = h
   | Some (n, pen) =>
       position (ResolveCircleCircle a b h a)
         = (if isStatic (h a) then position (h a)
            else vsub (position (h a)) (vscale n (pen [*] fhalf))) /\
       position (ResolveCircleCircle a b h b)
         = (if isStatic (h b) then position (h b)
            else vadd (position (h b)) (vscale n (pen [*] fhalf)))
   end /\
   match AABBAABB_contact a b h with
   | None => ResolveAABBAABB a b h = h
   | Some (n, pen) =>
       position (ResolveAABBAABB a b h a)
         = (if isStatic (h a) then position (h a)
            else vadd (position (h a)) (vscale n (pen [*] fhalf))) /\
       position (ResolveAABBAABB a b h b)
         = (if isStatic (h b) then position (h b)
            else vsub (position (h b)) (vscale n (pen [*] fhalf)))
   end).
Proof.
  split; [| intros Hab; split].
  - pose proof (CircleAABB_contact_distinct a b h) as Hd.
    unfold ResolveCircleAABB.
    destruct (CircleAABB_contact a b h) as [[n pen] |]; [| reflexivity].
    cbv zeta. unfold seq.
    rewrite !keeps_position_CircleAABB_bounce.
    apply CircleAABB_correct_position. apply Hd. discriminate.
  - unfold ResolveCircleCircle.
    destruct (CircleCircle_contact a b h) as [[n pen] |]; [| reflexivity].
    cbv zeta. unfold seq.
    rewrite !keeps_position_CircleCircle_bounce.
    now apply CircleCircle_correct_position.
  - unfold ResolveAABBAABB.
    destruct (AABBAABB_contact a b h) as [[n pen] |]; [| reflexivity].
    cbv zeta. unfold seq.
    rewrite !keeps_position_AABBAABB_bounce.
    now apply AABBAABB_correct_position.
Qed.

End CorrectionFacts.

Lemma two_circles_contact :
  CircleCircle_contact 0%nat 1%nat two_circles_heap
    = Some (Vec2 f1 f0, (25 + 25)%R).
Proof.
  unfold CircleCircle_contact, dot, vsub. simpl.
  replace ((100 - 100) * (100 - 100) + (100 - 100) * (100 - 100))%R
    with 0%R by ring.
  rewrite Rltb_true by lra.
  rewrite sqrt_0, R_feps, Rltb_true by lra.
  reflexivity.
Qed.

Lemma C3_correction_magnitude_witness :
  0%nat <> 1%nat /\
  position (ResolveCircleCircle 0%nat 1%nat two_circles_heap 0%nat)
    = vsub (Vec2 100%R 100%R) (vscale (Vec2 f1 f0) ((25 + 25) * fhalf)%R) /\
  position (ResolveCircleCircle 0%nat 1%nat two_circles_heap 1%nat)
    = vadd (Vec2 100%R 100%R) (vscale (Vec2 f1 f0) ((25 + 25) * fhalf)%R).
Proof.
  split; [discriminate |].
  destruct (C3_correction_magnitude 0%nat 1%nat two_circles_heap)
    as [_ H].
  destruct H as [H _]; [discriminate |].
  rewrite two_circles_contact in H. exact H.
Defined.

(** ** The correction stage and the implicit velocity *)

Lemma Object_eq_R (p p' o o' a : Vector2f R) (m b : R) (s : bool)
  (c : option (Collider R)) :
  p = p' -> o = o' -> mkObject p o a m b s c = mkObject p' o' a m b s c.
Proof. intros -> ->. reflexivity. Qed.

Lemma shifted_by_zero (o : Object R) : shifted_by (Vec2 0%R 0%R) o o.
Proof.
  destruct o as [[px py] [ox oy] a m b s c].
  unfold shifted_by, set_oldPosition, set_position, vadd; simpl.
  apply Object_eq_R; apply Vec2_eq_R; ring.
Qed.

Lemma shifted_by_trans (d1 d2 : Vector2f R) (o1 o2 o3 : Object R) :
  shifted_by d1 o1 o2 -> shifted_by d2 o2 o3 ->
  shifted_by (vadd d1 d2) o1 o3.
Proof.
  unfold shifted_by. intros -> ->.
  destruct o1 as [[px py] [ox oy] a m b s c], d1 as [d1x d1y], d2 as [d2x d2y].
  unfold set_oldPosition, set_position, vadd; simpl.
  apply Object_eq_R; apply Vec2_eq_R; ring.
Qed.

Lemma shifted_by_velocity (d : Vector2f R) (o o' : Object R) :
  shifted_by d o o' -> velocity o' = velocity o.
Proof.
  unfold shifted_by. intros ->.
  destruct o as [[px py] [ox oy] a m b s c], d as [dx dy].
  unfold velocity, vsub, vadd; simpl. apply Vec2_eq_R; ring.
Qed.

Lemma shifted_guarded_add (q : Addr) (c : Vector2f R) (h : Heap R) (x : Addr) :
  exists d,
    shifted_by d (h x)
      (unless_static q (position_add q c ;; oldPosition_add q c) h x).
Proof.
  unfold position_add, oldPosition_add. rewrite guarded_pair.
  destruct (Nat.eqb_spec x q) as [-> | _];
    [destruct (isStatic (h q)) |];
    try (exists (Vec2 0%R 0%R); apply shifted_by_zero).
  exists c. unfold shifted_by.
  destruct (h q) as [[px py] [ox oy] a m b s co]. reflexivity.
Qed.

Lemma shifted_guarded_sub (q : Addr) (c : Vector2f R) (h : Heap R) (x : Addr) :
  exists d,
    shifted_by d (h x)
      (unless_static q (position_sub q c ;; oldPosition_sub q c) h x).
Proof.
  unfold position_sub, oldPosition_sub. rewrite guarded_pair.
  destruct (Nat.eqb_spec x q) as [-> | _];
    [destruct (isStatic (h q)) |];
    try (exists (Vec2 0%R 0%R); apply shifted_by_zero).
  exists (Vec2 (- vx c) (- vy c))%R. unfold shifted_by.
  destruct (h q) as [[px py] [ox oy] a m b s co], c as [cx cy].
  unfold set_oldPosition, set_position, vadd, vsub; simpl.
  apply Object_eq_R; apply Vec2_eq_R; ring.
Qed.

Lemma shifted_seq (s1 s2 : Heap R -> Heap R) :
  (forall h x, exists d, shifted_by d (h x) (s1 h x)) ->
  (forall h x, exists d, shifted_by d (h x) (s2 h x)) ->
  forall h x, exists d, shifted_by d (h x) ((s1 ;; s2) h x).
Proof.
  intros H1 H2 h x. unfold seq.
  destruct (H1 h x) as [d1 Hd1]. destruct (H2 (s1 h) x) as [d2 Hd2].
  exists (vadd d1 d2). eapply shifted_by_trans; eassumption.
Qed.

(** C4.  Each resolver is its correction stage followed by its bounce
    stage.  Whatever the arithmetic, the correction stage changes a body
    [x] only through the blocks whose guard holds for it, and such a block
    adds (or subtracts) the one correction vector to both [position] and
    [oldPosition]: [normal * (penetration * 0.5f)] for two circles and for
    two boxes, [normal * penetration] for a circle and a box.  This holds
    for any normal and penetration and also when both arguments are the
    same body.  The bounce stage writes no [position]: what it changes
    is [oldPosition], that is the implicit velocity.  In the reals the
    two sums of a block cancel in [position - oldPosition], so the
    implicit velocity of every body is the same after the correction
    stage as before. *)
Theorem C4_correction_keeps_velocity
  {F : Type} {SF : Scalar F}
  (a b x : Addr) (n vA vB : Vector2f F) (pen van : F) (h : Heap F)
  (nR : Vector2f R) (penR : R) (hR : Heap R) :
  (CircleCircle_correct a b n pen h x
     = (if moves h b x
        then add_to_both (vscale n (pen [*] fhalf)) else fun o => o)
         ((if moves h a x
           then sub_from_both (vscale n (pen [*] fhalf)) else fun o => o)
            (h x)) /\
   CircleAABB_correct a b n pen h x
     = (if moves h b x then sub_from_both (vscale n pen) else fun o => o)
         ((if moves h a x then add_to_both (vscale n pen) else fun o => o)
            (h x)) /\
   AABBAABB_correct a b n pen h x
     = (if moves h b x
        then sub_from_both (vscale n (pen [*] fhalf)) else fun o => o)
         ((if moves h a x
           then add_to_both (vscale n (pen [*] fhalf)) else fun o => o)
            (h x))) /\
  (position (CircleCircle_bounce a b n vA vB h x) = position (h x) /\
   position (CircleAABB_bounce a n vA van h x) = position (h x) /\
   position (AABBAABB_bounce a b n vA vB h x) = position (h x)) /\
  (ResolveCircleCircle a b h
     = match CircleCircle_contact a b h with
       | None => h
       | Some (n', pen') =>
           CircleCircle_bounce a b n' (velocity (h a)) (velocity (h b))
             (CircleCircle_correct a b n' pen' h)
       end /\
   ResolveCircleAABB a b h
     = match CircleAABB_contact a b h with
       | None => h
       | Some (n', pen') =>
           CircleAABB_bounce a n' (velocity (h a)) (dot (velocity (h a)) n')
             (CircleAABB_correct a b n' pen' h)
       end /\
   ResolveAABBAABB a b h
     = match AABBAABB_contact a b h with
       | None => h
       | Some (n', pen') =>
           AABBAABB_bounce a b n' (velocity (h a)) (velocity (h b))
             (AABBAABB_correct a b n' pen' h)
       end) /\
  ((exists d, shifted_by d (hR x) (CircleCircle_correct a b nR penR hR x)) /\
   (exists d, shifted_by d (hR x) (CircleAABB_correct a b nR penR hR x)) /\
   (exists d, shifted_by d (hR x) (AABBAABB_correct a b nR penR hR x))) /\
  (velocity (CircleCircle_correct a b nR penR hR x) = velocity (hR x) /\
   velocity (CircleAABB_correct a b nR penR hR x) = velocity (hR x) /\
   velocity (AABBAABB_correct a b nR penR hR x) = velocity (hR x)).
Proof.
  assert (HCC : exists d,
             shifted_by d (hR x) (CircleCircle_correct a b nR penR hR x)).
  { unfold CircleCircle_correct. cbv zeta.
    apply shifted_seq; intros h0 x0;
      [apply shifted_guarded_sub | apply shifted_guarded_add]. }
  assert (HCA : exists d,
             shifted_by d (hR x) (CircleAABB_correct a b nR penR hR x)).
  { unfold CircleAABB_correct. cbv zeta.
    apply shifted_seq; intros h0 x0;
      [apply shifted_guarded_add | apply shifted_guarded_sub]. }
  assert (HAA : exists d,
             shifted_by d (hR x) (AABBAABB_correct a b nR penR hR x)).
  { unfold AABBAABB_correct. cbv zeta.
    apply shifted_seq; intros h0 x0;
      [apply shifted_guarded_add | apply shifted_guarded_sub]. }
  split; [| split; [| split; [| split; [now split_and |]]]].
  - unfold CircleCircle_correct, CircleAABB_correct, AABBAABB_correct.
    cbv zeta.
    unfold position_add, position_sub, oldPosition_add, oldPosition_sub.
    split_and; rewrite guarded_blocks by reflexivity;
      destruct (moves h a x), (moves h b x); reflexivity.
  - split_and.
    + apply keeps_position_CircleCircle_bounce.
    + apply keeps_position_CircleAABB_bounce.
    + apply keeps_position_AABBAABB_bounce.
  - split_and.
    + unfold ResolveCircleCircle.
      destruct (CircleCircle_contact a b h) as [[n' pen'] |]; reflexivity.
    + unfold ResolveCircleAABB.
      destruct (CircleAABB_contact a b h) as [[n' pen'] |]; reflexivity.
    + unfold ResolveAABBAABB.
      destruct (AABBAABB_contact a b h) as [[n' pen'] |]; reflexivity.
  - destruct HCC as [d1 H1], HCA as [d2 H2], HAA as [d3 H3].
    split_and; eapply shifted_by_velocity; eassumption.
Qed.

(** The claim C4 as the specification words it fails in single precision.
    The circles of [receding_circles_heap] overlap by [11.9], along the
    normal [(1, 0)].  The second one has the implicit velocity
    [128.1f - 127.1f = 1 + 2^-17] along x.  The correction stage adds
    the same [5.95] to its [position] and to its [oldPosition]; the two
    sums are rounded apart, [oldPosition] having crossed 128 where the
    spacing of the floats doubles, and the implicit velocity is
    [1 + 2^-16] afterwards.  The two bodies are not approaching, so the
    bounce stage does nothing and the whole of [ResolveCircleCircle] is
    the correction stage here. *)
Lemma C4_binary32_correction_changes_velocity :
  let normal := Vec2 (S754_finite false 8388608 (-23)) (S754_zero false) in
  let penetration := S754_finite false 12478048 (-20) in
  let corrected :=
    CircleCircle_correct 0%nat 1%nat normal penetration
      receding_circles_heap in
  CircleCircle_contact 0%nat 1%nat receding_circles_heap
    = Some (normal, penetration) /\
  velocity (receding_circles_heap 1%nat)
    = Vec2 (S754_finite false 8388672 (-23)) (S754_zero false) /\
  velocity (corrected 1%nat)
    = Vec2 (S754_finite false 8388736 (-23)) (S754_zero false) /\
  velocity (corrected 1%nat) <> velocity (receding_circles_heap 1%nat) /\
  ResolveCircleCircle 0%nat 1%nat receding_circles_heap 1%nat
    = corrected 1%nat.
Proof.
  cbv zeta. split_and; try (vm_compute; reflexivity).
  intros H. vm_compute in H. discriminate H.
Qed.

(** ** Removal *)

Section RemovalFacts.

Context {F : Type} {SF : Scalar F}.

Lemma std_remove_absent (value : Addr) (l : list Addr) :
  ~ In value l -> std_remove value l = l.
Proof.
  induction l as [| p l IH]; intros Hn; simpl; [reflexivity |].
  destruct (Nat.eqb_spec p value) as [-> | _].
  - exfalso. apply Hn. now left.
  - rewrite IH; [reflexivity |]. intros Hin. apply Hn. now right.
Qed.

Lemma std_remove_filter (value : Addr) (l : list Addr) :
  std_remove value l = filter (fun p => negb (Nat.eqb p value)) l.
Proof.
  induction l as [| p l IH]; simpl; [reflexivity |].
  destruct (Nat.eqb p value); simpl; now rewrite IH.
Qed.

Lemma std_remove_app (value : Addr) (l1 l2 : list Addr) :
  std_remove value (l1 ++ l2) = std_remove value l1 ++ std_remove value l2.
Proof.
  induction l1 as [| p l1 IH]; simpl; [reflexivity |].
  destruct (Nat.eqb p value); simpl; now rewrite IH.
Qed.

Lemma std_remove_if_absent {A : Type} (pred : A -> bool) (l : list A) :
  (forall c, In c l -> pred c = false) -> std_remove_if pred l = l.
Proof.
  induction l as [| c l IH]; intros Hn; simpl; [reflexivity |].
  rewrite (Hn c (or_introl eq_refl)).
  rewrite IH; [reflexivity |]. intros c' Hin. apply Hn. now right.
Qed.

Lemma std_remove_if_filter {A : Type} (pred : A -> bool) (l : list A) :
  std_remove_if pred l = filter (fun c => negb (pred c)) l.
Proof.
  induction l as [| c l IH]; simpl; [reflexivity |].
  destruct (pred c); simpl; now rewrite IH.
Qed.

Lemma std_remove_if_app {A : Type} (pred : A -> bool) (l1 l2 : list A) :
  std_remove_if pred (l1 ++ l2)
    = std_remove_if pred l1 ++ std_remove_if pred l2.
Proof.
  induction l1 as [| c l1 IH]; simpl; [reflexivity |].
  destruct (pred c); simpl; now rewrite IH.
Qed.

(** C8.  [RemoveObject] and [RemoveConstraint] never touch a body: the
    heap is the same afterwards, and so are the gravity and the iteration
    count.  [RemoveObject] leaves the constraints as they are and keeps of
    [m_objects] exactly the addresses different from the argument, in
    their order; [RemoveConstraint] leaves [m_objects] as it is and keeps
    of [m_constraints] exactly the constraints at another address, in
    their order.  When the argument is not registered the whole state is
    unchanged; when it is registered once, between [l1] and [l2], what is
    left is [l1 ++ l2]. *)
Theorem C8_removal (s : Sim F) (object constraint : Addr) :
  (heap (RemoveObject object s) = heap s /\
   m_constraints (world (RemoveObject object s)) = m_constraints (world s) /\
   m_gravity (world (RemoveObject object s)) = m_gravity (world s) /\
   m_constraintIterations (world (RemoveObject object s))
     = m_constraintIterations (world s) /\
   m_objects (world (RemoveObject object s))
     = filter (fun p => negb (Nat.eqb p object)) (m_objects (world s)) /\
   (~ In object (m_objects (world s)) -> RemoveObject object s = s) /\
   (forall l1 l2, m_objects (world s) = l1 ++ object :: l2 ->
      ~ In object l1 -> ~ In object l2 ->
      m_objects (world (RemoveObject object s)) = l1 ++ l2)) /\
  (heap (RemoveConstraint constraint s) = heap s /\
   m_objects (world (RemoveConstraint constraint s)) = m_objects (world s) /\
   m_gravity (world (RemoveConstraint constraint s)) = m_gravity (world s) /\
   m_constraintIterations (world (RemoveConstraint constraint s))
     = m_constraintIterations (world s) /\
   m_constraints (world (RemoveConstraint constraint s))
     = filter (fun c => negb (Nat.eqb (fst c) constraint))
              (m_constraints (world s)) /\
   (~ In constraint (map fst (m_constraints (world s))) ->
      RemoveConstraint constraint s = s) /\
   (forall l1 c l2, m_constraints (world s) = l1 ++ (constraint, c) :: l2 ->
      ~ In constraint (map fst l1) -> ~ In constraint (map fst l2) ->
      m_constraints (world (RemoveConstraint constraint s)) = l1 ++ l2)).
Proof.
  destruct s as [h [objs cs g n]]. unfold RemoveObject, RemoveConstraint,
    with_world; simpl.
  assert (Hpred : forall l : list (Addr * Constraint F),
            ~ In constraint (map fst l) ->
            forall c, In c l -> Nat.eqb (fst c) constraint = false).
  { intros l Hn c Hin. apply Nat.eqb_neq. intros E. apply Hn.
    rewrite <- E. now apply in_map. }
  split; split_and; try reflexivity.
  - apply std_remove_filter.
  - intros Hn. now rewrite std_remove_absent.
  - intros l1 l2 -> H1 H2. rewrite std_remove_app. simpl.
    rewrite Nat.eqb_refl. now rewrite !std_remove_absent.
  - apply std_remove_if_filter.
  - intros Hn. rewrite std_remove_if_absent; [reflexivity |].
    now apply Hpred.
  - intros l1 c l2 -> H1 H2. rewrite std_remove_if_app. simpl.
    rewrite Nat.eqb_refl.
    rewrite !std_remove_if_absent; [reflexivity | |]; now apply Hpred.
Qed.

End RemovalFacts.

Lemma C8_removal_witness :
  RemoveObject 7%nat pendulum_sim = pendulum_sim /\
  RemoveConstraint 7%nat pendulum_sim = pendulum_sim /\
  m_objects (world (RemoveObject 0%nat pendulum_sim)) = [] ++ [1%nat] /\
  m_constraints (world (RemoveConstraint 0%nat pendulum_sim)) = [] ++ [].
Proof.
  destruct (C8_removal pendulum_sim 7%nat 7%nat)
    as [(_ & _ & _ & _ & _ & HO & _) (_ & _ & _ & _ & _ & HC & _)].
  destruct (C8_removal pendulum_sim 0%nat 0%nat)
    as [(_ & _ & _ & _ & _ & _ & HO') (_ & _ & _ & _ & _ & _ & HC')].
  split_and.
  - apply HO. simpl. lia.
  - apply HC. simpl. lia.
  - apply HO'; simpl; [reflexivity | lia | lia].
  - apply (HC' [] (CDistance (mkDistanceConstraint 0%nat 1%nat 100%R 1%R)) []);
      simpl; [reflexivity | lia | lia].
Defined.

(** ** Mass *)

Section MassFacts.

Context {F : Type} {SF : Scalar F}.

Lemma same_but_mass_fields (o1 o2 : Object F) :
  same_but_mass o1 o2 ->
  position o1 = position o2 /\ oldPosition o1 = oldPosition o2 /\
  acceleration o1 = acceleration o2 /\ bounciness o1 = bounciness o2 /\
  isStatic o1 = isStatic o2 /\ collider o1 = collider o2.
Proof.
  unfold same_but_mass. intros H. rewrite <- H. destruct o2. simpl.
  repeat split.
Qed.

Lemma same_but_mass_intro (o1 o2 : Object F) :
  position o1 = position o2 -> oldPosition o1 = oldPosition o2 ->
  acceleration o1 = acceleration o2 -> bounciness o1 = bounciness o2 ->
  isStatic o1 = isStatic o2 -> collider o1 = collider o2 ->
  same_but_mass o1 o2.
Proof.
  unfold same_but_mass. destruct o1, o2. simpl.
  intros -> -> -> -> -> ->. reflexivity.
Qed.

Lemma same_but_mass_refl (o : Object F) : same_but_mass o o.
Proof. now destruct o. Qed.

Lemma agree_reads (h1 h2 : Heap F) :
  agree h1 h2 ->
  (forall q, position (h1 q) = position (h2 q)) /\
  (forall q, oldPosition (h1 q) = oldPosition (h2 q)) /\
  (forall q, acceleration (h1 q) = acceleration (h2 q)) /\
  (forall q, bounciness (h1 q) = bounciness (h2 q)) /\
  (forall q, isStatic (h1 q) = isStatic (h2 q)) /\
  (forall q, collider (h1 q) = collider (h2 q)).
Proof.
  intros H. split_and; intros q; apply (same_but_mass_fields _ _ (H q)).
Qed.

Lemma blind_skip : blind (fun h : Heap F => h).
Proof. intros h1 h2 H. exact H. Qed.

Lemma blind_seq (s1 s2 : Heap F -> Heap F) :
  blind s1 -> blind s2 -> blind (s1 ;; s2).
Proof. intros H1 H2 h1 h2 H. unfold seq. now apply H2, H1. Qed.

Lemma blind_for_each {A : Type} (l : list A) (body : A -> Heap F -> Heap F) :
  (forall a, blind (body a)) -> blind (for_each l body).
Proof.
  intros Hbody. unfold for_each.
  induction l as [| a l IH]; intros h1 h2 H; simpl; [exact H |].
  apply IH. now apply Hbody.
Qed.

Lemma blind_repeat_int (n : Z) (body : Heap F -> Heap F) :
  blind body -> blind (repeat_int n body).
Proof.
  intros Hbody h1 h2 H. unfold repeat_int.
  induction (Z.to_nat n) as [| k IH]; simpl; [exact H |].
  now apply Hbody.
Qed.

Lemma blind_modify (q : Addr) (f : Object F -> Object F) :
  (forall o1 o2, same_but_mass o1 o2 -> same_but_mass (f o1) (f o2)) ->
  blind (modify q f).
Proof.
  intros Hf h1 h2 H r. rewrite !modify_cases.
  destruct (Nat.eqb r q); [apply Hf |]; apply H.
Qed.

Lemma blind_unless_static (q : Addr) (s : Heap F -> Heap F) :
  blind s -> blind (unless_static q s).
Proof.
  intros Hs h1 h2 H. unfold unless_static.
  destruct (agree_reads _ _ H) as (_ & _ & _ & _ & Hst & _).
  rewrite Hst. destruct (isStatic (h2 q)); [exact H | now apply Hs].
Qed.

Ltac field_step :=
  let o1 := fresh "o" in
  let o2 := fresh "o" in
  let H := fresh "H" in
  intros o1 o2 H;
  destruct (same_but_mass_fields _ _ H) as (? & ? & ? & ? & ? & ?);
  apply same_but_mass_intro; simpl; congruence.

Lemma blind_write (q : Addr) (v : Vector2f F) :
  blind (position_set q v) /\ blind (position_add q v) /\
  blind (position_sub q v) /\ blind (oldPosition_set q v) /\
  blind (oldPosition_add q v) /\ blind (oldPosition_sub q v) /\
  blind (acceleration_set q v).
Proof. split_and; apply blind_modify; field_step. Qed.

Lemma blind_move (q : Addr) (v : Vector2f F) :
  blind (unless_static q (position_add q v ;; oldPosition_add q v)) /\
  blind (unless_static q (position_sub q v ;; oldPosition_sub q v)) /\
  blind (unless_static q (oldPosition_add q v)) /\
  blind (unless_static q (oldPosition_sub q v)).
Proof.
  split_and; apply blind_unless_static; try apply blind_seq;
    apply blind_write.
Qed.

Ltac reads H :=
  destruct (agree_reads _ _ H) as (Hpos & Hold & Hacc & Hbo & Hst & Hco).

Lemma blind_gravity_body (g : Vector2f F) (o : Addr) : blind (gravity_body g o).
Proof. apply blind_unless_static, blind_write. Qed.

Lemma blind_verlet_body (dt : F) (o : Addr) : blind (verlet_body dt o).
Proof.
  apply blind_unless_static. intros h1 h2 H. reads H.
  rewrite !Hpos, !Hold, !Hacc.
  apply blind_seq; [apply blind_write | apply blind_write | exact H].
Qed.

Lemma blind_distribute (a b : Addr) (c : Vector2f F) : blind (distribute a b c).
Proof.
  intros h1 h2 H. reads H. unfold distribute. rewrite !Hst.
  destruct (isStatic (h2 a)); [now apply blind_write |].
  destruct (isStatic (h2 b)); [now apply blind_write |].
  apply blind_seq; [apply blind_write | apply blind_write | exact H].
Qed.

Lemma blind_Solve (c : Constraint F) : blind (Solve c).
Proof.
  intros h1 h2 H. reads H. destruct c as [d | s | p]; simpl.
  - unfold DistanceSolve. rewrite !Hpos. cbv zeta.
    match goal with |- context [if ?b then _ else _] => destruct b end;
      [exact H | now apply blind_distribute].
  - unfold SpringSolve. rewrite !Hpos, !Hold. cbv zeta.
    match goal with |- context [if ?b then _ else _] => destruct b end;
      [exact H | now apply blind_distribute].
  - now apply blind_write.
Qed.

Lemma blind_SolveConstraints (w : PhysicsWorld F) : blind (SolveConstraints w).
Proof.
  apply blind_repeat_int, blind_for_each. intros c. apply blind_Solve.
Qed.

Lemma contact_blind (a b : Addr) (h1 h2 : Heap F) :
  agree h1 h2 ->
  CircleCircle_contact a b h1 = CircleCircle_contact a b h2 /\
  CircleAABB_contact a b h1 = CircleAABB_contact a b h2 /\
  AABBAABB_contact a b h1 = AABBAABB_contact a b h2.
Proof.
  intros H. reads H.
  unfold CircleCircle_contact, CircleAABB_contact, AABBAABB_contact,
    GetCircleCollider, GetAABBCollider.
  rewrite !Hco, !Hpos. repeat split.
Qed.

Lemma blind_ResolveCircleCircle (a b : Addr) : blind (ResolveCircleCircle a b).
Proof.
  intros h1 h2 H. reads H. unfold ResolveCircleCircle.
  destruct (contact_blind a b h1 h2 H) as (-> & _ & _).
  destruct (CircleCircle_contact a b h2) as [[n pen] |]; [| exact H].
  rewrite !Hpos, !Hold. cbv zeta.
  apply blind_seq; [| | exact H].
  - unfold CircleCircle_correct. apply blind_seq; apply blind_move.
  - unfold CircleCircle_bounce. cbv zeta.
    match goal with |- context [if ?c then _ else _] => destruct c end;
      [apply blind_seq; apply blind_move | apply blind_skip].
Qed.

Lemma blind_ResolveAABBAABB (a b : Addr) : blind (ResolveAABBAABB a b).
Proof.
  intros h1 h2 H. reads H. unfold ResolveAABBAABB.
  destruct (contact_blind a b h1 h2 H) as (_ & _ & ->).
  destruct (AABBAABB_contact a b h2) as [[n pen] |]; [| exact H].
  rewrite !Hpos, !Hold. cbv zeta.
  apply blind_seq; [| | exact H].
  - unfold AABBAABB_correct. apply blind_seq; apply blind_move.
  - unfold AABBAABB_bounce. cbv zeta.
    match goal with |- context [if ?c then _ else _] => destruct c end;
      [apply blind_seq; apply blind_move | apply blind_skip].
Qed.

Lemma blind_ResolveCircleAABB (a b : Addr) : blind (ResolveCircleAABB a b).
Proof.
  intros h1 h2 H. reads H. unfold ResolveCircleAABB.
  destruct (contact_blind a b h1 h2 H) as (_ & -> & _).
  destruct (CircleAABB_contact a b h2) as [[n pen] |]; [| exact H].
  rewrite !Hpos, !Hold. cbv zeta.
  apply blind_seq; [| | exact H].
  - unfold CircleAABB_correct. apply blind_seq; apply blind_move.
  - intros h3 h4 H'. unfold CircleAABB_bounce.
    destruct (agree_reads _ _ H') as (_ & _ & _ & Hbo' & Hst' & _).
    rewrite !Hst', !Hbo'.
    match goal with |- context [if ?c then _ else _] => destruct c end;
      [now apply blind_write | exact H'].
Qed.

Lemma blind_ResolveCollision (a b : Addr) : blind (ResolveCollision a b).
Proof.
  intros h1 h2 H. reads H. unfold ResolveCollision. rewrite !Hco.
  destruct (collider (h2 a)) as [cA |]; [| exact H].
  destruct (collider (h2 b)) as [cB |]; [| exact H].
  destruct (type cA), (type cB);
    first [ now apply blind_ResolveCircleCircle
          | now apply blind_ResolveCircleAABB
          | now apply blind_ResolveAABBAABB ].
Qed.

Lemma blind_collide_pair (a b : Addr) : blind (collide_pair a b).
Proof.
  intros h1 h2 H. reads H. unfold collide_pair. rewrite !Hst, !Hco.
  destruct (isStatic (h2 a) && isStatic (h2 b)); [exact H |].
  destruct (collider (h2 a)); [| exact H].
  destruct (collider (h2 b)); [| exact H].
  now apply blind_ResolveCollision.
Qed.

Lemma blind_collisions (objects : list Addr) : blind (collisions objects).
Proof.
  induction objects as [| a rest IH]; intros h1 h2 H; simpl; [exact H |].
  apply IH. apply blind_for_each; [| exact H].
  intros b. apply blind_collide_pair.
Qed.

Lemma blind_step_heap (w : PhysicsWorld F) (dt : F) : blind (step_heap w dt).
Proof.
  unfold step_heap.
  apply blind_seq; [apply blind_for_each; intros o; apply blind_gravity_body |].
  apply blind_seq; [apply blind_for_each; intros o; apply blind_verlet_body |].
  apply blind_seq; [apply blind_SolveConstraints | apply blind_collisions].
Qed.

(** C9.  Take one world and two heaps whose bodies agree in every field
    except possibly [mass].  After the same run of [Step] calls the two
    heaps still agree in every field except possibly [mass]: in
    particular every body has the same [position] and [oldPosition] in
    both runs.  No statement of [Step], of the constraints or of the
    resolvers reads [mass]. *)
Theorem C9_mass_noninterference
  (w : PhysicsWorld F) (dts : list F) (h1 h2 : Heap F) :
  agree h1 h2 ->
  forall q : Addr,
    position (heap (Steps dts (mkSim h1 w)) q)
      = position (heap (Steps dts (mkSim h2 w)) q) /\
    oldPosition (heap (Steps dts (mkSim h1 w)) q)
      = oldPosition (heap (Steps dts (mkSim h2 w)) q) /\
    same_but_mass (heap (Steps dts (mkSim h1 w)) q)
                  (heap (Steps dts (mkSim h2 w)) q).
Proof.
  intros H.
  assert (Hall : agree (heap (Steps dts (mkSim h1 w)))
                       (heap (Steps dts (mkSim h2 w))) /\
                 world (Steps dts (mkSim h1 w)) = w /\
                 world (Steps dts (mkSim h2 w)) = w).
  { unfold Steps. revert h1 h2 H.
    induction dts as [| dt dts IH]; intros h1 h2 H; simpl;
      [now repeat split |].
    unfold Step at 2 4; simpl. apply IH. now apply blind_step_heap. }
  destruct Hall as [Hall _]. intros q.
  destruct (same_but_mass_fields _ _ (Hall q)) as (Hp & Ho & _).
  repeat split; [exact Hp | exact Ho | apply Hall].
Qed.

End MassFacts.

Lemma C9_mass_noninterference_witness :
  heavy_pendulum_heap 1%nat <> pendulum_heap 1%nat /\
  position
    (heap (Steps [(1 / 60)%R; (1 / 60)%R]
                 (mkSim heavy_pendulum_heap pendulum_world)) 1%nat)
    = position
        (heap (Steps [(1 / 60)%R; (1 / 60)%R]
                     (mkSim pendulum_heap pendulum_world)) 1%nat).
Proof.
  split.
  - intros E. apply (f_equal mass) in E. simpl in E.
    rewrite R_f1 in E. lra.
  - apply (C9_mass_noninterference pendulum_world
             [(1 / 60)%R; (1 / 60)%R] heavy_pendulum_heap pendulum_heap).
    intros q. reflexivity.
Defined.

(** * Further properties of the code *)

(** ** Bodies and colliders *)

(** X1. [InitVerlet] keeps the position, copies it into [oldPosition] and
    clears the acceleration, and doing it twice is doing it once.  In the
    reals the body is then at rest: its implicit velocity is zero and
    [GetVelocity] returns the zero vector for every [dt], positive or
    not. *)
Theorem X1_InitVerlet_at_rest (o : Object R) (dt : R) :
  position (InitVerlet o) = position o /\
  oldPosition (InitVerlet o) = position o /\
  acceleration (InitVerlet o) = vzero /\
  InitVerlet (InitVerlet o) = InitVerlet o /\
  velocity (InitVerlet o) = Vec2 0%R 0%R /\
  GetVelocity (InitVerlet o) dt = Vec2 0%R 0%R.
Proof.
  split_and; try reflexivity.
  - unfold velocity, vsub; simpl. apply Vec2_eq_R; ring.
  - unfold GetVelocity. simpl. unfold Rleb.
    destruct (Rle_dec dt f0) as [_ | _].
    + unfold vzero. now rewrite R_f0.
    + unfold vdiv, vsub; simpl. apply Vec2_eq_R; unfold Rdiv; ring.
Qed.

Section ColliderFacts.

Context {F : Type} {SF : Scalar F}.

(** X2. A body has at most one kind of collider: never do both
    [GetCircleCollider] and [GetAABBCollider] return one, and without a
    collider both return null.  Setting a collider replaces the one
    before: after [SetCircleCollider r] the circle getter returns radius
    [r] and the box getter null, and after [SetAABBCollider] the circle
    getter returns null.  [Ball::GetRadius] is the radius the ball was
    built with, and [0.f] for a body with a box collider or none. *)
Theorem X2_collider_kinds (o : Object F) (x y r width height : F) :
  (GetCircleCollider o = None \/ GetAABBCollider o = None) /\
  (collider o = None ->
     GetCircleCollider o = None /\ GetAABBCollider o = None /\
     Ball_GetRadius o = f0) /\
  GetCircleCollider (SetCircleCollider r o) = Some (mkCircleCollider r) /\
  GetAABBCollider (SetCircleCollider r o) = None /\
  GetCircleCollider (SetAABBCollider width height (SetCircleCollider r o))
    = None /\
  GetAABBCollider (SetCircleCollider r (SetAABBCollider width height o))
    = None /\
  Ball_GetRadius (Ball_physics x y r) = r /\
  Ball_GetRadius (SetAABBCollider width height (Ball_physics x y r)) = f0 /\
  position (Ball_physics x y r) = Vec2 x y /\
  oldPosition (Ball_physics x y r) = Vec2 x y /\
  isStatic (Ball_physics x y r) = false.
Proof.
  split_and; try reflexivity.
  - unfold GetCircleCollider, GetAABBCollider.
    destruct (collider o) as [[c | b] |]; auto.
  - intros E. unfold Ball_GetRadius, GetCircleCollider, GetAABBCollider.
    rewrite E. repeat split.
Qed.

End ColliderFacts.

Lemma X2_collider_kinds_witness :
  Ball_GetRadius (body_at 3 4) = @f0 R _.
Proof.
  destruct (X2_collider_kinds (body_at 3 4) 0%R 0%R 0%R 0%R 0%R)
    as (_ & H & _).
  apply H. reflexivity.
Defined.

(** ** Registration *)

Section RegistrationFacts.

Context {F : Type} {SF : Scalar F}.

Lemma std_remove_not_In (value : Addr) (l : list Addr) :
  ~ In value (std_remove value l).
Proof. rewrite std_remove_filter, filter_In, Nat.eqb_refl. now intros [_ H]. Qed.

Lemma std_remove_In (value q : Addr) (l : list Addr) :
  q <> value -> (In q (std_remove value l) <-> In q l).
Proof.
  intros Hq. rewrite std_remove_filter, filter_In.
  apply Nat.eqb_neq in Hq. rewrite Hq. simpl. tauto.
Qed.

Lemma std_remove_comm (v1 v2 : Addr) (l : list Addr) :
  std_remove v1 (std_remove v2 l) = std_remove v2 (std_remove v1 l).
Proof.
  induction l as [| p l IH]; simpl; [reflexivity |].
  destruct (Nat.eqb p v2) eqn:E2, (Nat.eqb p v1) eqn:E1; simpl;
    rewrite ?E1, ?E2, IH; reflexivity.
Qed.

Lemma std_remove_if_comm {A : Type} (p1 p2 : A -> bool) (l : list A) :
  std_remove_if p1 (std_remove_if p2 l) = std_remove_if p2 (std_remove_if p1 l).
Proof.
  induction l as [| c l IH]; simpl; [reflexivity |].
  destruct (p2 c) eqn:E2, (p1 c) eqn:E1; simpl;
    rewrite ?E1, ?E2, IH; reflexivity.
Qed.

(** X3. [AddObject] registers at the end of [m_objects], also when the
    body is registered already.  [RemoveObject] drops every registration
    of the body and keeps whether any other body is registered; removing
    twice is removing once, removals of two bodies commute, and removing
    a body right after adding it gives back the state before, provided it
    was not registered then. *)
Theorem X3_add_remove_object (s : Sim F) (p q : Addr) :
  m_objects (world (AddObject p s)) = m_objects (world s) ++ [p] /\
  count_occ Nat.eq_dec (m_objects (world (AddObject p (AddObject p s)))) p
    = S (S (count_occ Nat.eq_dec (m_objects (world s)) p)) /\
  ~ In p (m_objects (world (RemoveObject p s))) /\
  ~ In p (m_objects (world (RemoveObject p (AddObject p (AddObject p s))))) /\
  (q <> p ->
     (In q (m_objects (world (RemoveObject p s)))
        <-> In q (m_objects (world s)))) /\
  RemoveObject p (RemoveObject p s) = RemoveObject p s /\
  RemoveObject p (RemoveObject q s) = RemoveObject q (RemoveObject p s) /\
  (~ In p (m_objects (world s)) -> RemoveObject p (AddObject p s) = s).
Proof.
  destruct s as [h [objs cs g n]].
  unfold RemoveObject, AddObject, with_world; simpl.
  split_and.
  - reflexivity.
  - rewrite !count_occ_app. simpl.
    destruct (Nat.eq_dec p p) as [_ | N]; [unfold Addr; lia | contradiction].
  - apply std_remove_not_In.
  - apply std_remove_not_In.
  - intros Hq. now apply std_remove_In.
  - rewrite (std_remove_absent p (std_remove p objs)); [reflexivity |].
    apply std_remove_not_In.
  - now rewrite std_remove_comm.
  - intros Hn. rewrite std_remove_app. simpl. rewrite Nat.eqb_refl.
    rewrite std_remove_absent by assumption. now rewrite app_nil_r.
Qed.

(** X4. [AddConstraint] appends the constraint under its address, and the
    three convenience adders append a constraint on the bodies they are
    given: a pin with the given anchor, a spring with the given stiffness
    and damping, a distance constraint of stiffness [1.0f] whose rest
    length is the argument when that is not below zero.  No adder touches
    a body or [m_objects].  [RemoveConstraint] leaves no constraint at
    the address, keeps the ones at other addresses, is idempotent, and
    undoes an [AddConstraint] at an address that owned no constraint. *)
Theorem X4_add_remove_constraint
  (s : Sim F) (ptr ptr' a b : Addr) (c : Constraint F)
  (anchor : Vector2f F) (length stiffness damping : F) :
  m_constraints (world (AddConstraint ptr c s))
    = m_constraints (world s) ++ [(ptr, c)] /\
  m_constraints (world (AddPinConstraint ptr a anchor s))
    = m_constraints (world s) ++ [(ptr, CPin (mkPinConstraint a anchor))] /\
  (exists rest,
     m_constraints (world (AddSpringConstraint ptr a b stiffness damping s))
       = m_constraints (world s)
           ++ [(ptr, CSpring (mkSpringConstraint a b rest stiffness damping))]) /\
  (exists rest,
     m_constraints (world (AddDistanceConstraint ptr a b length s))
       = m_constraints (world s)
           ++ [(ptr, CDistance (mkDistanceConstraint a b rest f1))] /\
     ((length [<] f0) = false -> rest = length)) /\
  (heap (AddDistanceConstraint ptr a b length s) = heap s /\
   heap (AddSpringConstraint ptr a b stiffness damping s) = heap s /\
   heap (AddPinConstraint ptr a anchor s) = heap s /\
   m_objects (world (AddDistanceConstraint ptr a b length s))
     = m_objects (world s) /\
   m_objects (world (AddSpringConstraint ptr a b stiffness damping s))
     = m_objects (world s) /\
   m_objects (world (AddPinConstraint ptr a anchor s))
     = m_objects (world s)) /\
  ~ In ptr (map fst (m_constraints (world (RemoveConstraint ptr s)))) /\
  (ptr' <> ptr ->
     forall c',
       In (ptr', c') (m_constraints (world (RemoveConstraint ptr s)))
         <-> In (ptr', c') (m_constraints (world s))) /\
  RemoveConstraint ptr (RemoveConstraint ptr s) = RemoveConstraint ptr s /\
  (~ In ptr (map fst (m_constraints (world s))) ->
     RemoveConstraint ptr (AddConstraint ptr c s) = s).
Proof.
  destruct s as [h [objs cs g n]].
  unfold AddDistanceConstraint, AddSpringConstraint, AddPinConstraint,
    RemoveConstraint, AddConstraint, with_world; simpl.
  assert (Hgone : forall l : list (Addr * Constraint F),
            ~ In ptr (map fst
                (std_remove_if (fun c0 => Nat.eqb (fst c0) ptr) l))).
  { intros l Hin. apply in_map_iff in Hin. destruct Hin as [[k v] [E Hin]].
    rewrite std_remove_if_filter, filter_In in Hin. simpl in *. subst k.
    rewrite Nat.eqb_refl in Hin. now destruct Hin. }
  assert (Hpred : forall l : list (Addr * Constraint F),
            ~ In ptr (map fst l) ->
            forall c0, In c0 l -> Nat.eqb (fst c0) ptr = false).
  { intros l Hn c0 Hin. apply Nat.eqb_neq. intros E. apply Hn.
    rewrite <- E. now apply in_map. }
  split_and; try reflexivity.
  - eexists. reflexivity.
  - destruct (length [<] f0) eqn:E.
    + eexists. split; [reflexivity | discriminate].
    + eexists. split; [reflexivity | reflexivity].
  - apply Hgone.
  - intros Hne c'. rewrite std_remove_if_filter, filter_In. simpl.
    apply Nat.eqb_neq in Hne. rewrite Hne. simpl. tauto.
  - rewrite (std_remove_if_absent _ (std_remove_if _ cs)); [reflexivity |].
    apply Hpred, Hgone.
  - intros Hn. rewrite std_remove_if_app. simpl. rewrite Nat.eqb_refl.
    rewrite std_remove_if_absent by now apply Hpred. now rewrite app_nil_r.
Qed.

End RegistrationFacts.

Lemma X3_add_remove_object_witness :
  RemoveObject 7%nat (AddObject 7%nat pendulum_sim) = pendulum_sim /\
  (In 1%nat (m_objects (world (RemoveObject 0%nat pendulum_sim)))
     <-> In 1%nat (m_objects (world pendulum_sim))).
Proof.
  destruct (X3_add_remove_object pendulum_sim 7%nat 1%nat)
    as (_ & _ & _ & _ & _ & _ & _ & H).
  destruct (X3_add_remove_object pendulum_sim 0%nat 1%nat)
    as (_ & _ & _ & _ & H' & _).
  split; [apply H; simpl; lia | apply H'; lia].
Defined.

Lemma X4_add_remove_constraint_witness :
  RemoveConstraint 7%nat
    (AddConstraint 7%nat (CPin (mkPinConstraint 1%nat (Vec2 0%R 0%R)))
       pendulum_sim)
    = pendulum_sim.
Proof.
  destruct (X4_add_remove_constraint pendulum_sim 7%nat 7%nat 0%nat 0%nat
              (CPin (mkPinConstraint 1%nat (Vec2 0%R 0%R)))
              (Vec2 0%R 0%R) 0%R 0%R 0%R)
    as (_ & _ & _ & _ & _ & _ & _ & _ & H).
  apply H. simpl. lia.
Defined.

(** ** The constraint pass *)

Section SolveFacts.

Context {F : Type} {SF : Scalar F}.

Lemma for_each_snoc {A : Type} (l : list A) (x : A)
  (body : A -> Heap F -> Heap F) (h : Heap F) :
  for_each (l ++ [x]) body h = body x (for_each l body h).
Proof. unfold for_each. now rewrite fold_left_app. Qed.

Lemma iter_skip (k : nat) (h : Heap F) : Nat.iter k (fun h' : Heap F => h') h = h.
Proof. induction k as [| k IH]; simpl; [reflexivity | exact IH]. Qed.

(** X5. The iteration count is not checked: with a count of zero or below
    the loop of [SolveConstraints] does not run, so no constraint is
    solved and [Step] is the two integration loops followed by the
    collision pass.  [SetConstraintIterations] stores any count as it is
    and changes nothing else.  A world without constraints has a
    constraint pass without effect, whatever the count. *)
Theorem X5_no_iterations (s : Sim F) (n : Z) (dt : F) (h : Heap F) :
  m_constraintIterations (world (SetConstraintIterations n s)) = n /\
  m_objects (world (SetConstraintIterations n s)) = m_objects (world s) /\
  m_constraints (world (SetConstraintIterations n s))
    = m_constraints (world s) /\
  heap (SetConstraintIterations n s) = heap s /\
  ((n <= 0)%Z ->
     SolveConstraints (world (SetConstraintIterations n s)) h = h /\
     heap (Step dt (SetConstraintIterations n s))
       = collisions (m_objects (world s))
           (step_integrate (world s) dt (step_gravity (world s) (heap s)))) /\
  (m_constraints (world s) = [] -> SolveConstraints (world s) h = h).
Proof.
  split_and; try reflexivity.
  - intros Hn.
    assert (E : forall h0,
              SolveConstraints (world (SetConstraintIterations n s)) h0 = h0).
    { intros h0. unfold SolveConstraints, repeat_int. simpl.
      replace (Z.to_nat n) with 0%nat by lia. reflexivity. }
    split; [apply E |].
    unfold Step, step_heap, seq. simpl. now rewrite E.
  - intros E. unfold SolveConstraints, repeat_int. rewrite E.
    apply iter_skip.
Qed.

(** X6. Constraints are solved in the order of [m_constraints], and the
    last write wins: when the count is at least one and the last
    constraint of the list is a pin, the pinned body is at the anchor at
    the end of the constraint pass, whatever the constraints before it do
    to that body.  A pin added last by [AddPinConstraint] is in this
    position. *)
Theorem X6_last_pin_holds
  (w : PhysicsWorld F) (cs : list (Addr * Constraint F)) (ptr : Addr)
  (c : PinConstraint F) (h : Heap F) :
  m_constraints w = cs ++ [(ptr, CPin c)] ->
  (0 < m_constraintIterations w)%Z ->
  position (SolveConstraints w h (obj c)) = anchor c.
Proof.
  intros Ecs Hn. unfold SolveConstraints, repeat_int. rewrite Ecs.
  destruct (Z.to_nat (m_constraintIterations w)) as [| k] eqn:Ek; [lia |].
  simpl. rewrite for_each_snoc. simpl.
  unfold PinSolve, position_set. now rewrite modify_same.
Qed.

End SolveFacts.

Lemma X5_no_iterations_witness :
  SolveConstraints (world (SetConstraintIterations 0%Z pendulum_sim))
                   pendulum_heap
    = pendulum_heap.
Proof.
  destruct (X5_no_iterations pendulum_sim 0%Z 0%R pendulum_heap)
    as (_ & _ & _ & _ & H & _).
  apply H. lia.
Defined.

Lemma X6_last_pin_holds_witness :
  position
    (SolveConstraints
       (world (AddPinConstraint 9%nat 1%nat (Vec2 7%R 7%R) pendulum_sim))
       pendulum_heap 1%nat)
    = Vec2 7%R 7%R.
Proof.
  apply (X6_last_pin_holds
           (world (AddPinConstraint 9%nat 1%nat (Vec2 7%R 7%R) pendulum_sim))
           (m_constraints pendulum_world) 9%nat
           (mkPinConstraint 1%nat (Vec2 7%R 7%R)) pendulum_heap).
  - reflexivity.
  - simpl. lia.
Defined.

(** ** Springs and links in exact arithmetic *)

Lemma distribute_zero (a b : Addr) (c : Vector2f R) (h : Heap R) (q : Addr) :
  c = Vec2 0%R 0%R -> distribute a b c h q = h q.
Proof.
  intros ->.
  assert (Hadd : forall (x : Addr) (s : R) (h0 : Heap R),
            modify x (fun o => set_position
                        (vadd (position o) (vscale (Vec2 0%R 0%R) s)) o) h0 q
              = h0 q).
  { intros x s h0. rewrite modify_cases.
    destruct (Nat.eqb_spec q x) as [-> | _]; [| reflexivity].
    destruct (h0 x) as [[px py] o acc m bo st co].
    unfold set_position, vadd, vscale; simpl. f_equal.
    apply Vec2_eq_R; ring. }
  assert (Hsub : forall (x : Addr) (s : R) (h0 : Heap R),
            modify x (fun o => set_position
                        (vsub (position o) (vscale (Vec2 0%R 0%R) s)) o) h0 q
              = h0 q).
  { intros x s h0. rewrite modify_cases.
    destruct (Nat.eqb_spec q x) as [-> | _]; [| reflexivity].
    destruct (h0 x) as [[px py] o acc m bo st co].
    unfold set_position, vsub, vscale; simpl. f_equal.
    apply Vec2_eq_R; ring. }
  assert (E1 : Vec2 0%R 0%R = vscale (Vec2 0%R 0%R) 1%R).
  { unfold vscale; simpl. apply Vec2_eq_R; ring. }
  unfold distribute, seq, position_sub, position_add.
  destruct (isStatic (h a)); [rewrite E1; apply Hsub |].
  destruct (isStatic (h b)); [rewrite E1; apply Hadd |].
  rewrite Hsub. apply Hadd.
Qed.

Lemma SpringSolve_as_DistanceSolve
  (a b : Addr) (restLength stiffness damping : R) (h : Heap R) :
  damping = 0%R \/ velocity (h a) = velocity (h b) ->
  SpringSolve (mkSpringConstraint a b restLength stiffness damping) h
    = DistanceSolve (mkDistanceConstraint a b restLength stiffness) h.
Proof.
  intros Hd. unfold SpringSolve, DistanceSolve. simpl.
  destruct (Rltb _ _); [reflexivity |].
  f_equal. unfold vscale, vdiv, dot, vsub; simpl.
  destruct Hd as [-> | Hv].
  - apply Vec2_eq_R; ring.
  - unfold velocity, vsub in Hv. injection Hv as Hx Hy.
    apply Vec2_eq_R; rewrite Hx, Hy; ring.
Qed.

(** X7. In the reals a spring whose damping is zero, or whose two bodies
    have the same implicit velocity, is solved exactly as the distance
    constraint with the same bodies, rest length and stiffness. *)
Theorem X7_spring_without_damping
  (a b : Addr) (restLength stiffness damping : R) (h : Heap R) :
  damping = 0%R \/ velocity (h a) = velocity (h b) ->
  Solve (CSpring (mkSpringConstraint a b restLength stiffness damping)) h
    = Solve (CDistance (mkDistanceConstraint a b restLength stiffness)) h.
Proof.
  intros Hd. simpl. unfold SpringSolve, DistanceSolve. simpl.
  destruct (Rltb _ _); [reflexivity |].
  f_equal. unfold vscale, vdiv, dot, vsub; simpl.
  destruct Hd as [-> | Hv].
  - apply Vec2_eq_R; ring.
  - unfold velocity, vsub in Hv. injection Hv as Hx Hy.
    apply Vec2_eq_R; rewrite Hx, Hy; ring.
Qed.

Lemma X7_spring_without_damping_witness :
  Solve (CSpring (mkSpringConstraint 0%nat 1%nat 100%R (1 / 2)%R 0%R))
        pendulum_heap
    = Solve (CDistance (mkDistanceConstraint 0%nat 1%nat 100%R (1 / 2)%R))
            pendulum_heap.
Proof.
  apply (X7_spring_without_damping 0%nat 1%nat 100%R (1 / 2)%R 0%R
           pendulum_heap).
  left. reflexivity.
Defined.

Lemma norm_nonneg (v : Vector2f R) : (0 <= norm v)%R.
Proof. unfold norm. simpl. apply sqrt_pos. Qed.

Lemma dot_self_nonneg (v : Vector2f R) : (0 <= dot v v)%R.
Proof. unfold dot. simpl. nra. Qed.

Lemma norm_scale (v : Vector2f R) (s : R) :
  norm (vscale v s) = (Rabs s * norm v)%R.
Proof.
  assert (E : dot (vscale v s) (vscale v s) = (Rsqr s * dot v v)%R).
  { unfold dot, vscale, Rsqr; simpl; ring. }
  unfold norm. rewrite E. simpl.
  rewrite sqrt_mult; [| apply Rle_0_sqr | apply dot_self_nonneg].
  now rewrite sqrt_Rsqr_abs.
Qed.

Lemma norm_eq_zero (v : Vector2f R) : vx v = 0%R -> vy v = 0%R -> norm v = 0%R.
Proof.
  intros Hx Hy. unfold norm, dot. simpl. rewrite Hx, Hy.
  replace (0 * 0 + 0 * 0)%R with 0%R by ring. apply sqrt_0.
Qed.

(** The vector from A to B after the last block of a solve, in each of
    its three branches. *)
Lemma distribute_difference (a b : Addr) (c : Vector2f R) (h : Heap R) :
  a <> b ->
  vsub (position (distribute a b c h b)) (position (distribute a b c h a))
    = vsub (vsub (position (h b)) (position (h a))) c.
Proof.
  intros Hab. assert (Hba : b <> a) by auto.
  destruct (position (h a)) as [ax ay] eqn:EA.
  destruct (position (h b)) as [bx by_] eqn:EB.
  destruct c as [cx cy].
  destruct (isStatic (h a)) eqn:SA; [| destruct (isStatic (h b)) eqn:SB].
  - rewrite distribute_A_static by assumption. unfold position_sub.
    rewrite modify_same, modify_other by assumption. simpl.
    rewrite EA, EB. unfold vsub; simpl. apply Vec2_eq_R; ring.
  - rewrite distribute_B_static by assumption. unfold position_add.
    rewrite modify_same, modify_other by assumption. simpl.
    rewrite EA, EB. unfold vsub, vadd; simpl. apply Vec2_eq_R; ring.
  - rewrite distribute_dynamic by assumption.
    unfold position_sub, position_add.
    rewrite modify_same, !modify_other, modify_same by assumption. simpl.
    rewrite EA, EB. unfold vsub, vadd, vscale; simpl.
    rewrite R_fhalf. apply Vec2_eq_R; field.
Qed.

Lemma DistanceSolve_separation (c : DistanceConstraint R) (h : Heap R) :
  (1 / 10000 <= separation (d_objA c) (d_objB c) h)%R ->
  (0 <= d_stiffness c <= 1)%R ->
  (0 <= d_restLength c)%R ->
  separation (d_objA c) (d_objB c) (DistanceSolve c h)
    = (separation (d_objA c) (d_objB c) h
       - (separation (d_objA c) (d_objB c) h - d_restLength c)
         * d_stiffness c)%R.
Proof.
  destruct c as [a b r k]. simpl. intros HL Hk Hr.
  unfold separation in *.
  set (diff := vsub (position (h b)) (position (h a))) in *.
  set (L := norm diff) in *.
  assert (HLpos : (0 < L)%R) by lra.
  assert (Hab : a <> b).
  { intros E. unfold L, diff in HL. rewrite E, norm_zero_R in HL. lra. }
  assert (Hgo : DistanceSolve (mkDistanceConstraint a b r k) h
                = distribute a b
                    (vscale (vdiv diff L) ((L - r) * k)%R) h).
  { unfold DistanceSolve. simpl. fold diff. fold L.
    rewrite R_feps, Rltb_false by assumption. reflexivity. }
  rewrite Hgo, distribute_difference by assumption. fold diff.
  replace (vsub diff (vscale (vdiv diff L) ((L - r) * k)%R))
    with (vscale diff ((L - (L - r) * k) / L)%R).
  - rewrite norm_scale. fold L.
    rewrite Rabs_pos_eq.
    + field. lra.
    + apply Rmult_le_pos; [nra | left; now apply Rinv_0_lt_compat].
  - destruct diff as [dx dy]. unfold vscale, vsub, vdiv; simpl.
    apply Vec2_eq_R; field; lra.
Qed.

(** X8. In the reals, one [DistanceConstraint::Solve] on a link that is at
    least [0.0001] long multiplies its length error
    [currentLength - restLength] by [1 - stiffness], for a stiffness
    between 0 and 1 and a rest length that is not negative, whichever of
    the two bodies are static.  With stiffness 1, which is what
    [AddDistanceConstraint] sets, the link has its rest length after a
    single solve. *)
Theorem X8_distance_error_contracts (c : DistanceConstraint R) (h : Heap R) :
  (1 / 10000 <= separation (d_objA c) (d_objB c) h)%R ->
  (0 <= d_stiffness c <= 1)%R ->
  (0 <= d_restLength c)%R ->
  link_error (d_objA c) (d_objB c) (d_restLength c) (DistanceSolve c h)
    = ((1 - d_stiffness c)
       * link_error (d_objA c) (d_objB c) (d_restLength c) h)%R /\
  (d_stiffness c = 1%R ->
     separation (d_objA c) (d_objB c) (DistanceSolve c h) = d_restLength c).
Proof.
  intros HL Hk Hr.
  pose proof (DistanceSolve_separation c h HL Hk Hr) as Hnew.
  unfold link_error. fold (separation (d_objA c) (d_objB c) h).
  fold (separation (d_objA c) (d_objB c) (DistanceSolve c h)).
  split.
  - rewrite Hnew. ring.
  - intros E. rewrite Hnew, E. ring.
Qed.

Lemma X8_distance_error_contracts_witness :
  separation 0%nat 1%nat (DistanceSolve unit_link (link_heap false false))
    = 1%R.
Proof.
  assert (E : separation 0%nat 1%nat (link_heap false false) = 2%R).
  { unfold separation, norm, dot, vsub. simpl. apply sqrt_4_0. }
  destruct (X8_distance_error_contracts unit_link (link_heap false false))
    as [_ H]; simpl.
  - rewrite E. lra.
  - lra.
  - lra.
  - now apply H.
Defined.

(** X9. A constraint whose rest length is taken from the current
    positions is satisfied when it is made: in the reals, solving the
    distance constraint that [AddDistanceConstraint] creates for a
    negative length argument leaves every body as it is, and so does
    solving the spring that [AddSpringConstraint] creates when the two
    bodies have the same implicit velocity. *)
Theorem X9_auto_length_is_satisfied
  (s : Sim R) (ptr a b : Addr) (length stiffness damping : R) (q : Addr) :
  ((length < 0)%R ->
     m_constraints (world (AddDistanceConstraint ptr a b length s))
       = m_constraints (world s)
           ++ [(ptr, CDistance (DistanceConstraint_auto a b (heap s)))]) /\
  m_constraints (world (AddSpringConstraint ptr a b stiffness damping s))
    = m_constraints (world s)
        ++ [(ptr, CSpring (SpringConstraint_auto a b stiffness damping
                             (heap s)))] /\
  Solve (CDistance (DistanceConstraint_auto a b (heap s))) (heap s) q
    = heap s q /\
  (velocity (heap s a) = velocity (heap s b) ->
     Solve (CSpring (SpringConstraint_auto a b stiffness damping (heap s)))
           (heap s) q
       = heap s q).
Proof.
  split_and.
  - intros Hneg. unfold AddDistanceConstraint. simpl.
    rewrite R_f0, Rltb_true by assumption. reflexivity.
  - reflexivity.
  - simpl. unfold DistanceSolve, DistanceConstraint_auto. simpl.
    destruct (Rltb _ _); [reflexivity |].
    apply distribute_zero. unfold vscale, vdiv; simpl.
    apply Vec2_eq_R; ring.
  - intros Hv.
    simpl. unfold SpringConstraint_auto.
    rewrite (SpringSolve_as_DistanceSolve a b _ stiffness damping (heap s)
               (or_intror Hv)).
    unfold DistanceSolve. simpl.
    destruct (Rltb _ _); [reflexivity |].
    apply distribute_zero. unfold vscale, vdiv; simpl.
    apply Vec2_eq_R; ring.
Qed.

Lemma X9_auto_length_is_satisfied_witness :
  m_constraints
    (world (AddDistanceConstraint 9%nat 0%nat 1%nat (-1)%R pendulum_sim))
    = m_constraints (world pendulum_sim)
        ++ [(9%nat, CDistance (DistanceConstraint_auto 0%nat 1%nat
                                 (heap pendulum_sim)))] /\
  Solve (CSpring (SpringConstraint_auto 0%nat 1%nat (1 / 2)%R (1 / 10)%R
                    (heap pendulum_sim)))
        (heap pendulum_sim) 1%nat
    = heap pendulum_sim 1%nat.
Proof.
  destruct (X9_auto_length_is_satisfied pendulum_sim 9%nat 0%nat 1%nat
              (-1)%R (1 / 2)%R (1 / 10)%R 1%nat) as (H1 & _ & _ & H4).
  split.
  - apply H1. lra.
  - apply H4. unfold velocity, vsub; simpl. apply Vec2_eq_R; ring.
Defined.

(** ** What a step writes *)

Section WriteFacts.

Context {F : Type} {SF : Scalar F}.

Variable K : Object F -> Object F -> Prop.
Hypothesis K_refl : forall o, K o o.
Hypothesis K_trans : forall a b c, K a b -> K b c -> K a c.

Lemma preserves_skip : preserves K (fun h => h).
Proof. intros h q. apply K_refl. Qed.

Lemma preserves_seq (s1 s2 : Heap F -> Heap F) :
  preserves K s1 -> preserves K s2 -> preserves K (s1 ;; s2).
Proof. intros H1 H2 h q. unfold seq. eapply K_trans; [apply H1 | apply H2]. Qed.

Lemma preserves_for_each {A : Type} (l : list A)
  (body : A -> Heap F -> Heap F) :
  (forall a, preserves K (body a)) -> preserves K (for_each l body).
Proof.
  intros Hbody. unfold for_each.
  induction l as [| a l IH]; intros h q; simpl; [apply K_refl |].
  eapply K_trans; [apply (Hbody a) | apply IH].
Qed.

Lemma preserves_repeat_int (n : Z) (body : Heap F -> Heap F) :
  preserves K body -> preserves K (repeat_int n body).
Proof.
  intros Hbody h q. unfold repeat_int.
  induction (Z.to_nat n) as [| k IH]; simpl; [apply K_refl |].
  eapply K_trans; [apply IH | apply Hbody].
Qed.

Lemma preserves_modify (x : Addr) (f : Object F -> Object F) :
  (forall o, K o (f o)) -> preserves K (modify x f).
Proof.
  intros Hf h q. rewrite modify_cases.
  destruct (Nat.eqb_spec q x) as [-> | _]; [apply Hf | apply K_refl].
Qed.

Lemma preserves_unless_static (x : Addr) (s : Heap F -> Heap F) :
  preserves K s -> preserves K (unless_static x s).
Proof.
  intros Hs h q. unfold unless_static.
  destruct (isStatic (h x)); [apply K_refl | apply Hs].
Qed.

Hypothesis K_position : forall o v, K o (set_position v o).

Lemma preserves_position_writes (x : Addr) (v : Vector2f F) :
  preserves K (position_set x v) /\ preserves K (position_add x v) /\
  preserves K (position_sub x v).
Proof. split_and; apply preserves_modify; intros o; apply K_position. Qed.

Lemma preserves_distribute (a b : Addr) (c : Vector2f F) :
  preserves K (distribute a b c).
Proof.
  intros h q. unfold distribute.
  destruct (isStatic (h a)); [apply preserves_position_writes |].
  destruct (isStatic (h b)); [apply preserves_position_writes |].
  apply preserves_seq; apply preserves_position_writes.
Qed.

Lemma preserves_Solve (c : Constraint F) : preserves K (Solve c).
Proof.
  intros h q. destruct c as [d | s | p]; simpl.
  - unfold DistanceSolve. cbv zeta.
    match goal with |- context [if ?b then _ else _] => destruct b end;
      [apply K_refl | apply preserves_distribute].
  - unfold SpringSolve. cbv zeta.
    match goal with |- context [if ?b then _ else _] => destruct b end;
      [apply K_refl | apply preserves_distribute].
  - apply preserves_position_writes.
Qed.

Lemma preserves_SolveConstraints (w : PhysicsWorld F) :
  preserves K (SolveConstraints w).
Proof.
  apply preserves_repeat_int, preserves_for_each.
  intros c. apply preserves_Solve.
Qed.

Hypothesis K_oldPosition : forall o v, K o (set_oldPosition v o).

Lemma preserves_old_writes (x : Addr) (v : Vector2f F) :
  preserves K (oldPosition_set x v) /\ preserves K (oldPosition_add x v) /\
  preserves K (oldPosition_sub x v).
Proof. split_and; apply preserves_modify; intros o; apply K_oldPosition. Qed.

Lemma preserves_move (x : Addr) (v : Vector2f F) :
  preserves K (unless_static x (position_add x v ;; oldPosition_add x v)) /\
  preserves K (unless_static x (position_sub x v ;; oldPosition_sub x v)) /\
  preserves K (unless_static x (oldPosition_add x v)) /\
  preserves K (unless_static x (oldPosition_sub x v)).
Proof.
  split_and; apply preserves_unless_static; try apply preserves_seq;
    first [apply preserves_position_writes | apply preserves_old_writes].
Qed.

Lemma preserves_ResolveCollision (a b : Addr) :
  preserves K (ResolveCollision a b).
Proof.
  assert (HCC : preserves K (ResolveCircleCircle a b)).
  { intros h q. unfold ResolveCircleCircle.
    destruct (CircleCircle_contact a b h) as [[n pen] |]; [| apply K_refl].
    cbv zeta. apply preserves_seq.
    - unfold CircleCircle_correct. apply preserves_seq; apply preserves_move.
    - unfold CircleCircle_bounce. cbv zeta.
      match goal with |- context [if ?c then _ else _] => destruct c end;
        [apply preserves_seq; apply preserves_move | apply preserves_skip]. }
  assert (HAA : preserves K (ResolveAABBAABB a b)).
  { intros h q. unfold ResolveAABBAABB.
    destruct (AABBAABB_contact a b h) as [[n pen] |]; [| apply K_refl].
    cbv zeta. apply preserves_seq.
    - unfold AABBAABB_correct. apply preserves_seq; apply preserves_move.
    - unfold AABBAABB_bounce. cbv zeta.
      match goal with |- context [if ?c then _ else _] => destruct c end;
        [apply preserves_seq; apply preserves_move | apply preserves_skip]. }
  assert (HCA : forall c x, preserves K (ResolveCircleAABB c x)).
  { intros c x h q. unfold ResolveCircleAABB.
    destruct (CircleAABB_contact c x h) as [[n pen] |]; [| apply K_refl].
    cbv zeta. apply preserves_seq.
    - unfold CircleAABB_correct. apply preserves_seq; apply preserves_move.
    - intros h1 q1. unfold CircleAABB_bounce.
      match goal with |- context [if ?c then _ else _] => destruct c end;
        [apply preserves_old_writes | apply K_refl]. }
  intros h q. unfold ResolveCollision.
  destruct (collider (h a)) as [cA |]; [| apply K_refl].
  destruct (collider (h b)) as [cB |]; [| apply K_refl].
  destruct (type cA), (type cB);
    first [apply HCC | apply HCA | apply HAA].
Qed.

Lemma preserves_collisions (objects : list Addr) :
  preserves K (collisions objects).
Proof.
  induction objects as [| a rest IH]; intros h q; simpl; [apply K_refl |].
  eapply K_trans; [| apply IH].
  apply preserves_for_each. intros b h1 q1. unfold collide_pair.
  destruct (isStatic (h1 a) && isStatic (h1 b)); [apply K_refl |].
  destruct (collider (h1 a)); [| apply K_refl].
  destruct (collider (h1 b)); [| apply K_refl].
  apply preserves_ResolveCollision.
Qed.

Hypothesis K_acceleration : forall o v, K o (set_acceleration v o).

Lemma preserves_step_heap (w : PhysicsWorld F) (dt : F) :
  preserves K (step_heap w dt).
Proof.
  unfold step_heap. apply preserves_seq; [| apply preserves_seq;
    [| apply preserves_seq;
       [apply preserves_SolveConstraints | apply preserves_collisions]]].
  - apply preserves_for_each. intros o.
    apply preserves_unless_static, preserves_modify.
    intros o'. apply K_acceleration.
  - apply preserves_for_each. intros o.
    apply preserves_unless_static. intros h q. cbv zeta.
    apply preserves_seq;
      [apply preserves_position_writes | apply preserves_old_writes].
Qed.

End WriteFacts.

Section AttributeFacts.

Context {F : Type} {SF : Scalar F}.

Lemma Steps_world (w : PhysicsWorld F) (dts : list F) (h : Heap F) :
  world (Steps dts (mkSim h w)) = w.
Proof.
  unfold Steps. revert h.
  induction dts as [| dt dts IH]; intros h; simpl; [reflexivity |].
  unfold Step at 2. simpl. apply IH.
Qed.

Lemma Steps_cons (w : PhysicsWorld F) (dt : F) (dts : list F) (h : Heap F) :
  Steps (dt :: dts) (mkSim h w) = Steps dts (mkSim (step_heap w dt h) w).
Proof. reflexivity. Qed.

(** X10. What the simulation writes.  Over any run of [Step] calls the
    world itself is unchanged and no body changes its [mass],
    [bounciness], [isStatic] flag or collider.  The constraint pass writes
    [position] only: [oldPosition] and [acceleration] of every body are
    as before it.  The collision pass writes no [acceleration]. *)
Theorem X10_step_writes
  (w : PhysicsWorld F) (dts : list F) (h : Heap F) (q : Addr) :
  world (Steps dts (mkSim h w)) = w /\
  same_attributes (h q) (heap (Steps dts (mkSim h w)) q) /\
  only_position (h q) (SolveConstraints w h q) /\
  acceleration (collisions (m_objects w) h q) = acceleration (h q).
Proof.
  assert (Hrefl : forall o : Object F, same_attributes o o)
    by (intros o; repeat split).
  assert (Htrans : forall a b c : Object F,
            same_attributes a b -> same_attributes b c ->
            same_attributes a c).
  { unfold same_attributes. intros a b c (A1 & A2 & A3 & A4) (B1 & B2 & B3 & B4).
    repeat split; congruence. }
  split_and.
  - apply Steps_world.
  - revert h. induction dts as [| dt dts IH]; intros h; [apply Hrefl |].
    rewrite Steps_cons. eapply Htrans; [| apply IH].
    apply (preserves_step_heap same_attributes Hrefl Htrans);
      intros o v; repeat split.
  - apply (preserves_SolveConstraints only_position).
    + intros o. repeat split.
    + unfold only_position, same_attributes.
      intros a b c (A1 & A2 & A3 & A4 & A5 & A6) (B1 & B2 & B3 & B4 & B5 & B6).
      repeat split; congruence.
    + intros o v. repeat split.
  - apply (preserves_collisions
             (fun o o' => acceleration o' = acceleration o)).
    + reflexivity.
    + intros a b c H1 H2. congruence.
    + reflexivity.
    + reflexivity.
Qed.

End AttributeFacts.

(** ** Which bodies a step can reach *)

Section ReachFacts.

Context {F : Type} {SF : Scalar F}.

Variable q : Addr.
Variable P : Object F -> Prop.

Lemma keeps_skip : keeps q P (fun h => h).
Proof. intros h _. reflexivity. Qed.

Lemma keeps_seq (s1 s2 : Heap F -> Heap F) :
  keeps q P s1 -> keeps q P s2 -> keeps q P (s1 ;; s2).
Proof.
  intros H1 H2 h HP. unfold seq.
  rewrite H2; [now apply H1 |]. now rewrite H1.
Qed.

Lemma keeps_for_each {A : Type} (l : list A) (body : A -> Heap F -> Heap F) :
  (forall a, In a l -> keeps q P (body a)) -> keeps q P (for_each l body).
Proof.
  unfold for_each. induction l as [| a l IH]; intros Hbody h HP; simpl;
    [reflexivity |].
  assert (Ha : body a h q = h q) by (apply Hbody; [now left | assumption]).
  rewrite IH.
  - exact Ha.
  - intros b Hb. apply Hbody. now right.
  - now rewrite Ha.
Qed.

Lemma keeps_repeat_int (n : Z) (body : Heap F -> Heap F) :
  keeps q P body -> keeps q P (repeat_int n body).
Proof.
  intros Hbody h HP. unfold repeat_int.
  induction (Z.to_nat n) as [| k IH]; simpl; [reflexivity |].
  rewrite Hbody; [exact IH | now rewrite IH].
Qed.

Lemma keeps_modify (x : Addr) (f : Object F -> Object F) :
  x <> q -> keeps q P (modify x f).
Proof. intros Hx h _. apply modify_other. auto. Qed.

Lemma keeps_unless_static (x : Addr) (s : Heap F -> Heap F) :
  keeps q P s -> keeps q P (unless_static x s).
Proof.
  intros Hs h HP. unfold unless_static.
  destruct (isStatic (h x)); [reflexivity | now apply Hs].
Qed.

Lemma keeps_move (x : Addr) (v : Vector2f F) :
  x <> q ->
  keeps q P (unless_static x (position_add x v ;; oldPosition_add x v)) /\
  keeps q P (unless_static x (position_sub x v ;; oldPosition_sub x v)) /\
  keeps q P (unless_static x (oldPosition_add x v)) /\
  keeps q P (unless_static x (oldPosition_sub x v)).
Proof.
  intros Hx. split_and; apply keeps_unless_static; try apply keeps_seq;
    now apply keeps_modify.
Qed.

Lemma keeps_distribute (a b : Addr) (c : Vector2f F) :
  a <> q -> b <> q -> keeps q P (distribute a b c).
Proof.
  intros Ha Hb h HP. unfold distribute.
  destruct (isStatic (h a)); [now apply keeps_modify |].
  destruct (isStatic (h b)); [now apply keeps_modify |].
  apply keeps_seq; [| | assumption]; now apply keeps_modify.
Qed.

Lemma keeps_Solve (c : Constraint F) :
  references c q = false -> keeps q P (Solve c).
Proof.
  intros Hc h HP. destruct c as [d | s | p]; simpl in *.
  - apply orb_false_elim in Hc. destruct Hc as [Ha Hb].
    apply Nat.eqb_neq in Ha, Hb.
    unfold DistanceSolve. cbv zeta.
    match goal with |- context [if ?b then _ else _] => destruct b end;
      [reflexivity | now apply keeps_distribute].
  - apply orb_false_elim in Hc. destruct Hc as [Ha Hb].
    apply Nat.eqb_neq in Ha, Hb.
    unfold SpringSolve. cbv zeta.
    match goal with |- context [if ?b then _ else _] => destruct b end;
      [reflexivity | now apply keeps_distribute].
  - apply Nat.eqb_neq in Hc. now apply keeps_modify.
Qed.

Lemma keeps_SolveConstraints (w : PhysicsWorld F) :
  forallb (fun c => negb (references (snd c) q)) (m_constraints w) = true ->
  keeps q P (SolveConstraints w).
Proof.
  intros Hc. apply keeps_repeat_int, keeps_for_each.
  intros c Hin. apply keeps_Solve.
  rewrite forallb_forall in Hc. apply negb_true_iff. now apply Hc.
Qed.

Lemma keeps_ResolveCollision (a b : Addr) :
  a <> q -> b <> q -> keeps q P (ResolveCollision a b).
Proof.
  intros Ha Hb.
  assert (HCC : keeps q P (ResolveCircleCircle a b)).
  { intros h HP. unfold ResolveCircleCircle.
    destruct (CircleCircle_contact a b h) as [[n pen] |]; [| reflexivity].
    cbv zeta. apply keeps_seq; [| | assumption].
    - unfold CircleCircle_correct. apply keeps_seq; now apply keeps_move.
    - unfold CircleCircle_bounce. cbv zeta.
      match goal with |- context [if ?c then _ else _] => destruct c end;
        [apply keeps_seq; now apply keeps_move | apply keeps_skip]. }
  assert (HAA : keeps q P (ResolveAABBAABB a b)).
  { intros h HP. unfold ResolveAABBAABB.
    destruct (AABBAABB_contact a b h) as [[n pen] |]; [| reflexivity].
    cbv zeta. apply keeps_seq; [| | assumption].
    - unfold AABBAABB_correct. apply keeps_seq; now apply keeps_move.
    - unfold AABBAABB_bounce. cbv zeta.
      match goal with |- context [if ?c then _ else _] => destruct c end;
        [apply keeps_seq; now apply keeps_move | apply keeps_skip]. }
  assert (HCA : forall c x, c <> q -> x <> q ->
                  keeps q P (ResolveCircleAABB c x)).
  { intros c x Hc Hx h HP. unfold ResolveCircleAABB.
    destruct (CircleAABB_contact c x h) as [[n pen] |]; [| reflexivity].
    cbv zeta. apply keeps_seq; [| | assumption].
    - unfold CircleAABB_correct. apply keeps_seq; now apply keeps_move.
    - intros h1 HP1. unfold CircleAABB_bounce.
      match goal with |- context [if ?c then _ else _] => destruct c end;
        [now apply keeps_modify | reflexivity]. }
  intros h HP. unfold ResolveCollision.
  destruct (collider (h a)) as [cA |]; [| reflexivity].
  destruct (collider (h b)) as [cB |]; [| reflexivity].
  destruct (type cA), (type cB);
    first [now apply HCC | now apply HCA | now apply HAA].
Qed.

Lemma keeps_collide_pair (a b : Addr) :
  (a <> q /\ b <> q) \/ (forall o, P o -> collider o = None) ->
  keeps q P (collide_pair a b).
Proof.
  intros Hc h HP. unfold collide_pair.
  destruct (isStatic (h a) && isStatic (h b)); [reflexivity |].
  destruct (Nat.eq_dec a q) as [-> | Ha].
  { destruct Hc as [[N _] | Hc]; [contradiction |].
    now rewrite (Hc _ HP). }
  destruct (Nat.eq_dec b q) as [-> | Hb].
  { destruct Hc as [[_ N] | Hc]; [contradiction |].
    rewrite (Hc _ HP). now destruct (collider (h a)). }
  destruct (collider (h a)); [| reflexivity].
  destruct (collider (h b)); [| reflexivity].
  now apply keeps_ResolveCollision.
Qed.

Lemma keeps_collisions (objects : list Addr) :
  ~ In q objects \/ (forall o, P o -> collider o = None) ->
  keeps q P (collisions objects).
Proof.
  induction objects as [| a rest IH]; intros Hc h HP; simpl; [reflexivity |].
  assert (Hrest : ~ In q rest \/ (forall o, P o -> collider o = None)).
  { destruct Hc as [Hc | Hc]; [left | now right].
    intros Hin. apply Hc. now right. }
  apply keeps_seq
    with (s1 := for_each rest (fun b => collide_pair a b))
         (s2 := collisions rest); [| now apply IH | assumption].
  apply keeps_for_each. intros b Hb. apply keeps_collide_pair.
  destruct Hc as [Hc | Hc]; [left | now right].
  split; intros ->; apply Hc; [now left | now right].
Qed.

End ReachFacts.

Section ReachTheorems.

Context {F : Type} {SF : Scalar F}.

(** X11. A body that is not registered in the world and that no
    constraint of the world points to is out of reach: over any run of
    [Step] calls it stays exactly as it is, whether or not it is static
    and whatever collider it has. *)
Theorem X11_unreachable_body_untouched
  (w : PhysicsWorld F) (dts : list F) (h : Heap F) (q : Addr) :
  ~ In q (m_objects w) ->
  forallb (fun c => negb (references (snd c) q)) (m_constraints w) = true ->
  heap (Steps dts (mkSim h w)) q = h q.
Proof.
  intros Hobj Hcs. revert h.
  induction dts as [| dt dts IH]; intros h; [reflexivity |].
  rewrite Steps_cons, IH.
  assert (Hloop : forall body : Addr -> Heap F -> Heap F,
            (forall o, o <> q -> keeps q (fun _ => True) (body o)) ->
            keeps q (fun _ => True) (for_each (m_objects w) body)).
  { intros body Hbody. apply keeps_for_each. intros o Hin.
    apply Hbody. intros ->. contradiction. }
  assert (Hk : keeps q (fun _ => True) (step_heap w dt)).
  { unfold step_heap. apply keeps_seq; [| apply keeps_seq; [| apply keeps_seq]].
    - apply Hloop. intros o Ho. unfold gravity_body.
      now apply keeps_unless_static, keeps_modify.
    - apply Hloop. intros o Ho. unfold verlet_body.
      apply keeps_unless_static. intros h0 _. cbv zeta.
      apply (keeps_seq q (fun _ => True)); [| | exact I];
        now apply keeps_modify.
    - now apply keeps_SolveConstraints.
    - apply keeps_collisions. now left. }
  apply Hk. exact I.
Qed.

(** X12. The collision pass never moves a body that has no collider,
    registered or not, and after it every body that is not in the list it
    runs over is as before.  For a list of fewer than two bodies the pass
    does nothing at all. *)
Theorem X12_collision_pass_reach
  (objects : list Addr) (h : Heap F) (q : Addr) :
  (collider (h q) = None -> collisions objects h q = h q) /\
  (~ In q objects -> collisions objects h q = h q) /\
  ((length objects < 2)%nat -> collisions objects h = h).
Proof.
  split_and.
  - intros Hc.
    apply (keeps_collisions q (fun o => collider o = None));
      [right; auto | exact Hc].
  - intros Hn.
    apply (keeps_collisions q (fun _ => True)); [now left | exact I].
  - intros Hlen. destruct objects as [| a [| b rest]]; simpl in *;
      [reflexivity | reflexivity | lia].
Qed.

End ReachTheorems.

Lemma X11_unreachable_body_untouched_witness :
  heap (Steps [(1 / 60)%R; (1 / 60)%R] (mkSim pendulum_heap pendulum_world))
       5%nat
    = pendulum_heap 5%nat.
Proof.
  apply (X11_unreachable_body_untouched pendulum_world
           [(1 / 60)%R; (1 / 60)%R] pendulum_heap 5%nat).
  - simpl. lia.
  - reflexivity.
Defined.

Lemma X12_collision_pass_reach_witness :
  collisions [0%nat; 1%nat] pendulum_heap 1%nat = pendulum_heap 1%nat /\
  collisions [0%nat] two_circles_heap = two_circles_heap.
Proof.
  split.
  - destruct (X12_collision_pass_reach [0%nat; 1%nat] pendulum_heap 1%nat)
      as (H & _ & _).
    apply H. reflexivity.
  - destruct (X12_collision_pass_reach [0%nat] two_circles_heap 0%nat)
      as (_ & _ & H).
    apply H. simpl. lia.
Defined.

(** ** Free motion in exact arithmetic *)

Lemma free_body_step (w : PhysicsWorld R) (dt : R) (h : Heap R) (q : Addr) :
  In q (m_objects w) -> NoDup (m_objects w) ->
  collider (h q) = None ->
  forallb (fun c => negb (references (snd c) q)) (m_constraints w) = true ->
  step_heap w dt h q = spec_verlet dt (spec_gravity (m_gravity w) (h q)).
Proof.
  intros Hin Hnd Hco Hcs.
  set (h1 := step_integrate w dt (step_gravity w h)).
  assert (E1 : h1 q = spec_verlet dt (spec_gravity (m_gravity w) (h q))).
  { unfold h1, step_integrate, step_gravity.
    rewrite (for_each_pointwise (spec_verlet dt) (verlet_body dt)
               (verlet_body_same dt)
               (fun a h0 r => verlet_body_other dt a r h0)).
    rewrite (for_each_pointwise (spec_gravity (m_gravity w))
               (gravity_body (m_gravity w))
               (gravity_body_same (m_gravity w))
               (fun a h0 r => gravity_body_other (m_gravity w) a r h0)).
    now rewrite (count_occ_once _ _ Hnd Hin). }
  assert (Hk : keeps q (fun o => collider o = None)
                 (SolveConstraints w ;; collisions (m_objects w))).
  { apply keeps_seq; [now apply keeps_SolveConstraints |].
    apply keeps_collisions. right. auto. }
  change (step_heap w dt h q)
    with ((SolveConstraints w ;; collisions (m_objects w)) h1 q).
  rewrite Hk; [exact E1 |].
  rewrite E1. unfold spec_verlet, spec_gravity.
  destruct (isStatic (h q)) eqn:Es; simpl; rewrite ?Es; simpl; exact Hco.
Qed.

(** X13. Free fall.  Take a non-static body without collider that is
    registered in a world whose [m_objects] has no body twice, and that
    no constraint points to.  In the reals,
    after [n] calls of [Step] with the same [dt] its implicit velocity
    has grown by [n] times [gravity * dt^2], and its position is
    [p + n * v + (n * (n + 1) / 2) * gravity * dt^2], where [p] and [v]
    are the position and the implicit velocity at the start.  Nothing
    else in the world has an influence on it. *)
Theorem X13_free_fall
  (w : PhysicsWorld R) (dt : R) (n : nat) (h : Heap R) (q : Addr) :
  In q (m_objects w) -> NoDup (m_objects w) ->
  isStatic (h q) = false -> collider (h q) = None ->
  forallb (fun c => negb (references (snd c) q)) (m_constraints w) = true ->
  velocity (heap (Steps (repeat dt n) (mkSim h w)) q)
    = vadd (velocity (h q))
           (vscale (vscale (m_gravity w) (dt * dt)%R) (INR n)) /\
  position (heap (Steps (repeat dt n) (mkSim h w)) q)
    = vadd (vadd (position (h q)) (vscale (velocity (h q)) (INR n)))
           (vscale (vscale (m_gravity w) (dt * dt)%R)
                   (INR n * (INR n + 1) / 2)%R).
Proof.
  intros Hin Hnd Hst Hco Hcs. revert h Hst Hco.
  induction n as [| n IH]; intros h Hst Hco.
  - simpl. unfold velocity, vadd, vsub, vscale; simpl.
    destruct (position (h q)) as [px py], (oldPosition (h q)) as [ox oy].
    simpl. split; apply Vec2_eq_R; field.
  - change (repeat dt (S n)) with (dt :: repeat dt n).
    rewrite Steps_cons.
    pose proof (free_body_step w dt h q Hin Hnd Hco Hcs) as E.
    assert (Hst1 : isStatic (step_heap w dt h q) = false).
    { rewrite E. unfold spec_verlet, spec_gravity. rewrite Hst. simpl.
      rewrite Hst. simpl. exact Hst. }
    assert (Hco1 : collider (step_heap w dt h q) = None).
    { rewrite E. unfold spec_verlet, spec_gravity. rewrite Hst. simpl.
      rewrite Hst. simpl. exact Hco. }
    destruct (IH _ Hst1 Hco1) as [Hv Hp]. rewrite Hv, Hp, E. clear Hv Hp IH.
    rewrite S_INR.
    unfold spec_verlet, spec_gravity. rewrite Hst. simpl. rewrite Hst.
    unfold velocity, vadd, vsub, vscale; simpl.
    destruct (position (h q)) as [px py], (oldPosition (h q)) as [ox oy],
      (m_gravity w) as [gx gy]. simpl.
    split; apply Vec2_eq_R; field.
Qed.

Lemma X13_free_fall_witness :
  position
    (heap (Steps (repeat (1 / 10)%R 2) (mkSim drop_heap drop_world)) 0%nat)
    = vadd (vadd (position (drop_heap 0%nat))
                 (vscale (velocity (drop_heap 0%nat)) (INR 2)))
           (vscale (vscale (m_gravity drop_world) (1 / 10 * (1 / 10))%R)
                   (INR 2 * (INR 2 + 1) / 2)%R).
Proof.
  apply (X13_free_fall drop_world (1 / 10)%R 2 drop_heap 0%nat).
  - simpl. lia.
  - repeat constructor; simpl; lia.
  - reflexivity.
  - reflexivity.
  - reflexivity.
Defined.

(** ** Contacts in exact arithmetic *)

Lemma R_fm1 : @fm1 R _ = (-1)%R.
Proof. unfold fm1; simpl; unfold Q2R; simpl; lra. Qed.

Lemma R_f098 : @f098 R _ = (98 / 100)%R.
Proof. unfold f098; simpl; unfold Q2R; simpl; lra. Qed.

Lemma norm_square (v : Vector2f R) : (norm v * norm v = dot v v)%R.
Proof. unfold norm. simpl. apply sqrt_sqrt, dot_self_nonneg. Qed.

Lemma unit_direction (diff : Vector2f R) :
  (0 < norm diff)%R ->
  dot (vdiv diff (norm diff)) (vdiv diff (norm diff)) = 1%R.
Proof.
  intros HL. pose proof (norm_square diff) as H2.
  set (L := norm diff) in *. destruct diff as [dx dy].
  unfold dot, vdiv in *; simpl in *.
  replace (dx / L * (dx / L) + dy / L * (dy / L))%R
    with ((dx * dx + dy * dy) / (L * L))%R by (field; lra).
  rewrite <- H2. field. lra.
Qed.

Lemma axis_normals_unit :
  dot (Vec2 (@f1 R _) f0) (Vec2 f1 f0) = 1%R /\
  dot (Vec2 (@fm1 R _) f0) (Vec2 fm1 f0) = 1%R /\
  dot (Vec2 (@f0 R _) f1) (Vec2 f0 f1) = 1%R /\
  dot (Vec2 (@f0 R _) fm1) (Vec2 f0 fm1) = 1%R.
Proof.
  unfold dot; simpl. rewrite R_f0, R_f1, R_fm1. repeat split; ring.
Qed.

Ltac case_Rltb :=
  match goal with
  | H : context [Rltb ?a ?b] |- _ =>
      unfold Rltb in H; destruct (Rlt_dec a b)
  | H : context [Rlt_dec ?a ?b] |- _ => destruct (Rlt_dec a b)
  end.

Lemma CircleCircle_contact_cases (a b : Addr) (h : Heap R)
  (n : Vector2f R) (pen : R) :
  CircleCircle_contact a b h = Some (n, pen) ->
  exists ca cb,
    GetCircleCollider (h a) = Some ca /\ GetCircleCollider (h b) = Some cb /\
    (dot (vsub (position (h b)) (position (h a)))
         (vsub (position (h b)) (position (h a)))
       < (radius ca + radius cb) * (radius ca + radius cb))%R /\
    ((separation a b h < 1 / 10000)%R /\
       n = Vec2 f1 f0 /\ pen = (radius ca + radius cb)%R
     \/
     (1 / 10000 <= separation a b h)%R /\
       n = vdiv (vsub (position (h b)) (position (h a))) (separation a b h) /\
       pen = (radius ca + radius cb - separation a b h)%R).
Proof.
  unfold CircleCircle_contact, separation, norm.
  destruct (GetCircleCollider (h a)) as [ca |]; [| discriminate].
  destruct (GetCircleCollider (h b)) as [cb |]; [| discriminate].
  simpl. rewrite R_feps. intros H. exists ca, cb.
  case_Rltb; [| discriminate]. case_Rltb; injection H as <- <-.
  - repeat split; try assumption. left. repeat split. assumption.
  - repeat split; try assumption. right. repeat split. lra.
Qed.

Lemma contact_normals_unit
  (a b : Addr) (h : Heap R) (n : Vector2f R) (pen : R) :
  (CircleCircle_contact a b h = Some (n, pen) -> dot n n = 1%R) /\
  (CircleAABB_contact a b h = Some (n, pen) -> dot n n = 1%R) /\
  (AABBAABB_contact a b h = Some (n, pen) -> dot n n = 1%R).
Proof.
  destruct axis_normals_unit as (U1 & U2 & U3 & U4).
  split_and.
  - intros H.
    destruct (CircleCircle_contact_cases a b h n pen H)
      as (ca & cb & _ & _ & _ & Hcase).
    destruct Hcase as [(_ & -> & _) | (Hd & -> & _)]; [exact U1 |].
    apply unit_direction. unfold separation in Hd. lra.
  - unfold CircleAABB_contact.
    destruct (GetCircleCollider (h a)) as [ca |]; [| discriminate].
    destruct (GetAABBCollider (h b)) as [cb |]; [| discriminate].
    cbv zeta.
    set (diff := vsub (position (h a)) _).
    simpl fltb. rewrite R_feps. intros H.
    case_Rltb; [| discriminate]. case_Rltb.
    + repeat case_Rltb; injection H as <- _; assumption.
    + injection H as <- _. apply unit_direction.
      unfold norm. simpl. lra.
  - unfold AABBAABB_contact.
    destruct (GetAABBCollider (h a)) as [ca |]; [| discriminate].
    destruct (GetAABBCollider (h b)) as [cb |]; [| discriminate].
    cbv zeta. unfold fgtb, fmin. simpl. intros H.
    repeat (case_Rltb; simpl in H; try discriminate);
      injection H as <- _; assumption.
Qed.

(** X14. In the reals every contact the three resolvers find has a unit
    normal.  The penetration of two overlapping boxes is never negative;
    that of two circles whose radii do not sum to a negative number is
    positive and at most the sum of the radii. *)
Theorem X14_contact_normal_unit
  (a b : Addr) (h : Heap R) (n : Vector2f R) (pen : R) :
  (CircleCircle_contact a b h = Some (n, pen) ->
     dot n n = 1%R /\
     forall ca cb,
       GetCircleCollider (h a) = Some ca ->
       GetCircleCollider (h b) = Some cb ->
       (0 <= radius ca + radius cb)%R ->
       (0 < pen <= radius ca + radius cb)%R) /\
  (CircleAABB_contact a b h = Some (n, pen) -> dot n n = 1%R) /\
  (AABBAABB_contact a b h = Some (n, pen) -> dot n n = 1%R /\ (0 <= pen)%R).
Proof.
  destruct (contact_normals_unit a b h n pen) as (UCC & UCA & UAA).
  split_and.
  - intros H. split; [now apply UCC |].
    destruct (CircleCircle_contact_cases a b h n pen H)
      as (ca & cb & Ea & Eb & Hov & Hcase).
    pose proof (norm_square (vsub (position (h b)) (position (h a)))) as H2.
    pose proof (norm_nonneg (vsub (position (h b)) (position (h a)))) as H0.
    fold (separation a b h) in H2, H0. rewrite <- H2 in Hov.
    intros ca' cb' Ea' Eb' Hrs.
    rewrite Ea in Ea'. rewrite Eb in Eb'.
    injection Ea' as <-. injection Eb' as <-.
    destruct Hcase as [(_ & _ & ->) | (_ & _ & ->)]; nra.
  - exact UCA.
  - intros H. split; [now apply UAA |]. revert H.
    unfold AABBAABB_contact.
    destruct (GetAABBCollider (h a)) as [ca |]; [| discriminate].
    destruct (GetAABBCollider (h b)) as [cb |]; [| discriminate].
    cbv zeta. unfold fgtb, fmin. simpl. intros H.
    repeat (case_Rltb; simpl in H; try discriminate);
      injection H as _ <-; lra.
Qed.

Lemma X14_contact_normal_unit_witness :
  dot (Vec2 (@f1 R _) f0) (Vec2 f1 f0) = 1%R /\
  (0 < 25 + 25 <= 25 + 25)%R.
Proof.
  destruct (X14_contact_normal_unit 0%nat 1%nat two_circles_heap
              (Vec2 f1 f0) (25 + 25)%R) as (H & _ & _).
  destruct (H two_circles_contact) as [Hn Hp].
  split; [exact Hn |].
  apply (Hp (mkCircleCollider 25%R) (mkCircleCollider 25%R));
    [reflexivity | reflexivity | simpl; lra].
Defined.

Lemma norm_along (diff : Vector2f R) (s : R) :
  (0 < norm diff)%R -> (0 <= s)%R ->
  norm (vscale diff (s / norm diff)%R) = s.
Proof.
  intros HL Hs. rewrite norm_scale, Rabs_pos_eq.
  - field. lra.
  - apply Rmult_le_pos; [assumption | left; now apply Rinv_0_lt_compat].
Qed.

Lemma CircleCircle_contact_far (a b : Addr) (h : Heap R)
  (ca cb : CircleCollider R) :
  GetCircleCollider (h a) = Some ca -> GetCircleCollider (h b) = Some cb ->
  (1 / 10000 <= separation a b h < radius ca + radius cb)%R ->
  CircleCircle_contact a b h
    = Some (vdiv (vsub (position (h b)) (position (h a))) (separation a b h),
            (radius ca + radius cb - separation a b h)%R).
Proof.
  intros Ea Eb Hd. unfold CircleCircle_contact. rewrite Ea, Eb.
  pose proof (norm_square (vsub (position (h b)) (position (h a)))) as H2.
  cbv zeta.
  change (fsqrt (dot (vsub (position (h b)) (position (h a)))
                     (vsub (position (h b)) (position (h a)))))
    with (separation a b h).
  fold (separation a b h) in H2.
  cbn [fadd fsub fmul fltb Rscalar].
  rewrite <- H2, R_feps.
  rewrite Rltb_true by nra.
  rewrite Rltb_false by lra. reflexivity.
Qed.

(** X15. Two overlapping circles whose centres are at least [0.0001]
    apart, in the reals: after [ResolveCircleCircle] on two distinct
    non-static bodies the centres are exactly the sum of the radii apart,
    so the overlap is gone in one call.  When exactly one of the two is
    static only half of the penetration is removed: the new distance is
    the mean of the old distance and the sum of the radii. *)
Theorem X15_circles_pushed_apart
  (a b : Addr) (h : Heap R) (ca cb : CircleCollider R) :
  GetCircleCollider (h a) = Some ca -> GetCircleCollider (h b) = Some cb ->
  a <> b ->
  (1 / 10000 <= separation a b h < radius ca + radius cb)%R ->
  (isStatic (h a) = false -> isStatic (h b) = false ->
     separation a b (ResolveCircleCircle a b h)
       = (radius ca + radius cb)%R) /\
  (isStatic (h a) <> isStatic (h b) ->
     separation a b (ResolveCircleCircle a b h)
       = ((separation a b h + (radius ca + radius cb)) / 2)%R).
Proof.
  intros Ea Eb Hab Hd.
  pose proof (CircleCircle_contact_far a b h ca cb Ea Eb Hd) as Hc.
  set (d := separation a b h) in *.
  set (rs := (radius ca + radius cb)%R) in *.
  set (diff := vsub (position (h b)) (position (h a))) in *.
  assert (Hnorm : norm diff = d) by reflexivity.
  assert (Hpos : forall x,
            position (ResolveCircleCircle a b h x)
            = position (CircleCircle_correct a b (vdiv diff d) (rs - d)%R h x)).
  { intros x. unfold ResolveCircleCircle. rewrite Hc. cbv zeta. unfold seq.
    apply keeps_position_CircleCircle_bounce. }
  destruct (CircleCircle_correct_position a b (vdiv diff d) (rs - d)%R h Hab)
    as [HA HB].
  assert (Hscale : forall s : R,
            (0 <= s)%R -> norm (vscale diff (s / d)%R) = s).
  { intros s Hs. rewrite <- Hnorm. apply norm_along; [rewrite Hnorm |]; lra. }
  unfold separation. rewrite !Hpos, HA, HB.
  split.
  - intros SA SB. rewrite SA, SB.
    match goal with
    | |- norm ?X = _ => replace X with (vscale diff (rs / d)%R)
    end; [apply Hscale; lra |].
    unfold diff. destruct (position (h a)) as [ax ay],
      (position (h b)) as [bx by_].
    unfold vsub, vadd, vscale, vdiv; simpl. rewrite R_fhalf.
    apply Vec2_eq_R; field; lra.
  - intros Hne.
    match goal with
    | |- norm ?X = _ => replace X with (vscale diff ((d + rs) / 2 / d)%R)
    end; [apply Hscale; lra |].
    unfold diff. destruct (position (h a)) as [ax ay],
      (position (h b)) as [bx by_].
    destruct (isStatic (h a)), (isStatic (h b)); try congruence;
      unfold vsub, vadd, vscale, vdiv; simpl; rewrite R_fhalf;
      apply Vec2_eq_R; field; lra.
Qed.

Lemma X15_circles_pushed_apart_witness :
  separation 0%nat 1%nat
    (ResolveCircleCircle 0%nat 1%nat overlapping_circles_heap)
    = (2 + 2)%R.
Proof.
  assert (E : separation 0%nat 1%nat overlapping_circles_heap = 2%R).
  { unfold separation, norm, dot, vsub. simpl. apply sqrt_4_0. }
  destruct (X15_circles_pushed_apart 0%nat 1%nat overlapping_circles_heap
              (mkCircleCollider 2%R) (mkCircleCollider 2%R)) as [H _].
  - reflexivity.
  - reflexivity.
  - discriminate.
  - rewrite E. simpl. lra.
  - apply H; reflexivity.
Defined.

(** ** The two bodies after a resolver *)

Section ResolverBodies.

Context {F : Type} {SF : Scalar F}.

Lemma guarded_one (q : Addr) (f : Object F -> Object F) (h : Heap F) (x : Addr) :
  unless_static q (modify q f) h x
    = if Nat.eqb x q
      then (if isStatic (h q) then h q else f (h q))
      else h x.
Proof.
  destruct (Nat.eqb_spec x q) as [-> | Hne].
  - apply unless_static_same.
  - now apply unless_static_other.
Qed.

Lemma guarded_ones (a b : Addr) (f g : Object F -> Object F) (h : Heap F)
  (x : Addr) :
  a <> b ->
  (unless_static a (modify a f) ;; unless_static b (modify b g)) h x
    = if Nat.eqb x a
      then (if isStatic (h a) then h a else f (h a))
      else if Nat.eqb x b
           then (if isStatic (h b) then h b else g (h b))
           else h x.
Proof.
  intros Hab. unfold seq at 1. rewrite !guarded_one.
  destruct (Nat.eqb_spec b a) as [E | _]; [now symmetry in E |].
  destruct (Nat.eqb_spec x b) as [-> | Hxb].
  - destruct (Nat.eqb_spec b a) as [E | _]; [now symmetry in E |].
    reflexivity.
  - reflexivity.
Qed.

Lemma ResolveCircleCircle_bodies (a b : Addr) (h : Heap F)
  (n : Vector2f F) (pen : F) :
  a <> b ->
  CircleCircle_contact a b h = Some (n, pen) ->
  let c := vscale n (pen [*] fhalf) in
  let rvn := dot (vsub (velocity (h a)) (velocity (h b))) n in
  let imp := vscale n (rvn [*] (f1 [+] fhalf) [*] fhalf) in
  ResolveCircleCircle a b h a
    = (if isStatic (h a) then h a
       else if f0 [<] rvn
            then set_oldPosition (vadd (oldPosition (pushed_back c (h a))) imp)
                                 (pushed_back c (h a))
            else pushed_back c (h a)) /\
  ResolveCircleCircle a b h b
    = (if isStatic (h b) then h b
       else if f0 [<] rvn
            then set_oldPosition (vsub (oldPosition (pushed_forth c (h b))) imp)
                                 (pushed_forth c (h b))
            else pushed_forth c (h b)).
Proof.
  intros Hab Hc c rvn imp. assert (Hba : b <> a) by auto.
  apply Nat.eqb_neq in Hba.
  unfold ResolveCircleCircle. rewrite Hc. cbv zeta. unfold seq.
  unfold CircleCircle_bounce. cbv zeta. unfold fgtb.
  fold (velocity (h a)) (velocity (h b)). fold rvn. fold imp.
  unfold CircleCircle_correct. cbv zeta. fold c.
  unfold position_sub, position_add, oldPosition_sub, oldPosition_add.
  destruct (f0 [<] rvn).
  - rewrite !guarded_ones, !guarded_pairs by assumption.
    rewrite !Nat.eqb_refl, Hba.
    destruct (isStatic (h a)) eqn:SA, (isStatic (h b)) eqn:SB;
      simpl; rewrite ?SA, ?SB; split; reflexivity.
  - rewrite !guarded_pairs by assumption.
    rewrite !Nat.eqb_refl, Hba.
    destruct (isStatic (h a)) eqn:SA, (isStatic (h b)) eqn:SB;
      split; reflexivity.
Qed.

Lemma ResolveAABBAABB_bodies (a b : Addr) (h : Heap F)
  (n : Vector2f F) (pen : F) :
  a <> b ->
  AABBAABB_contact a b h = Some (n, pen) ->
  let c := vscale n (pen [*] fhalf) in
  let rvn := dot (vsub (velocity (h a)) (velocity (h b))) n in
  let imp := vscale n (fneg rvn [*] (f1 [+] fhalf) [*] fhalf) in
  ResolveAABBAABB a b h a
    = (if isStatic (h a) then h a
       else if rvn [<] f0
            then set_oldPosition (vsub (oldPosition (pushed_forth c (h a))) imp)
                                 (pushed_forth c (h a))
            else pushed_forth c (h a)) /\
  ResolveAABBAABB a b h b
    = (if isStatic (h b) then h b
       else if rvn [<] f0
            then set_oldPosition (vadd (oldPosition (pushed_back c (h b))) imp)
                                 (pushed_back c (h b))
            else pushed_back c (h b)).
Proof.
  intros Hab Hc c rvn imp. assert (Hba : b <> a) by auto.
  apply Nat.eqb_neq in Hba.
  unfold ResolveAABBAABB. rewrite Hc. cbv zeta. unfold seq.
  unfold AABBAABB_bounce. cbv zeta.
  fold (velocity (h a)) (velocity (h b)). fold rvn. fold imp.
  unfold AABBAABB_correct. cbv zeta. fold c.
  unfold position_sub, position_add, oldPosition_sub, oldPosition_add.
  destruct (rvn [<] f0).
  - rewrite !guarded_ones, !guarded_pairs by assumption.
    rewrite !Nat.eqb_refl, Hba.
    destruct (isStatic (h a)) eqn:SA, (isStatic (h b)) eqn:SB;
      simpl; rewrite ?SA, ?SB; split; reflexivity.
  - rewrite !guarded_pairs by assumption.
    rewrite !Nat.eqb_refl, Hba.
    destruct (isStatic (h a)) eqn:SA, (isStatic (h b)) eqn:SB;
      split; reflexivity.
Qed.

Lemma ResolveCircleAABB_circle (circle box : Addr) (h : Heap F)
  (n : Vector2f F) (pen : F) :
  CircleAABB_contact circle box h = Some (n, pen) ->
  let c := vscale n pen in
  let vel := velocity (h circle) in
  let van := dot vel n in
  let tangent := Vec2 (fneg (vy n)) (vx n) in
  let vat := dot vel tangent in
  let velChange :=
    vsub (vadd (vscale n (fneg van [*] bounciness (h circle)))
               (vscale tangent (vat [*] f098)))
         (vadd (vscale n van) (vscale tangent vat)) in
  ResolveCircleAABB circle box h circle
    = (if isStatic (h circle) then h circle
       else if van [<] f0
            then set_oldPosition
                   (vsub (oldPosition (pushed_forth c (h circle))) velChange)
                   (pushed_forth c (h circle))
            else pushed_forth c (h circle)).
Proof.
  intros Hc c vel van tangent vat velChange.
  assert (Hab : circle <> box).
  { apply (CircleAABB_contact_distinct circle box h). now rewrite Hc. }
  assert (Hba : box <> circle) by auto. apply Nat.eqb_neq in Hba.
  unfold ResolveCircleAABB. rewrite Hc. cbv zeta. unfold seq.
  fold (velocity (h circle)). fold vel. fold van.
  assert (E1 : CircleAABB_correct circle box n pen h circle
               = if isStatic (h circle) then h circle
                 else pushed_forth c (h circle)).
  { unfold CircleAABB_correct. cbv zeta. fold c.
    unfold position_sub, position_add, oldPosition_sub, oldPosition_add.
    rewrite guarded_pairs by assumption. now rewrite Nat.eqb_refl. }
  unfold CircleAABB_bounce. rewrite E1.
  destruct (isStatic (h circle)) eqn:SA.
  - rewrite SA. simpl. exact E1.
  - simpl. rewrite SA. simpl.
    destruct (van [<] f0); [| exact E1].
    unfold oldPosition_sub. rewrite modify_same, E1. reflexivity.
Qed.

End ResolverBodies.

(** ** Conservation and bounce laws in exact arithmetic *)

Ltac vec_ring :=
  unfold velocity, pushed_back, pushed_forth, vadd, vsub, vscale; simpl;
  apply Vec2_eq_R; ring.

(** X16. In the reals, [ResolveCircleCircle] and [ResolveAABBAABB] on two
    distinct non-static bodies keep the sum of the two positions and the
    sum of the two implicit velocities: what one body gains the other
    loses, whatever the masses.  [ResolveCircleAABB] on two non-static
    bodies keeps the sum of the two positions. *)
Theorem X16_pair_conservation (a b : Addr) (h : Heap R) :
  a <> b -> isStatic (h a) = false -> isStatic (h b) = false ->
  (vadd (position (ResolveCircleCircle a b h a))
        (position (ResolveCircleCircle a b h b))
     = vadd (position (h a)) (position (h b)) /\
   vadd (velocity (ResolveCircleCircle a b h a))
        (velocity (ResolveCircleCircle a b h b))
     = vadd (velocity (h a)) (velocity (h b))) /\
  (vadd (position (ResolveAABBAABB a b h a))
        (position (ResolveAABBAABB a b h b))
     = vadd (position (h a)) (position (h b)) /\
   vadd (velocity (ResolveAABBAABB a b h a))
        (velocity (ResolveAABBAABB a b h b))
     = vadd (velocity (h a)) (velocity (h b))) /\
  vadd (position (ResolveCircleAABB a b h a))
       (position (ResolveCircleAABB a b h b))
    = vadd (position (h a)) (position (h b)).
Proof.
  intros Hab SA SB. split_and.
  - destruct (CircleCircle_contact a b h) as [[n pen] |] eqn:Hc.
    + destruct (ResolveCircleCircle_bodies a b h n pen Hab Hc) as [-> ->].
      rewrite SA, SB.
      match goal with |- context [if ?c then _ else _] => destruct c end;
        vec_ring.
    + unfold ResolveCircleCircle. now rewrite Hc.
  - destruct (CircleCircle_contact a b h) as [[n pen] |] eqn:Hc.
    + destruct (ResolveCircleCircle_bodies a b h n pen Hab Hc) as [-> ->].
      rewrite SA, SB.
      match goal with |- context [if ?c then _ else _] => destruct c end;
        vec_ring.
    + unfold ResolveCircleCircle. now rewrite Hc.
  - destruct (AABBAABB_contact a b h) as [[n pen] |] eqn:Hc.
    + destruct (ResolveAABBAABB_bodies a b h n pen Hab Hc) as [-> ->].
      rewrite SA, SB.
      match goal with |- context [if ?c then _ else _] => destruct c end;
        vec_ring.
    + unfold ResolveAABBAABB. now rewrite Hc.
  - destruct (AABBAABB_contact a b h) as [[n pen] |] eqn:Hc.
    + destruct (ResolveAABBAABB_bodies a b h n pen Hab Hc) as [-> ->].
      rewrite SA, SB.
      match goal with |- context [if ?c then _ else _] => destruct c end;
        vec_ring.
    + unfold ResolveAABBAABB. now rewrite Hc.
  - unfold ResolveCircleAABB.
    destruct (CircleAABB_contact a b h) as [[n pen] |]; [| reflexivity].
    cbv zeta. unfold seq. rewrite !keeps_position_CircleAABB_bounce.
    destruct (CircleAABB_correct_position a b n pen h Hab) as [-> ->].
    rewrite SA, SB. vec_ring.
Qed.

Lemma X16_pair_conservation_witness :
  vadd (position (ResolveCircleCircle 0%nat 1%nat overlapping_circles_heap
                    0%nat))
       (position (ResolveCircleCircle 0%nat 1%nat overlapping_circles_heap
                    1%nat))
    = vadd (position (overlapping_circles_heap 0%nat))
           (position (overlapping_circles_heap 1%nat)).
Proof.
  destruct (X16_pair_conservation 0%nat 1%nat overlapping_circles_heap)
    as [[H _] _]; [discriminate | reflexivity | reflexivity |].
  exact H.
Defined.

(** X17. The bounce of [ResolveCircleCircle] and [ResolveAABBAABB] in the
    reals, for a contact with normal [n] between two distinct bodies.
    Let [rvn] be the relative implicit velocity along [n] before the
    call.  When the bodies are not approaching ([rvn <= 0] for circles,
    [rvn >= 0] for boxes) the relative velocity along [n] is unchanged.
    When they approach and neither is static it is reversed and halved,
    a restitution of [0.5].  When they approach and exactly one is
    static it is not reversed: a quarter of it is left, and the moving
    body keeps approaching. *)
Theorem X17_bounce_restitution
  (a b : Addr) (h : Heap R) (n : Vector2f R) (pen : R) :
  a <> b ->
  let rvn := dot (vsub (velocity (h a)) (velocity (h b))) n in
  (CircleCircle_contact a b h = Some (n, pen) ->
     let rvn' :=
       dot (vsub (velocity (ResolveCircleCircle a b h a))
                 (velocity (ResolveCircleCircle a b h b))) n in
     ((rvn <= 0)%R -> rvn' = rvn) /\
     ((0 < rvn)%R -> isStatic (h a) = false -> isStatic (h b) = false ->
        rvn' = (- rvn / 2)%R) /\
     ((0 < rvn)%R -> isStatic (h a) <> isStatic (h b) ->
        rvn' = (rvn / 4)%R)) /\
  (AABBAABB_contact a b h = Some (n, pen) ->
     let rvn' :=
       dot (vsub (velocity (ResolveAABBAABB a b h a))
                 (velocity (ResolveAABBAABB a b h b))) n in
     ((0 <= rvn)%R -> rvn' = rvn) /\
     ((rvn < 0)%R -> isStatic (h a) = false -> isStatic (h b) = false ->
        rvn' = (- rvn / 2)%R) /\
     ((rvn < 0)%R -> isStatic (h a) <> isStatic (h b) ->
        rvn' = (rvn / 4)%R)).
Proof.
  intros Hab rvn.
  destruct (contact_normals_unit a b h n pen) as (UCC & _ & UAA).
  split.
  - intros Hc rvn'. pose proof (UCC Hc) as Hn.
    destruct (ResolveCircleCircle_bodies a b h n pen Hab Hc) as [EA EB].
    cbv zeta in EA, EB. fold rvn in EA, EB.
    cbn [fltb Rscalar] in EA, EB. rewrite R_f0 in EA, EB.
    unfold rvn'. rewrite EA, EB. clear EA EB rvn'.
    split_and.
    + intros Hle. rewrite Rltb_false by assumption.
      destruct (isStatic (h a)), (isStatic (h b));
        unfold rvn; f_equal; vec_ring.
    + intros Hlt SA SB. rewrite Rltb_true, SA, SB by assumption.
      transitivity (rvn - 3 / 2 * rvn * dot n n)%R;
        [| rewrite Hn; field].
      unfold rvn, dot, velocity, pushed_back, pushed_forth, vadd, vsub,
        vscale; simpl. rewrite R_f1, R_fhalf. field.
    + intros Hlt Hne. rewrite Rltb_true by assumption.
      transitivity (rvn - 3 / 4 * rvn * dot n n)%R;
        [| rewrite Hn; field].
      destruct (isStatic (h a)), (isStatic (h b)); try congruence;
        unfold rvn, dot, velocity, pushed_back, pushed_forth, vadd, vsub,
          vscale; simpl; rewrite R_f1, R_fhalf; field.
  - intros Hc rvn'. pose proof (UAA Hc) as Hn.
    destruct (ResolveAABBAABB_bodies a b h n pen Hab Hc) as [EA EB].
    cbv zeta in EA, EB. fold rvn in EA, EB.
    cbn [fltb Rscalar] in EA, EB. rewrite R_f0 in EA, EB.
    unfold rvn'. rewrite EA, EB. clear EA EB rvn'.
    split_and.
    + intros Hle. rewrite Rltb_false by assumption.
      destruct (isStatic (h a)), (isStatic (h b));
        unfold rvn; f_equal; vec_ring.
    + intros Hlt SA SB. rewrite Rltb_true, SA, SB by assumption.
      transitivity (rvn - 3 / 2 * rvn * dot n n)%R;
        [| rewrite Hn; field].
      unfold rvn, dot, velocity, pushed_back, pushed_forth, vadd, vsub,
        vscale; simpl. rewrite R_f1, R_fhalf. field.
    + intros Hlt Hne. rewrite Rltb_true by assumption.
      transitivity (rvn - 3 / 4 * rvn * dot n n)%R;
        [| rewrite Hn; field].
      destruct (isStatic (h a)), (isStatic (h b)); try congruence;
        unfold rvn, dot, velocity, pushed_back, pushed_forth, vadd, vsub,
          vscale; simpl; rewrite R_f1, R_fhalf; field.
Qed.

(** X18. The bounce of [ResolveCircleAABB] in the reals, for a non-static
    circle in contact with a box along the normal [n].  When the circle
    moves into the surface (its implicit velocity along [n] is negative)
    the component along [n] is reversed and scaled by the circle's own
    [bounciness], and the component along the tangent is scaled by
    [0.98]; the box's bounciness and static flag play no part.
    Otherwise the implicit velocity of the circle is unchanged. *)
Theorem X18_circle_box_reflection
  (circle box : Addr) (h : Heap R) (n : Vector2f R) (pen : R) :
  CircleAABB_contact circle box h = Some (n, pen) ->
  isStatic (h circle) = false ->
  let vel := velocity (h circle) in
  let tangent := Vec2 (- vy n)%R (vx n) in
  let vel' := velocity (ResolveCircleAABB circle box h circle) in
  ((dot vel n < 0)%R ->
     dot vel' n = (- dot vel n * bounciness (h circle))%R /\
     dot vel' tangent = (dot vel tangent * (98 / 100))%R) /\
  ((0 <= dot vel n)%R -> vel' = vel).
Proof.
  intros Hc SA vel tangent vel'.
  destruct (contact_normals_unit circle box h n pen) as (_ & UCA & _).
  pose proof (UCA Hc) as Hn.
  pose proof (ResolveCircleAABB_circle circle box h n pen Hc) as E.
  cbv zeta in E. fold vel in E. rewrite SA in E.
  cbn [fltb Rscalar] in E. rewrite R_f0 in E.
  unfold vel'. rewrite E. clear E vel'.
  split.
  - intros Hlt. rewrite Rltb_true by assumption. split.
    + transitivity
        (dot vel n
         + (- dot vel n * bounciness (h circle) - dot vel n) * dot n n)%R;
        [| rewrite Hn; ring].
      unfold tangent, vel, dot, velocity, pushed_forth, vadd, vsub, vscale.
      simpl. ring.
    + transitivity
        (dot vel tangent
         + (dot vel tangent * (98 / 100) - dot vel tangent) * dot n n)%R;
        [| rewrite Hn; ring].
      unfold tangent, vel, dot, velocity, pushed_forth, vadd, vsub, vscale.
      simpl. rewrite R_f098. ring.
  - intros Hge. rewrite Rltb_false by assumption. unfold vel. vec_ring.
Qed.

Lemma approaching_circles_separation :
  separation 0%nat 1%nat approaching_circles_heap = 2%R.
Proof. unfold separation, norm, dot, vsub. simpl. apply sqrt_4_0. Qed.

Lemma X17_bounce_restitution_witness :
  dot (vsub (velocity (ResolveCircleCircle 0%nat 1%nat
                         approaching_circles_heap 0%nat))
            (velocity (ResolveCircleCircle 0%nat 1%nat
                         approaching_circles_heap 1%nat)))
      (vdiv (vsub (position (approaching_circles_heap 1%nat))
                  (position (approaching_circles_heap 0%nat)))
            (separation 0%nat 1%nat approaching_circles_heap))
    = (- dot (vsub (velocity (approaching_circles_heap 0%nat))
                   (velocity (approaching_circles_heap 1%nat)))
             (vdiv (vsub (position (approaching_circles_heap 1%nat))
                         (position (approaching_circles_heap 0%nat)))
                   (separation 0%nat 1%nat approaching_circles_heap))
       / 2)%R.
Proof.
  destruct (X17_bounce_restitution 0%nat 1%nat approaching_circles_heap
              (vdiv (vsub (position (approaching_circles_heap 1%nat))
                          (position (approaching_circles_heap 0%nat)))
                    (separation 0%nat 1%nat approaching_circles_heap))
              (2 + 2 - separation 0%nat 1%nat approaching_circles_heap)%R)
    as [H _]; [discriminate |].
  destruct H as (_ & H & _).
  - apply (CircleCircle_contact_far 0%nat 1%nat approaching_circles_heap
             (mkCircleCollider 2%R) (mkCircleCollider 2%R));
      [reflexivity | reflexivity |].
    rewrite approaching_circles_separation. simpl. lra.
  - apply H; [| reflexivity | reflexivity].
    rewrite approaching_circles_separation.
    unfold dot, velocity, vsub, vdiv; simpl. lra.
Defined.

Lemma ball_on_floor_contact :
  CircleAABB_contact 0%nat 1%nat ball_on_floor_heap
    = Some (Vec2 0%R (-1)%R, 15%R).
Proof.
  assert (E5 : forall x : R, x = (5 * 5)%R -> sqrt x = 5%R).
  { intros x ->. apply sqrt_square. lra. }
  unfold CircleAABB_contact, fclamp, dot, vsub, vadd. simpl.
  rewrite R_fhalf, R_feps.
  rewrite (Rltb_false 100 (100 - 200 * (1 / 2))) by lra.
  rewrite (Rltb_false (100 + 200 * (1 / 2)) 100) by lra.
  rewrite (Rltb_true 170 (200 - 50 * (1 / 2))) by lra.
  rewrite (E5 _) by field.
  rewrite Rltb_true by lra.
  rewrite Rltb_false by lra.
  f_equal. f_equal; [| field].
  unfold vdiv; simpl. apply Vec2_eq_R; field.
Qed.

Lemma X18_circle_box_reflection_witness :
  dot (velocity (ResolveCircleAABB 0%nat 1%nat ball_on_floor_heap 0%nat))
      (Vec2 0%R (-1)%R)
    = (- dot (velocity (ball_on_floor_heap 0%nat)) (Vec2 0%R (-1)%R)
       * bounciness (ball_on_floor_heap 0%nat))%R.
Proof.
  destruct (X18_circle_box_reflection 0%nat 1%nat ball_on_floor_heap
              (Vec2 0%R (-1)%R) 15%R ball_on_floor_contact eq_refl)
    as [H _].
  apply H. unfold dot, velocity, vsub; simpl. lra.
Defined.

(** ** A rigid link over the whole constraint pass *)

Lemma DistanceSolve_satisfied (c : DistanceConstraint R) (h : Heap R) (q : Addr) :
  separation (d_objA c) (d_objB c) h = d_restLength c ->
  DistanceSolve c h q = h q.
Proof.
  intros E. unfold DistanceSolve. cbv zeta.
  change (norm (vsub (position (h (d_objB c))) (position (h (d_objA c)))))
    with (separation (d_objA c) (d_objB c) h).
  rewrite E. destruct (_ [<] _); [reflexivity |].
  apply distribute_zero. unfold vscale, vdiv; simpl.
  apply Vec2_eq_R; ring.
Qed.

Lemma separation_ext (a b : Addr) (h h' : Heap R) :
  h' a = h a -> h' b = h b -> separation a b h' = separation a b h.
Proof. intros Ha Hb. unfold separation. now rewrite Ha, Hb. Qed.

(** X19. A world whose only constraint is a distance constraint of
    stiffness 1 with a rest length that is not negative, in the reals:
    if the link is at least [0.0001] long when the constraint pass
    starts and the iteration count is at least one, the link has
    exactly its rest length when the pass ends.  The first iteration
    reaches the rest length and the later ones change no body. *)
Theorem X19_rigid_link_after_pass
  (w : PhysicsWorld R) (ptr : Addr) (c : DistanceConstraint R) (h : Heap R) :
  m_constraints w = [(ptr, CDistance c)] ->
  (0 < m_constraintIterations w)%Z ->
  d_stiffness c = 1%R -> (0 <= d_restLength c)%R ->
  (1 / 10000 <= separation (d_objA c) (d_objB c) h)%R ->
  separation (d_objA c) (d_objB c) (SolveConstraints w h) = d_restLength c /\
  forall q, SolveConstraints w h q = DistanceSolve c h q.
Proof.
  intros Ecs Hn Hk Hr Hsep.
  unfold SolveConstraints, repeat_int. rewrite Ecs.
  destruct (Z.to_nat (m_constraintIterations w)) as [| k] eqn:Ek; [lia |].
  clear Ek Hn.
  assert (H1 : separation (d_objA c) (d_objB c) (DistanceSolve c h)
               = d_restLength c).
  { rewrite DistanceSolve_separation, Hk by (assumption || lra). ring. }
  assert (Hiter : forall q,
            Nat.iter (S k)
              (for_each [(ptr, CDistance c)] (fun c0 => Solve (snd c0))) h q
            = DistanceSolve c h q).
  { induction k as [| k IH]; intros q; [reflexivity |].
    change (Nat.iter (S (S k)) ?f h) with (f (Nat.iter (S k) f h)).
    unfold for_each at 1. simpl fold_left. simpl Solve.
    rewrite DistanceSolve_satisfied; [apply IH |].
    rewrite (separation_ext _ _ (DistanceSolve c h)); [exact H1 | |];
      apply IH. }
  split; [| exact Hiter].
  rewrite (separation_ext _ _ (DistanceSolve c h)); [exact H1 | |];
    apply Hiter.
Qed.

Lemma X19_rigid_link_after_pass_witness :
  separation 0%nat 1%nat
    (SolveConstraints unit_link_world (link_heap true false))
    = 1%R.
Proof.
  assert (E : separation 0%nat 1%nat (link_heap true false) = 2%R).
  { unfold separation, norm, dot, vsub. simpl. apply sqrt_4_0. }
  apply (X19_rigid_link_after_pass unit_link_world 0%nat unit_link
           (link_heap true false)).
  - reflexivity.
  - simpl. lia.
  - reflexivity.
  - simpl. lra.
  - simpl. rewrite E. lra.
Defined.

(** ** The order of the collision pairs *)

Section PairFacts.

Context {F : Type} {SF : Scalar F}.

Lemma fold_left_map_pair (a : Addr) (rest : list Addr) (h : Heap F) :
  fold_left (fun h' p => collide_pair (fst p) (snd p) h') (map (pair a) rest) h
    = fold_left (fun h' b => collide_pair a b h') rest h.
Proof.
  revert h. induction rest as [| b rest IH]; intros h; simpl;
    [reflexivity | apply IH].
Qed.

(** X20. The collision pass calls the pair routine once for every pair of
    positions [i < j] of [m_objects], with the earlier registered body as
    first argument, by [i] and then by [j]: for [n] registrations that
    is [n * (n - 1) / 2] calls, and a body registered twice is paired
    with itself. *)
Theorem X20_collision_pair_order (objects : list Addr) (h : Heap F) :
  collisions objects h
    = fold_left (fun h' p => collide_pair (fst p) (snd p) h')
                (index_pairs objects) h /\
  (2 * length (index_pairs objects)
     = length objects * (length objects - 1))%nat /\
  (forall a b,
     In (a, b) (index_pairs objects) <->
     exists l1 l2 l3, objects = l1 ++ a :: l2 ++ b :: l3) /\
  (forall a, (2 <= count_occ Nat.eq_dec objects a)%nat ->
             In (a, a) (index_pairs objects)).
Proof.
  assert (Hin : forall l a b,
            In (a, b) (index_pairs l) <->
            exists l1 l2 l3, l = l1 ++ a :: l2 ++ b :: l3).
  { induction l as [| x l IH]; intros a b; simpl.
    - split; [tauto |]. intros (l1 & l2 & l3 & E).
      destruct l1; discriminate.
    - rewrite in_app_iff, in_map_iff, IH. split.
      + intros [(y & E & Hy) | (l1 & l2 & l3 & ->)].
        * injection E as -> ->.
          apply in_split in Hy. destruct Hy as (l2 & l3 & ->).
          exists [], l2, l3. reflexivity.
        * exists (x :: l1), l2, l3. reflexivity.
      + intros (l1 & l2 & l3 & E). destruct l1 as [| y l1]; simpl in E.
        * injection E as -> ->. left. exists b. split; [reflexivity |].
          apply in_or_app. right. now left.
        * injection E as -> ->. right. exists l1, l2, l3. reflexivity. }
  split_and.
  - revert h. induction objects as [| a rest IH]; intros h; simpl;
      [reflexivity |].
    rewrite fold_left_app, fold_left_map_pair. apply IH.
  - induction objects as [| a rest IH]; simpl; [reflexivity |].
    rewrite length_app, length_map. destruct rest as [| b rest];
      simpl in *; lia.
  - apply Hin.
  - intros a Hc. apply Hin.
    assert (H1 : In a objects) by (apply (count_occ_In Nat.eq_dec); lia).
    apply in_split in H1. destruct H1 as (l1 & l2 & ->).
    assert (H2 : In a (l1 ++ l2)).
    { apply (count_occ_In Nat.eq_dec).
      rewrite count_occ_app in *. simpl in Hc.
      destruct (Nat.eq_dec a a) as [_ | N]; [| contradiction].
      unfold Addr in *. lia. }
    apply in_app_or in H2. destruct H2 as [H2 | H2];
      apply in_split in H2; destruct H2 as (m1 & m2 & ->).
    + exists m1, m2, l2. now rewrite <- app_assoc.
    + exists l1, m1, m2. reflexivity.
Qed.

End PairFacts.

Lemma X20_collision_pair_order_witness :
  In (3%nat, 3%nat) (index_pairs [3%nat; 5%nat; 3%nat]).
Proof.
  destruct (@X20_collision_pair_order R _ [3%nat; 5%nat; 3%nat]
              pendulum_heap) as (_ & _ & _ & H).
  apply H. simpl. lia.
Defined.

(** ** Degenerate and box contacts in exact arithmetic *)

Lemma CircleCircle_contact_coincident (a b : Addr) (h : Heap R)
  (ca cb : CircleCollider R) :
  GetCircleCollider (h a) = Some ca -> GetCircleCollider (h b) = Some cb ->
  position (h a) = position (h b) ->
  (radius ca + radius cb <> 0)%R ->
  CircleCircle_contact a b h = Some (Vec2 f1 f0, (radius ca + radius cb)%R).
Proof.
  intros Ea Eb Ep Hrs. unfold CircleCircle_contact. rewrite Ea, Eb, Ep.
  cbv zeta.
  assert (E0 : dot (vsub (position (h b)) (position (h b)))
                   (vsub (position (h b)) (position (h b))) = 0%R).
  { unfold dot, vsub; simpl. ring. }
  rewrite E0. cbn [fadd fmul fltb fsqrt Rscalar].
  rewrite Rltb_true by nra.
  rewrite sqrt_0, R_feps, Rltb_true by lra. reflexivity.
Qed.

(** X21. Two circles with the same centre, as when two balls are created
    at one point: in the reals [ResolveCircleCircle] on two distinct
    non-static bodies moves the first one left and the second one right
    along the x axis, each by half the sum of the radii, so that the
    centres end up exactly the sum of the radii apart; the y coordinates
    do not change. *)
Theorem X21_coincident_circles
  (a b : Addr) (h : Heap R) (ca cb : CircleCollider R) :
  GetCircleCollider (h a) = Some ca -> GetCircleCollider (h b) = Some cb ->
  a <> b -> isStatic (h a) = false -> isStatic (h b) = false ->
  position (h a) = position (h b) ->
  (0 < radius ca + radius cb)%R ->
  position (ResolveCircleCircle a b h a)
    = vsub (position (h a)) (Vec2 ((radius ca + radius cb) / 2)%R 0%R) /\
  position (ResolveCircleCircle a b h b)
    = vadd (position (h b)) (Vec2 ((radius ca + radius cb) / 2)%R 0%R) /\
  separation a b (ResolveCircleCircle a b h) = (radius ca + radius cb)%R.
Proof.
  intros Ea Eb Hab SA SB Ep Hrs.
  assert (Hc : CircleCircle_contact a b h
               = Some (Vec2 f1 f0, (radius ca + radius cb)%R)).
  { apply CircleCircle_contact_coincident; trivial. lra. }
  assert (Hpos : forall x,
            position (ResolveCircleCircle a b h x)
            = position (CircleCircle_correct a b (Vec2 f1 f0)
                          (radius ca + radius cb)%R h x)).
  { intros x. unfold ResolveCircleCircle. rewrite Hc. cbv zeta. unfold seq.
    apply keeps_position_CircleCircle_bounce. }
  destruct (CircleCircle_correct_position a b (Vec2 f1 f0)
              (radius ca + radius cb)%R h Hab) as [HA HB].
  rewrite SA in HA. rewrite SB in HB.
  assert (PA : position (ResolveCircleCircle a b h a)
               = vsub (position (h a))
                      (Vec2 ((radius ca + radius cb) / 2)%R 0%R)).
  { rewrite Hpos, HA. unfold vsub, vscale; simpl.
    rewrite R_f1, R_f0, R_fhalf. apply Vec2_eq_R; field. }
  assert (PB : position (ResolveCircleCircle a b h b)
               = vadd (position (h b))
                      (Vec2 ((radius ca + radius cb) / 2)%R 0%R)).
  { rewrite Hpos, HB. unfold vadd, vscale; simpl.
    rewrite R_f1, R_f0, R_fhalf. apply Vec2_eq_R; field. }
  split_and; [exact PA | exact PB |].
  unfold separation. rewrite PA, PB, Ep.
  unfold norm, dot, vsub, vadd; simpl.
  replace ((vx (position (h b)) + (radius ca + radius cb) / 2
            - (vx (position (h b)) - (radius ca + radius cb) / 2))
           * (vx (position (h b)) + (radius ca + radius cb) / 2
              - (vx (position (h b)) - (radius ca + radius cb) / 2))
           + (vy (position (h b)) + 0 - (vy (position (h b)) - 0))
             * (vy (position (h b)) + 0 - (vy (position (h b)) - 0)))%R
    with ((radius ca + radius cb) * (radius ca + radius cb))%R by field.
  apply sqrt_square. lra.
Qed.

Lemma X21_coincident_circles_witness :
  separation 0%nat 1%nat (ResolveCircleCircle 0%nat 1%nat two_circles_heap)
    = (25 + 25)%R.
Proof.
  apply (X21_coincident_circles 0%nat 1%nat two_circles_heap
           (mkCircleCollider 25%R) (mkCircleCollider 25%R));
    try reflexivity.
  - discriminate.
  - simpl. lra.
Defined.

Lemma CircleAABB_contact_far (circle box : Addr) (h : Heap R)
  (cc : CircleCollider R) (bb : AABBCollider R) :
  GetCircleCollider (h circle) = Some cc ->
  GetAABBCollider (h box) = Some bb ->
  let diff :=
    vsub (position (h circle))
         (closestPoint (position (h circle)) (position (h box))
                       (halfExtents bb)) in
  (1 / 10000 <= norm diff < radius cc)%R ->
  CircleAABB_contact circle box h
    = Some (vdiv diff (norm diff), (radius cc - norm diff)%R).
Proof.
  intros Ea Eb diff Hd. unfold CircleAABB_contact. rewrite Ea, Eb.
  cbv zeta.
  change (vsub (position (h circle))
            (Vec2 (fclamp (vx (position (h circle)))
                     (vx (vsub (position (h box)) (halfExtents bb)))
                     (vx (vadd (position (h box)) (halfExtents bb))))
                  (fclamp (vy (position (h circle)))
                     (vy (vsub (position (h box)) (halfExtents bb)))
                     (vy (vadd (position (h box)) (halfExtents bb))))))
    with diff.
  pose proof (norm_square diff) as H2.
  change (fsqrt (dot diff diff)) with (norm diff).
  cbn [fadd fsub fmul fltb Rscalar].
  rewrite <- H2, R_feps.
  rewrite Rltb_true by nra.
  rewrite Rltb_false by lra. reflexivity.
Qed.

(** X22. A non-static circle overlapping a box, with its centre at least
    [0.0001] away from the nearest point of the box, in the reals.
    Measured from that point as it moves with the box, the centre of the
    circle is exactly one radius away after [ResolveCircleAABB] when the
    box is static: the overlap is removed in one call.  When the box is
    not static either, both bodies take the whole correction and the
    centre ends up at [2 * radius - distance]: the pair is pushed apart
    by twice the penetration. *)
Theorem X22_circle_box_separation
  (circle box : Addr) (h : Heap R)
  (cc : CircleCollider R) (bb : AABBCollider R) :
  GetCircleCollider (h circle) = Some cc ->
  GetAABBCollider (h box) = Some bb ->
  isStatic (h circle) = false ->
  let cp := closestPoint (position (h circle)) (position (h box))
                         (halfExtents bb) in
  let d := norm (vsub (position (h circle)) cp) in
  let rel :=
    vsub (vsub (position (ResolveCircleAABB circle box h circle))
               (position (ResolveCircleAABB circle box h box)))
         (vsub cp (position (h box))) in
  (1 / 10000 <= d < radius cc)%R ->
  (isStatic (h box) = true -> norm rel = radius cc) /\
  (isStatic (h box) = false -> norm rel = (2 * radius cc - d)%R).
Proof.
  intros Ea Eb SA cp d rel Hd.
  pose proof (CircleAABB_contact_far circle box h cc bb Ea Eb Hd) as Hc.
  fold cp in Hc. fold d in Hc.
  set (diff := vsub (position (h circle)) cp) in *.
  assert (Hab : circle <> box).
  { apply (CircleAABB_contact_distinct circle box h). now rewrite Hc. }
  assert (Hpos : forall x,
            position (ResolveCircleAABB circle box h x)
            = position (CircleAABB_correct circle box (vdiv diff d)
                          (radius cc - d)%R h x)).
  { intros x. unfold ResolveCircleAABB. rewrite Hc. cbv zeta. unfold seq.
    apply keeps_position_CircleAABB_bounce. }
  destruct (CircleAABB_correct_position circle box (vdiv diff d)
              (radius cc - d)%R h Hab) as [HA HB].
  rewrite SA in HA.
  assert (Hscale : forall s : R,
            (0 <= s)%R -> norm (vscale diff (s / d)%R) = s).
  { intros s Hs. apply norm_along; [fold d |]; lra. }
  unfold rel. rewrite !Hpos, HA, HB. clear rel Hpos HA HB.
  split; intros SB; rewrite SB.
  - match goal with
    | |- norm ?X = _ => replace X with (vscale diff (radius cc / d)%R)
    end; [apply Hscale; lra |].
    unfold diff. destruct (position (h circle)) as [cx cy],
      (position (h box)) as [bx by_], cp as [px py].
    unfold vsub, vadd, vscale, vdiv; simpl. apply Vec2_eq_R; field; lra.
  - match goal with
    | |- norm ?X = _ =>
        replace X with (vscale diff ((2 * radius cc - d) / d)%R)
    end; [apply Hscale; lra |].
    unfold diff. destruct (position (h circle)) as [cx cy],
      (position (h box)) as [bx by_], cp as [px py].
    unfold vsub, vadd, vscale, vdiv; simpl. apply Vec2_eq_R; field; lra.
Qed.

Lemma ball_on_floor_closest :
  closestPoint (position (ball_on_floor_heap 0%nat))
               (position (ball_on_floor_heap 1%nat))
               (Vec2 (200 * fhalf)%R (50 * fhalf)%R)
    = Vec2 100%R 175%R.
Proof.
  unfold closestPoint, fclamp, vsub, vadd. simpl. rewrite R_fhalf.
  rewrite (Rltb_false 100 (100 - 200 * (1 / 2))) by lra.
  rewrite (Rltb_false (100 + 200 * (1 / 2)) 100) by lra.
  rewrite (Rltb_true 170 (200 - 50 * (1 / 2))) by lra.
  apply Vec2_eq_R; field.
Qed.

Lemma X22_circle_box_separation_witness :
  norm (vsub (vsub (position (ResolveCircleAABB 0%nat 1%nat
                                ball_on_floor_heap 0%nat))
                   (position (ResolveCircleAABB 0%nat 1%nat
                                ball_on_floor_heap 1%nat)))
             (vsub (closestPoint (position (ball_on_floor_heap 0%nat))
                                 (position (ball_on_floor_heap 1%nat))
                                 (Vec2 (200 * fhalf)%R (50 * fhalf)%R))
                   (position (ball_on_floor_heap 1%nat))))
    = 20%R.
Proof.
  destruct (X22_circle_box_separation 0%nat 1%nat ball_on_floor_heap
              (mkCircleCollider 20%R)
              (mkAABBCollider (Vec2 (200 * fhalf)%R (50 * fhalf)%R))
              eq_refl eq_refl eq_refl) as [H _].
  - simpl halfExtents. rewrite ball_on_floor_closest.
    unfold norm, dot, vsub. simpl.
    replace ((100 - 100) * (100 - 100) + (170 - 175) * (170 - 175))%R
      with (5 * 5)%R by ring.
    rewrite sqrt_square by lra. lra.
  - apply H. reflexivity.
Defined.

(** X23. Two overlapping boxes on two distinct non-static bodies, in the
    reals: after [ResolveAABBAABB] the boxes touch exactly.  A second
    overlap test on the result finds the same contact normal with a
    penetration of zero. *)
Theorem X23_boxes_touch_after_resolution
  (a b : Addr) (h : Heap R) (n : Vector2f R) (pen : R) :
  a <> b -> isStatic (h a) = false -> isStatic (h b) = false ->
  AABBAABB_contact a b h = Some (n, pen) ->
  AABBAABB_contact a b (ResolveAABBAABB a b h) = Some (n, 0%R).
Proof.
  intros Hab SA SB Hc.
  assert (Hpos : forall x,
            position (ResolveAABBAABB a b h x)
            = position (AABBAABB_correct a b n pen h x)).
  { intros x. unfold ResolveAABBAABB. rewrite Hc. cbv zeta. unfold seq.
    apply keeps_position_AABBAABB_bounce. }
  destruct (AABBAABB_correct_position a b n pen h Hab) as [HA HB].
  rewrite SA in HA. rewrite SB in HB.
  destruct (ResolveAABBAABB_bodies a b h n pen Hab Hc) as [EA EB].
  cbv zeta in EA, EB. rewrite SA in EA. rewrite SB in EB.
  assert (CA : GetAABBCollider (ResolveAABBAABB a b h a)
               = GetAABBCollider (h a)).
  { rewrite EA. destruct (_ [<] _); reflexivity. }
  assert (CB : GetAABBCollider (ResolveAABBAABB a b h b)
               = GetAABBCollider (h b)).
  { rewrite EB. destruct (_ [<] _); reflexivity. }
  clear EA EB.
  unfold AABBAABB_contact. rewrite CA, CB, !Hpos, HA, HB.
  clear CA CB Hpos HA HB. revert Hc. unfold AABBAABB_contact.
  destruct (GetAABBCollider (h a)) as [[[hax hay]] |]; [| discriminate].
  destruct (GetAABBCollider (h b)) as [[[hbx hby]] |]; [| discriminate].
  destruct (position (h a)) as [ax ay], (position (h b)) as [bx by_].
  cbv zeta. unfold fgtb, fmin, vadd, vsub, vscale. simpl.
  rewrite R_fhalf, R_f0, R_f1, R_fm1. intros Hc.
  repeat (case_Rltb; simpl in Hc; try discriminate);
    injection Hc as <- <-; simpl;
    repeat match goal with
           | |- context [Rltb ?x ?y] =>
               first [ rewrite (Rltb_true x y) by lra
                     | rewrite (Rltb_false x y) by lra ]
           | |- context [Rltb ?x ?y] =>
               lazymatch x with
               | context [Rltb _ _] => fail
               | _ => idtac
               end;
               lazymatch y with
               | context [Rltb _ _] => fail
               | _ => idtac
               end;
               let H := fresh "H" in
               destruct (Rlt_dec x y) as [H | H];
               [ rewrite (Rltb_true x y H)
               | rewrite (Rltb_false x y) by lra ]
           end;
    simpl; f_equal; f_equal; lra.
Qed.

Lemma overlapping_boxes_contact :
  AABBAABB_contact 0%nat 1%nat overlapping_boxes_heap
    = Some (Vec2 fm1 f0, 1%R).
Proof.
  unfold AABBAABB_contact, fgtb, fmin, vadd, vsub. simpl.
  rewrite R_fhalf.
  repeat match goal with
         | |- context [Rltb ?x ?y] =>
             first [ rewrite (Rltb_true x y) by lra
                   | rewrite (Rltb_false x y) by lra ]
         end.
  simpl. f_equal. f_equal. field.
Qed.

Lemma X23_boxes_touch_after_resolution_witness :
  AABBAABB_contact 0%nat 1%nat
    (ResolveAABBAABB 0%nat 1%nat overlapping_boxes_heap)
    = Some (Vec2 fm1 f0, 0%R).
Proof.
  apply (X23_boxes_touch_after_resolution 0%nat 1%nat
           overlapping_boxes_heap (Vec2 fm1 f0) 1%R).
  - discriminate.
  - reflexivity.
  - reflexivity.
  - exact overlapping_boxes_contact.
Defined.
